(** * A shallow embedding of the GraphQL lexer (package lexer, lexer.go)

    The Go lexer is a mutable struct that is advanced by its methods.  It is
    embedded here with explicit state passing: every method takes the lexer
    state and returns the new one together with its results.  Go run-time
    panics (index or slice out of range) are an explicit outcome.

    Conventions.
    - A Go string is a sequence of bytes: [list byte].
    - A Go [int] offset is a [Z].  Offsets never exceed the length of the
      input by more than a small constant, so no wrap-around can occur.
    - A rune is a [Z].
    - Loops are written with a fuel argument that is only consumed when the
      loop condition holds; running out of fuel is a separate outcome, which
      is proved impossible for the fuel the top-level functions provide
      ([ReadToken_terminates], [PeekToken_terminates]). *)

From Stdlib Require Import Strings.String.
From Stdlib Require Import ZArith List Lia Bool.
From Stdlib Require Import Strings.Byte.
Import ListNotations.
Local Open Scope Z_scope.

(** ** Outcomes of a Go call *)

Inductive outcome (A : Type) : Type :=
| Return (a : A)
| Panic
| OutOfFuel.

Arguments Return {A} a.
Arguments Panic {A}.
Arguments OutOfFuel {A}.

Definition bind {A B : Type} (m : outcome A) (k : A -> outcome B) : outcome B :=
  match m with
  | Return a => k a
  | Panic => Panic
  | OutOfFuel => OutOfFuel
  end.

Notation "x <- m ;; k" := (bind m (fun x => k))
  (at level 61, m at next level, right associativity).
Notation "' pat <- m ;; k" := (bind m (fun x => match x with pat => k end))
  (at level 61, pat pattern, m at next level, right associativity).

(** ** Go strings *)

Definition bytes (s : String.string) : list byte :=
  String.list_byte_of_string s.

Definition len (bs : list byte) : Z := Z.of_nat (length bs).

(** The numeric value of a byte. *)
Definition bz (b : byte) : Z := Z.of_N (Byte.to_N b).

(** Conversion of an integer to [uint8]. *)
Definition byte_of_Z (z : Z) : byte :=
  match Byte.of_N (Z.to_N (z mod 256)) with
  | Some b => b
  | None => x00
  end.

(** [bs[i]]: panics when the index is out of range. *)
Definition index (bs : list byte) (i : Z) : outcome byte :=
  if (0 <=? i) && (i <? len bs) then
    match nth_error bs (Z.to_nat i) with
    | Some b => Return b
    | None => Panic
    end
  else Panic.

(** [bs[lo:hi]]: panics unless [0 <= lo <= hi <= len bs]. *)
Definition slice (bs : list byte) (lo hi : Z) : outcome (list byte) :=
  if (0 <=? lo) && (lo <=? hi) && (hi <=? len bs) then
    Return (firstn (Z.to_nat (hi - lo)) (skipn (Z.to_nat lo) bs))
  else Panic.

Fixpoint bytes_eqb (a b : list byte) : bool :=
  match a, b with
  | [], [] => true
  | x :: a', y :: b' => Byte.eqb x y && bytes_eqb a' b'
  | _, _ => false
  end.

(** Go's short-circuit conjunction, when the right operand may panic. *)
Definition and_then (c : bool) (m : outcome bool) : outcome bool :=
  if c then m else Return false.

(** ** unicode/utf8 *)

Definition RuneError : Z := 0xFFFD.
Definition MaxRune : Z := 0x10FFFF.

(** Continuation byte, in the range [lo .. hi]. *)
Definition in_range (lo hi : Z) (b : byte) : bool :=
  (lo <=? bz b) && (bz b <=? hi).

Definition contb (b : byte) : Z := Z.land (bz b) 0x3F.

(** The size and the accepted range of the second byte that the table
    [first] of unicode/utf8 gives for a leading byte; [None] for an invalid
    leading byte.  ASCII bytes are handled before the table is used. *)
Definition lead_info (s0 : Z) : option (Z * Z * Z) :=
  if (0xC2 <=? s0) && (s0 <=? 0xDF) then Some (2, 0x80, 0xBF)
  else if s0 =? 0xE0 then Some (3, 0xA0, 0xBF)
  else if (0xE1 <=? s0) && (s0 <=? 0xEC) then Some (3, 0x80, 0xBF)
  else if s0 =? 0xED then Some (3, 0x80, 0x9F)
  else if (0xEE <=? s0) && (s0 <=? 0xEF) then Some (3, 0x80, 0xBF)
  else if s0 =? 0xF0 then Some (4, 0x90, 0xBF)
  else if (0xF1 <=? s0) && (s0 <=? 0xF3) then Some (4, 0x80, 0xBF)
  else if s0 =? 0xF4 then Some (4, 0x80, 0x8F)
  else None.

(** utf8.DecodeRuneInString: the first rune of the string and its width in
    bytes; [(RuneError, 0)] for the empty string and [(RuneError, 1)] for an
    invalid encoding. *)
Definition DecodeRuneInString (bs : list byte) : Z * Z :=
  match bs with
  | [] => (RuneError, 0)
  | b0 :: t0 =>
    let s0 := bz b0 in
    if s0 <? 0x80 then (s0, 1)
    else
      match lead_info s0 with
      | None => (RuneError, 1)
      | Some (sz, lo, hi) =>
        match t0 with
        | [] => (RuneError, 1)
        | b1 :: t1 =>
          if negb (in_range lo hi b1) then (RuneError, 1)
          else if sz <=? 2 then
            (Z.lor (Z.shiftl (Z.land s0 0x1F) 6) (contb b1), 2)
          else
            match t1 with
            | [] => (RuneError, 1)
            | b2 :: t2 =>
              if negb (in_range 0x80 0xBF b2) then (RuneError, 1)
              else if sz <=? 3 then
                (Z.lor (Z.lor (Z.shiftl (Z.land s0 0x0F) 12)
                              (Z.shiftl (contb b1) 6)) (contb b2), 3)
              else
                match t2 with
                | [] => (RuneError, 1)
                | b3 :: _ =>
                  if negb (in_range 0x80 0xBF b3) then (RuneError, 1)
                  else
                    (Z.lor (Z.lor (Z.lor (Z.shiftl (Z.land s0 0x07) 18)
                                         (Z.shiftl (contb b1) 12))
                                  (Z.shiftl (contb b2) 6)) (contb b3), 4)
                end
            end
        end
      end
  end.

(** The runes a [for ... range] loop over a string visits. *)
Fixpoint runes_fuel (fuel : nat) (bs : list byte) : list Z :=
  match fuel, bs with
  | _, [] => []
  | O, _ => []
  | S fuel', _ =>
    let '(r, w) := DecodeRuneInString bs in
    r :: runes_fuel fuel' (skipn (Z.to_nat w) bs)
  end.

Definition runes (bs : list byte) : list Z := runes_fuel (length bs) bs.

(** utf8.RuneCountInString: an invalid byte counts as one rune. *)
Definition RuneCountInString (bs : list byte) : Z :=
  Z.of_nat (length (runes bs)).

(** The result [(RuneError, 1)] of a decoding step signals an invalid
    encoding. *)
Definition is_error (rw : Z * Z) : bool :=
  (fst rw =? RuneError) && (snd rw =? 1).

Fixpoint valid_fuel (fuel : nat) (bs : list byte) : bool :=
  match fuel, bs with
  | _, [] => true
  | O, _ => false
  | S fuel', _ =>
    let rw := DecodeRuneInString bs in
    negb (is_error rw) && valid_fuel fuel' (skipn (Z.to_nat (snd rw)) bs)
  end.

(** utf8.ValidString: the string consists of valid encodings only. *)
Definition ValidString (bs : list byte) : bool := valid_fuel (length bs) bs.

(** utf8.AppendRune on an empty slice: the UTF-8 encoding of a rune; runes
    out of range and surrogate halves are encoded as [RuneError]. *)
Definition EncodeRune (r : Z) : list byte :=
  if (0 <=? r) && (r <=? 0x7F) then [byte_of_Z r]
  else if (0 <=? r) && (r <=? 0x7FF) then
    [byte_of_Z (Z.lor 0xC0 (Z.shiftr r 6));
     byte_of_Z (Z.lor 0x80 (Z.land r 0x3F))]
  else
    let r' := if (r <? 0) || (MaxRune <? r) || ((0xD800 <=? r) && (r <=? 0xDFFF))
              then RuneError else r in
    if r' <=? 0xFFFF then
      [byte_of_Z (Z.lor 0xE0 (Z.shiftr r' 12));
       byte_of_Z (Z.lor 0x80 (Z.land (Z.shiftr r' 6) 0x3F));
       byte_of_Z (Z.lor 0x80 (Z.land r' 0x3F))]
    else
      [byte_of_Z (Z.lor 0xF0 (Z.shiftr r' 18));
       byte_of_Z (Z.lor 0x80 (Z.land (Z.shiftr r' 12) 0x3F));
       byte_of_Z (Z.lor 0x80 (Z.land (Z.shiftr r' 6) 0x3F));
       byte_of_Z (Z.lor 0x80 (Z.land r' 0x3F))].

(** ** bytes.Buffer and fmt *)

Definition WriteRune (buf : list byte) (r : Z) : list byte := buf ++ EncodeRune r.
Definition WriteByte (buf : list byte) (b : byte) : list byte := buf ++ [b].
Definition WriteString (buf : list byte) (s : list byte) : list byte := buf ++ s.

(** The conversion [string(b)] of a byte: the encoding of the code point. *)
Definition string_of_byte (b : byte) : list byte := EncodeRune (bz b).

Definition digit (n : Z) : byte := byte_of_Z (48 + n).

(** The verb [%04d] applied to a [uint8]: decimal, padded with zeros to four
    digits. *)
Definition fmt_04d (n : Z) : list byte :=
  [digit (n / 1000 mod 10); digit (n / 100 mod 10);
   digit (n / 10 mod 10); digit (n mod 10)].

Definition dquote : list byte := [x22].

(** An [error] value: [None] is [nil], [Some msg] an error with that text. *)
Definition error : Type := option (list byte).

(** ** Tokens *)

(** Modelled from the spec: the token kinds of token.go, which is not among
    the sources; the names are those the lexer uses, the order that of the
    specification, [Invalid] being the zero value. *)
Inductive TokenType : Type :=
| Invalid | EOF | Bang | Dollar | Amp | ParenL | ParenR | Spread | Colon
| Equals | At | BracketL | BrackedR | BraceL | BraceR | Pipe | Name | Int
| Float | String | BlockString | Comment.

(** Modelled from the spec: the record [Token] of token.go, with the fields
    that [makeToken] and [makeError] fill in. *)
Record Token : Type := mkToken {
  Kind : TokenType;
  Start : Z;
  End_ : Z;
  Value : list byte;
  Line : Z;
  Column : Z
}.

Definition zeroToken : Token := mkToken Invalid 0 0 [] 0 0.

(** ** The lexer state *)

Record Lexer : Type := mkLexer {
  input : list byte;
  start : Z;
  startRunes : Z;
  end_ : Z;
  endRunes : Z;
  line : Z;
  lineStartRunes : Z;
  peeked : bool;
  peekToken : Token;
  peekError : error;
  lastToken : Token
}.

Definition New (inp : list byte) : Lexer :=
  mkLexer inp 0 0 0 0 1 0 false zeroToken None zeroToken.

(** [s.end += db; s.endRunes += dr] *)
Definition advance (db dr : Z) (s : Lexer) : Lexer :=
  mkLexer (input s) (start s) (startRunes s) (end_ s + db) (endRunes s + dr)
          (line s) (lineStartRunes s) (peeked s) (peekToken s) (peekError s)
          (lastToken s).

(** [s.start += db; s.startRunes += dr] *)
Definition advanceStart (db dr : Z) (s : Lexer) : Lexer :=
  mkLexer (input s) (start s + db) (startRunes s + dr) (end_ s) (endRunes s)
          (line s) (lineStartRunes s) (peeked s) (peekToken s) (peekError s)
          (lastToken s).

(** [s.start = s.end; s.startRunes = s.endRunes] *)
Definition syncStart (s : Lexer) : Lexer :=
  mkLexer (input s) (end_ s) (endRunes s) (end_ s) (endRunes s)
          (line s) (lineStartRunes s) (peeked s) (peekToken s) (peekError s)
          (lastToken s).

(** [s.line++; s.lineStartRunes = s.endRunes] *)
Definition newline (s : Lexer) : Lexer :=
  mkLexer (input s) (start s) (startRunes s) (end_ s) (endRunes s)
          (line s + 1) (endRunes s) (peeked s) (peekToken s) (peekError s)
          (lastToken s).

Definition set_peeked (p : bool) (s : Lexer) : Lexer :=
  mkLexer (input s) (start s) (startRunes s) (end_ s) (endRunes s)
          (line s) (lineStartRunes s) p (peekToken s) (peekError s)
          (lastToken s).

Definition set_peek (t : Token) (e : error) (s : Lexer) : Lexer :=
  mkLexer (input s) (start s) (startRunes s) (end_ s) (endRunes s)
          (line s) (lineStartRunes s) (peeked s) t e (lastToken s).

Definition set_lastToken (t : Token) (s : Lexer) : Lexer :=
  mkLexer (input s) (start s) (startRunes s) (end_ s) (endRunes s)
          (line s) (lineStartRunes s) (peeked s) (peekToken s) (peekError s) t.

(** The number of bytes left after the cursor: the fuel of the loops. *)
Definition remaining (s : Lexer) : nat := Z.to_nat (len (input s) - end_ s).

(** What a scanning method leaves behind: the state, the token, the error. *)
Definition result : Type := (Lexer * Token * error)%type.

(** [peek]: the rune at the cursor and its width. *)
Definition peek (s : Lexer) : outcome (Z * Z) :=
  rest <- slice (input s) (end_ s) (len (input s)) ;;
  Return (DecodeRuneInString rest).

Definition takeByte (s : Lexer) : outcome (Lexer * byte) :=
  r <- index (input s) (end_ s) ;;
  Return (advance 1 1 s, r).

Definition get (s : Lexer) : outcome (list byte) :=
  if len (input s) <? start s then Return []
  else slice (input s) (start s) (len (input s)).

Definition makeToken (kind : TokenType) (s : Lexer) : outcome result :=
  v <- slice (input s) (start s) (end_ s) ;;
  Return (s, mkToken kind (startRunes s) (endRunes s) v (line s)
                     (startRunes s - lineStartRunes s + 1), None).

Definition makeError (msg : list byte) (s : Lexer) : outcome result :=
  Return (s, mkToken Invalid (startRunes s) (endRunes s) [] (line s)
                     (endRunes s - lineStartRunes s + 1), Some msg).

Definition LastToken (s : Lexer) : Token := lastToken s.

(** ** Whitespace, comments and names *)

(** [bs[i] == c] *)
Definition byte_at_is (bs : list byte) (i : Z) (c : byte) : outcome bool :=
  b <- index bs i ;;
  Return (Byte.eqb b c).

Fixpoint ws_loop (fuel : nat) (s : Lexer) : outcome Lexer :=
  if end_ s <? len (input s) then
    match fuel with
    | O => OutOfFuel
    | S fuel' =>
      b <- index (input s) (end_ s) ;;
      match b with
      | x09 | x20 | x2c => ws_loop fuel' (advance 1 1 s)
      | x0a => ws_loop fuel' (newline (advance 1 1 s))
      | x0d =>
        let s1 := newline (advance 1 1 s) in
        lf <- and_then (end_ s1 <? len (input s1))
                       (byte_at_is (input s1) (end_ s1) x0a) ;;
        if lf then ws_loop fuel' (advance 1 1 s1) else ws_loop fuel' s1
      | xef =>
        bom <- and_then (end_ s + 2 <? len (input s))
                 (b1 <- byte_at_is (input s) (end_ s + 1) xbb ;;
                  and_then b1 (byte_at_is (input s) (end_ s + 2) xbf)) ;;
        if bom then ws_loop fuel' (advance 3 1 s) else Return s
      | _ => Return s
      end
    end
  else Return s.

Definition ws (s : Lexer) : outcome Lexer := ws_loop (remaining s) s.

Fixpoint readComment_loop (fuel : nat) (s : Lexer) : outcome Lexer :=
  if end_ s <? len (input s) then
    match fuel with
    | O => OutOfFuel
    | S fuel' =>
      '(r, w) <- peek s ;;
      if (0x1f <? r) || (r =? 0x09) then readComment_loop fuel' (advance w 1 s)
      else Return s
    end
  else Return s.

Definition readComment (s : Lexer) : outcome result :=
  s' <- readComment_loop (remaining s) s ;;
  makeToken Comment s'.

Definition is_name_rune (r : Z) : bool :=
  ((0x30 <=? r) && (r <=? 0x39)) || ((0x41 <=? r) && (r <=? 0x5a))
  || ((0x61 <=? r) && (r <=? 0x7a)) || (r =? 0x5f).

Fixpoint readName_loop (fuel : nat) (s : Lexer) : outcome Lexer :=
  if end_ s <? len (input s) then
    match fuel with
    | O => OutOfFuel
    | S fuel' =>
      '(r, w) <- peek s ;;
      if is_name_rune r then readName_loop fuel' (advance w 1 s)
      else Return s
    end
  else Return s.

Definition readName (s : Lexer) : outcome result :=
  s' <- readName_loop (remaining s) s ;;
  makeToken Name s'.

(** ** Numbers *)

Fixpoint acceptByte_range (accepted : list byte) (s : Lexer)
  : outcome (Lexer * bool) :=
  match accepted with
  | [] => Return (s, false)
  | a :: rest =>
    hit <- byte_at_is (input s) (end_ s) a ;;
    if hit then Return (advance 1 1 s, true) else acceptByte_range rest s
  end.

Definition acceptByte (accepted : list byte) (s : Lexer)
  : outcome (Lexer * bool) :=
  if len (input s) <=? end_ s then Return (s, false)
  else acceptByte_range accepted s.

Definition acceptByteRange (lo hi : byte) (s : Lexer) : outcome (Lexer * bool) :=
  hit <- and_then (end_ s <? len (input s))
           (b <- index (input s) (end_ s) ;;
            and_then (bz lo <=? bz b)
                     (b' <- index (input s) (end_ s) ;; Return (bz b' <=? bz hi))) ;;
  if hit then Return (advance 1 1 s, true) else Return (s, false).

Definition is_digit (b : byte) : bool := (0x30 <=? bz b) && (bz b <=? 0x39).

Fixpoint acceptDigits_loop (fuel : nat) (consumed : Z) (s : Lexer)
  : outcome (Lexer * Z) :=
  more <- and_then (end_ s <? len (input s))
            (b <- index (input s) (end_ s) ;; Return (is_digit b)) ;;
  if more then
    match fuel with
    | O => OutOfFuel
    | S fuel' => acceptDigits_loop fuel' (consumed + 1) (advance 1 1 s)
    end
  else Return (s, consumed).

Definition acceptDigits (s : Lexer) : outcome (Lexer * Z) :=
  acceptDigits_loop (remaining s) 0 s.

Definition describeNext (s : Lexer) : outcome (list byte) :=
  if end_ s <? len (input s) then
    b <- index (input s) (end_ s) ;;
    Return (dquote ++ string_of_byte b ++ dquote)
  else Return (bytes "<EOF>").

Definition msg_expected_digit (d : list byte) : list byte :=
  bytes "Invalid number, expected digit but got: " ++ d ++ bytes ".".

Definition msg_digit_after_0 (d : list byte) : list byte :=
  bytes "Invalid number, unexpected digit after 0: " ++ d ++ bytes ".".

(** The end of [readNumber], from the exponent on; [float] tells whether a
    fraction was read. *)
Definition readNumber_exponent (float : bool) (s : Lexer) : outcome result :=
  '(s1, e) <- acceptByte [x65; x45] s ;;
  if e then
    '(s2, _) <- acceptByte [x2d; x2b] s1 ;;
    '(s3, consumed) <- acceptDigits s2 ;;
    if consumed =? 0 then
      d <- describeNext s3 ;; makeError (msg_expected_digit d) s3
    else makeToken Float s3
  else if float then makeToken Float s1 else makeToken Int s1.

(** The end of [readNumber], from the fraction on. *)
Definition readNumber_fraction (s : Lexer) : outcome result :=
  '(s1, dot) <- acceptByte [x2e] s ;;
  if dot then
    '(s2, consumed) <- acceptDigits s1 ;;
    if consumed =? 0 then
      d <- describeNext s2 ;; makeError (msg_expected_digit d) s2
    else readNumber_exponent true s2
  else readNumber_exponent false s1.

Definition readNumber (s : Lexer) : outcome result :=
  let s0 := advance (-1) (-1) s in
  '(s1, _) <- acceptByte [x2d] s0 ;;
  '(s2, zero) <- acceptByte [x30] s1 ;;
  '(s3, consumed) <- acceptDigits s2 ;;
  if zero then
    if negb (consumed =? 0) then
      let s4 := advance (- consumed) (- consumed) s3 in
      d <- describeNext s4 ;; makeError (msg_digit_after_0 d) s4
    else readNumber_fraction s3
  else
    if consumed =? 0 then
      d <- describeNext s3 ;; makeError (msg_expected_digit d) s3
    else readNumber_fraction s3.

(** ** Strings *)

Definition hex_value (c : Z) : option Z :=
  if (0x30 <=? c) && (c <=? 0x39) then Some (c - 0x30)
  else if (0x61 <=? c) && (c <=? 0x66) then Some (c - 0x61 + 10)
  else if (0x41 <=? c) && (c <=? 0x46) then Some (c - 0x41 + 10)
  else None.

Fixpoint unhex_loop (v : Z) (cs : list Z) : option Z :=
  match cs with
  | [] => Some v
  | c :: cs' =>
    match hex_value c with
    | Some d => unhex_loop (Z.lor (Z.shiftl v 4) d) cs'
    | None => None
    end
  end.

(** [unhex]: [None] stands for the result [(0, false)]. *)
Definition unhex (b : list byte) : option Z := unhex_loop 0 (runes b).

Definition msg_control_in_string (r : byte) : list byte :=
  bytes "Invalid character within String: " ++ dquote ++ bytes "\u"
  ++ fmt_04d (bz r) ++ dquote ++ bytes ".".

Definition msg_escape (what : list byte) : list byte :=
  bytes "Invalid character escape sequence: \" ++ what ++ bytes ".".

Definition msg_unterminated : list byte := bytes "Unterminated string.".

(** The value a single-character escape stands for. *)
Definition escape_byte (escape : byte) : option byte :=
  match escape with
  | x22 | x2f | x5c => Some escape
  | x62 => Some x08
  | x66 => Some x0c
  | x6e => Some x0a
  | x72 => Some x0d
  | x74 => Some x09
  | _ => None
  end.

(** The loop of [readString]; [buf] is the lazily created buffer, [None]
    while it is [nil].  Leaving the loop, by [break] or by its condition,
    reports the unterminated string. *)
Fixpoint readString_loop (fuel : nat) (buf : option (list byte)) (s : Lexer)
  : outcome result :=
  let inputLen := len (input s) in
  if end_ s <? inputLen then
    match fuel with
    | O => OutOfFuel
    | S fuel' =>
      r <- index (input s) (end_ s) ;;
      if Byte.eqb r x0a || Byte.eqb r x0d then makeError msg_unterminated s
      else if (bz r <? 0x20) && negb (Byte.eqb r x09) then
        makeError (msg_control_in_string r) s
      else
        match r with
        | x22 =>
          '(_, t, err) <- makeToken String s ;;
          let v := match buf with Some b => b | None => Value t end in
          Return (advance 1 1 s,
                  mkToken (Kind t) (Start t - 1) (End_ t + 1) v (Line t) (Column t),
                  err)
        | x5c =>
          if inputLen <=? end_ s + 1 then
            makeError (bytes "Invalid character escape sequence.") (advance 1 1 s)
          else
            b <- match buf with
                 | Some b => Return b
                 | None => slice (input s) (start s) (end_ s)
                 end ;;
            escape <- index (input s) (end_ s + 1) ;;
            if Byte.eqb escape x75 then
              if inputLen <=? end_ s + 6 then
                let s1 := advance 1 1 s in
                rest <- slice (input s1) (end_ s1) inputLen ;;
                makeError (msg_escape rest) s1
              else
                digits <- slice (input s) (end_ s + 2) (end_ s + 6) ;;
                match unhex digits with
                | None =>
                  let s1 := advance 1 1 s in
                  shown <- slice (input s1) (end_ s1) (end_ s1 + 5) ;;
                  makeError (msg_escape shown) s1
                | Some u =>
                  readString_loop fuel' (Some (WriteRune b u)) (advance 6 6 s)
                end
            else
              match escape_byte escape with
              | Some c =>
                readString_loop fuel' (Some (WriteByte b c)) (advance 2 2 s)
              | None =>
                makeError (msg_escape (string_of_byte escape)) (advance 1 1 s)
              end
        | _ =>
          '(char, w) <- (if 127 <=? bz r then peek s else Return (bz r, 1)) ;;
          readString_loop fuel' (option_map (fun b => WriteRune b char) buf)
                          (advance w 1 s)
        end
    end
  else makeError msg_unterminated s.

Definition readString (s : Lexer) : outcome result :=
  let s0 := advanceStart 1 1 s in
  readString_loop (remaining s0) None s0.

Definition triple_quote : list byte := [x22; x22; x22].

(** An instance of the absent [blockStringValue], to run the lexer on given
    inputs: the raw body, as it is. *)
Definition rawBlockString (raw : list byte) : list byte := raw.

Section Lexer.

(** The function [blockStringValue] of blockstring.go is not among the
    sources; the lexer is embedded for an arbitrary one. *)
Variable blockStringValue : list byte -> list byte.

Fixpoint readBlockString_loop (fuel : nat) (buf : list byte) (s : Lexer)
  : outcome result :=
  let inputLen := len (input s) in
  if end_ s <? inputLen then
    match fuel with
    | O => OutOfFuel
    | S fuel' =>
      r <- index (input s) (end_ s) ;;
      closing <- and_then (Byte.eqb r x22 && (end_ s + 3 <=? inputLen))
                   (q <- slice (input s) (end_ s) (end_ s + 3) ;;
                    Return (bytes_eqb q triple_quote)) ;;
      if closing then
        '(_, t, err) <- makeToken BlockString s ;;
        Return (advance 3 3 s,
                mkToken (Kind t) (Start t - 3) (End_ t + 3)
                        (blockStringValue buf) (Line t) (Column t),
                err)
      else if (bz r <? 0x20) && negb (Byte.eqb r x09) && negb (Byte.eqb r x0a)
              && negb (Byte.eqb r x0d) then
        makeError (msg_control_in_string r) s
      else
        escaped <- and_then (Byte.eqb r x5c && (end_ s + 4 <=? inputLen))
                     (q <- slice (input s) (end_ s) (end_ s + 4) ;;
                      Return (bytes_eqb q (x5c :: triple_quote))) ;;
        if escaped then
          readBlockString_loop fuel' (WriteString buf triple_quote) (advance 4 4 s)
        else if Byte.eqb r x0d then
          lf <- and_then (end_ s + 1 <=? inputLen)
                         (byte_at_is (input s) (end_ s + 1) x0a) ;;
          let s1 := if lf then advance 1 1 s else s in
          readBlockString_loop fuel' (WriteByte buf x0a) (advance 1 1 s1)
        else
          '(char, w) <- (if 127 <=? bz r then peek s else Return (bz r, 1)) ;;
          readBlockString_loop fuel' (WriteRune buf char) (advance w 1 s)
    end
  else makeError msg_unterminated s.

Definition readBlockString (s : Lexer) : outcome result :=
  let s0 := advance 2 2 (advanceStart 3 3 s) in
  readBlockString_loop (remaining s0) [] s0.

(** ** The dispatch *)

Definition msg_invalid_character (r : byte) : list byte :=
  bytes "Cannot contain the invalid character " ++ dquote ++ bytes "\u"
  ++ fmt_04d (bz r) ++ dquote.

Definition msg_single_quote : list byte :=
  bytes "Unexpected single quote character ('), did you mean to use a double quote ("
  ++ dquote ++ bytes ")?".

Definition msg_unexpected_character (r : byte) : list byte :=
  bytes "Cannot parse the unexpected character " ++ dquote
  ++ string_of_byte r ++ dquote ++ bytes ".".

(** The statements of [ReadToken] after its [switch], reached when no case
    returned; [s] is the state after the byte [r] was taken. *)
Definition unexpectedCharacter (r : byte) (s : Lexer) : outcome result :=
  let s0 := advance (-1) (-1) s in
  if (bz r <? 0x20) && negb (bz r =? 0x09) && negb (bz r =? 0x0a)
     && negb (bz r =? 0x0d) then
    makeError (msg_invalid_character r) s0
  else if Byte.eqb r x27 then makeError msg_single_quote s0
  else makeError (msg_unexpected_character r) s0.

(** [len(s.input) > s.start+2 && s.input[s.start:s.start+3] == lit] *)
Definition starts_with3 (lit : list byte) (s : Lexer) : outcome bool :=
  and_then (start s + 2 <? len (input s))
           (q <- slice (input s) (start s) (start s + 3) ;;
            Return (bytes_eqb q lit)).

(** [ReadToken]; the deferred assignment to [lastToken] wraps the body.  The
    fuel bounds the depth of the recursion after a comment. *)
Fixpoint ReadToken_fuel (fuel : nat) (s : Lexer) : outcome result :=
  match fuel with
  | O => OutOfFuel
  | S fuel' =>
    '(s', token, err) <-
      (if peeked s then Return (set_peeked false s, peekToken s, peekError s)
       else
         s1 <- ws s ;;
         let s2 := syncStart s1 in
         if len (input s2) <=? end_ s2 then makeToken EOF s2
         else
           r <- index (input s2) (start s2) ;;
           let s3 := advance 1 1 s2 in
           match r with
           | x21 => makeToken Bang s3
           | x23 =>
             '(s4, _, _) <- readComment s3 ;;
             ReadToken_fuel fuel' s4
           | x24 => makeToken Dollar s3
           | x26 => makeToken Amp s3
           | x28 => makeToken ParenL s3
           | x29 => makeToken ParenR s3
           | x2e =>
             dots <- starts_with3 (bytes "...") s3 ;;
             if dots then makeToken Spread (advance 2 2 s3)
             else unexpectedCharacter r s3
           | x3a => makeToken Colon s3
           | x3d => makeToken Equals s3
           | x40 => makeToken At s3
           | x5b => makeToken BracketL s3
           | x5d => makeToken BrackedR s3
           | x7b => makeToken BraceL s3
           | x7d => makeToken BraceR s3
           | x7c => makeToken Pipe s3
           | x5f
           | x61 | x62 | x63 | x64 | x65 | x66 | x67 | x68 | x69 | x6a | x6b
           | x6c | x6d | x6e | x6f | x70 | x71 | x72 | x73 | x74 | x75 | x76
           | x77 | x78 | x79 | x7a
           | x41 | x42 | x43 | x44 | x45 | x46 | x47 | x48 | x49 | x4a | x4b
           | x4c | x4d | x4e | x4f | x50 | x51 | x52 | x53 | x54 | x55 | x56
           | x57 | x58 | x59 | x5a => readName s3
           | x2d
           | x30 | x31 | x32 | x33 | x34 | x35 | x36 | x37 | x38 | x39 =>
             readNumber s3
           | x22 =>
             block <- starts_with3 triple_quote s3 ;;
             if block then readBlockString s3 else readString s3
           | _ => unexpectedCharacter r s3
           end) ;;
    Return (set_lastToken token s', token, err)
  end.

Definition ReadToken (s : Lexer) : outcome result :=
  ReadToken_fuel (S (remaining s)) s.

Definition PeekToken (s : Lexer) : outcome (Lexer * Token) :=
  s' <- (if negb (peeked s) then
           '(s1, t, e) <- ReadToken s ;;
           Return (set_peeked true (set_peek t e s1))
         else Return s) ;;
  Return (s', peekToken s').

(** The tokens of [n] calls of [ReadToken] in a row. *)
Fixpoint read_n (n : nat) (s : Lexer) : outcome (list Token) :=
  match n with
  | O => Return []
  | S n' =>
    '(s', t, _) <- ReadToken s ;;
    ts <- read_n n' s' ;;
    Return (t :: ts)
  end.

(** ** Sequences of calls *)

(** One call of [ReadToken] or of [PeekToken] that returns. *)
Inductive step (s s' : Lexer) : Prop :=
| step_read (t : Token) (e : error) :
    ReadToken s = Return (s', t, e) -> step s s'
| step_peek (t : Token) :
    PeekToken s = Return (s', t) -> step s s'.

(** The states a lexer created by [New inp] goes through. *)
Inductive reachable (inp : list byte) : Lexer -> Prop :=
| reach_new : reachable inp (New inp)
| reach_step (s s' : Lexer) : reachable inp s -> step s s' -> reachable inp s'.

(** Any number of further calls. *)
Inductive steps (s : Lexer) : Lexer -> Prop :=
| steps_refl : steps s s
| steps_step (s1 s2 : Lexer) : steps s s1 -> step s1 s2 -> steps s s2.

(** What holds of the cache of every reachable state. *)
Definition peek_inv (s : Lexer) : Prop :=
  peeked s = true ->
  lastToken s = peekToken s
  /\ Kind (peekToken s) <> Comment
  /\ (Kind (peekToken s) = EOF -> end_ s = len (input s)).

(** The lexer has reached the end of its input. *)
Definition at_eof (s : Lexer) : Prop :=
  end_ s = len (input s) /\ (peeked s = true -> Kind (peekToken s) = EOF).

(** ** Positions in runes *)

(** [rune_pos bs i n]: decoding [n] runes from the start of [bs] ends at the
    byte offset [i]. *)
Inductive rune_pos (bs : list byte) : Z -> Z -> Prop :=
| rune_pos_0 : rune_pos bs 0 0
| rune_pos_S (i n r w : Z) :
    rune_pos bs i n -> i < len bs ->
    DecodeRuneInString (skipn (Z.to_nat i) bs) = (r, w) ->
    rune_pos bs (i + w) (n + 1).

Definition pos_inv (s : Lexer) : Prop :=
  rune_pos (input s) (start s) (startRunes s)
  /\ rune_pos (input s) (end_ s) (endRunes s)
  /\ start s <= end_ s /\ startRunes s <= endRunes s.

(** The number of runes in [bs[0:i]]. *)
Definition prefix_runes (bs : list byte) (i : Z) : outcome Z :=
  p <- slice bs 0 i ;;
  Return (RuneCountInString p).

(** The number of line breaks in a string: a carriage return, a line feed,
    or a carriage return immediately followed by a line feed. *)
Fixpoint line_breaks (bs : list byte) : Z :=
  match bs with
  | [] => 0
  | b :: rest =>
    if Byte.eqb b x0a then 1 + line_breaks rest
    else if Byte.eqb b x0d then
      match rest with
      | b' :: rest' =>
        if Byte.eqb b' x0a then 1 + line_breaks rest' else 1 + line_breaks rest
      | [] => 1
      end
    else line_breaks rest
  end.

(** ** Inputs of the scenarios *)

(** The twelve bytes: quote, a, backslash, quote, b, backslash, u, 0, 0, e,
    9, quote. *)
Definition input_escapes : list byte :=
  [x22] ++ bytes "a\" ++ [x22] ++ bytes "b\u00e9" ++ [x22].

(** The decoded value: a, quote, b, U+00E9 in UTF-8. *)
Definition value_escapes : list byte := [x61; x22; x62; xc3; xa9].

Definition input_leading_zero : list byte := bytes "0123".

Definition input_crlf : list byte := bytes "a" ++ [x0d; x0a] ++ bytes "b".

Definition input_comment : list byte := bytes "# hi" ++ [x0a] ++ bytes "42".

(** An open block string that ends in a carriage return. *)
Definition input_block_cr : list byte := triple_quote ++ [x0d].

(** A block string with a line feed in its body, then a name. *)
Definition input_block_lf : list byte :=
  triple_quote ++ bytes "a" ++ [x0a] ++ bytes "b" ++ triple_quote ++ bytes " c".

(** A vertical tab, U+000B. *)
Definition input_vertical_tab : list byte := [x0b].

Definition input_two_names : list byte := bytes "a b".

(** The first token of that input, and the state after it is read. *)
Definition token_a : Token := mkToken Name 0 1 (bytes "a") 1 1.

Definition state_after_a : Lexer :=
  mkLexer input_two_names 0 0 1 1 1 0 false zeroToken None token_a.

(** A string of one rune that takes two bytes, U+00E9. *)
Definition input_accent : list byte := [x22; xc3; xa9; x22].

(** The second result of two calls of [ReadToken] in a row. *)
Definition ReadToken_twice (s : Lexer) : outcome result :=
  '(s1, _, _) <- ReadToken s ;;
  ReadToken s1.

(** The part of the state that scanning never touches. *)
Definition shell (s : Lexer) : list byte * bool * Token * error * Token :=
  (input s, peeked s, peekToken s, peekError s, lastToken s).

(** What every scanning loop preserves: the shell and the position
    invariant; and the cursor never moves back. *)
Definition scan_rel (s s' : Lexer) : Prop :=
  shell s' = shell s /\ end_ s <= end_ s' /\ (pos_inv s -> pos_inv s').

(** The kinds a scanner may return. *)
Definition scanned (t : Token) : Prop := Kind t <> Comment /\ Kind t <> EOF.

(** What the body of [ReadToken] guarantees when the cache is empty. *)
Definition body_rel (s s' : Lexer) (t : Token) (e : error) : Prop :=
  input s' = input s /\ peeked s' = peeked s /\ end_ s <= end_ s'
  /\ (pos_inv s -> pos_inv s')
  /\ Kind t <> Comment
  /\ (Kind t = EOF -> end_ s' = len (input s') /\ e = None).

(** What [ReadToken] guarantees when the cache is empty. *)
Definition read_rel (s s' : Lexer) (t : Token) (e : error) : Prop :=
  body_rel s s' t e /\ lastToken s' = t.

(** The fuel was enough. *)
Definition terminates {A : Type} (m : outcome A) : Prop := m <> OutOfFuel.

(** ** The classes of the dispatch *)

(** What the [switch] of [ReadToken] does with a byte: the same cases, by
    name. *)
Inductive byte_class : Type :=
| CPunct (k : TokenType)
| CName
| CNumber
| CQuote
| CDot
| CHash
| COther.

Definition classify (r : byte) : byte_class :=
  match r with
  | x21 => CPunct Bang
  | x23 => CHash
  | x24 => CPunct Dollar
  | x26 => CPunct Amp
  | x28 => CPunct ParenL
  | x29 => CPunct ParenR
  | x2e => CDot
  | x3a => CPunct Colon
  | x3d => CPunct Equals
  | x40 => CPunct At
  | x5b => CPunct BracketL
  | x5d => CPunct BrackedR
  | x7b => CPunct BraceL
  | x7d => CPunct BraceR
  | x7c => CPunct Pipe
  | x5f
  | x61 | x62 | x63 | x64 | x65 | x66 | x67 | x68 | x69 | x6a | x6b
  | x6c | x6d | x6e | x6f | x70 | x71 | x72 | x73 | x74 | x75 | x76
  | x77 | x78 | x79 | x7a
  | x41 | x42 | x43 | x44 | x45 | x46 | x47 | x48 | x49 | x4a | x4b
  | x4c | x4d | x4e | x4f | x50 | x51 | x52 | x53 | x54 | x55 | x56
  | x57 | x58 | x59 | x5a => CName
  | x2d
  | x30 | x31 | x32 | x33 | x34 | x35 | x36 | x37 | x38 | x39 => CNumber
  | x22 => CQuote
  | _ => COther
  end.

(** The case of the [switch] for a class other than the comment; [s] is the
    state after the byte [r] was taken. *)
Definition scan_class (c : byte_class) (r : byte) (s : Lexer) : outcome result :=
  match c with
  | CPunct k => makeToken k s
  | CName => readName s
  | CNumber => readNumber s
  | CQuote =>
    block <- starts_with3 triple_quote s ;;
    if block then readBlockString s else readString s
  | CDot =>
    dots <- starts_with3 (bytes "...") s ;;
    if dots then makeToken Spread (advance 2 2 s)
    else unexpectedCharacter r s
  | CHash => Panic
  | COther => unexpectedCharacter r s
  end.

(** [token_start s s2]: from [s], skipping whitespace and comments as
    [ReadToken] does leads to [s2], where the next token starts. *)
Inductive token_start : Lexer -> Lexer -> Prop :=
| token_start_ws (s s1 : Lexer) :
    ws s = Return s1 -> token_start s (syncStart s1)
| token_start_comment (s s1 s4 s2 : Lexer) (tc : Token) (ec : error) :
    ws s = Return s1 -> end_ s1 < len (input s1) ->
    index (input s1) (end_ s1) = Return x23 ->
    readComment (advance 1 1 (syncStart s1)) = Return (s4, tc, ec) ->
    token_start s4 s2 -> token_start s s2.

(** Only the cursor moved, and forward in runes. *)
Definition moved (s s' : Lexer) : Prop :=
  shell s' = shell s
  /\ start s' = start s /\ startRunes s' = startRunes s
  /\ line s' = line s /\ lineStartRunes s' = lineStartRunes s
  /\ end_ s <= end_ s' /\ endRunes s <= endRunes s'.

(** What skipping whitespace changes: the cursor and the line. *)
Definition skipped (s s' : Lexer) : Prop :=
  shell s' = shell s
  /\ start s' = start s /\ startRunes s' = startRunes s
  /\ end_ s <= end_ s' /\ endRunes s <= endRunes s'
  /\ line s <= line s'
  /\ (lineStartRunes s <= endRunes s -> lineStartRunes s' <= endRunes s').

(** How a token and an error are made from the state a scanner leaves. *)
Definition shaped (s : Lexer) (t : Token) (e : error) : Prop :=
  End_ t = endRunes s /\ Line t = line s
  /\ match Kind t with
     | Invalid =>
       e <> None /\ Start t = startRunes s /\ Value t = []
       /\ Column t = endRunes s - lineStartRunes s + 1
     | String =>
       e = None /\ Start t = startRunes s - 1
       /\ Column t = startRunes s - lineStartRunes s + 1
     | BlockString =>
       e = None /\ Start t = startRunes s - 3
       /\ Column t = startRunes s - lineStartRunes s + 1
     | _ =>
       e = None /\ Start t = startRunes s
       /\ Column t = startRunes s - lineStartRunes s + 1
       /\ slice (input s) (start s) (end_ s) = Return (Value t)
     end.

(** The cache of every reachable state holds a token that was made from the
    position the state is still at. *)
Definition cache_inv (s : Lexer) : Prop :=
  1 <= line s /\ lineStartRunes s <= endRunes s
  /\ (peeked s = true ->
      shaped s (peekToken s) (peekError s)
      /\ lineStartRunes s <= startRunes s).

(** A list of tokens in the order of the input, from the rune offset [lo]
    on: no token starts before the one before it ends. *)
Fixpoint ordered (lo : Z) (ts : list Token) : Prop :=
  match ts with
  | [] => True
  | t :: rest => lo <= Start t /\ Start t <= End_ t /\ ordered (End_ t) rest
  end.


(** What scanning one token from [s2], where it starts, guarantees. *)
Definition scanned_from (s2 s0 : Lexer) (t : Token) (e : error) : Prop :=
  shell s0 = shell s2
  /\ line s0 = line s2 /\ lineStartRunes s0 = lineStartRunes s2
  /\ end_ s2 <= end_ s0
  /\ shaped s0 t e
  /\ startRunes s2 <= Start t /\ Start t <= End_ t
  /\ startRunes s2 <= startRunes s0 /\ startRunes s0 <= endRunes s0.

(** The kinds that the case of a class returns. *)
Definition class_kind (c : byte_class) (k : TokenType) : Prop :=
  match c with
  | CPunct p => k = p
  | CName => k = Name
  | CNumber => k = Int \/ k = Float \/ k = Invalid
  | CQuote => k = String \/ k = BlockString \/ k = Invalid
  | CDot => k = Spread \/ k = Invalid
  | CHash => False
  | COther => k = Invalid
  end.

Definition punctuators : list TokenType :=
  [Bang; Dollar; Amp; ParenL; ParenR; Colon; Equals; At; BracketL; BrackedR;
   BraceL; BraceR; Pipe].


(** The bytes that [ws] skips one at a time. *)
Definition is_blank (b : byte) : bool :=
  match b with
  | x09 | x20 | x2c | x0a | x0d => true
  | _ => false
  end.

(** The three bytes of a byte order mark are at the cursor. *)
Definition bom_at (s : Lexer) : Prop :=
  index (input s) (end_ s) = Return xef
  /\ index (input s) (end_ s + 1) = Return xbb
  /\ index (input s) (end_ s + 2) = Return xbf.

(** The cursor is at the end of the input or at a byte that [ws] does not
    skip. *)
Definition significant_at (s : Lexer) : Prop :=
  len (input s) <= end_ s
  \/ (exists b, index (input s) (end_ s) = Return b /\ is_blank b = false)
     /\ ~ bom_at s.


(** A byte that may start a name: a letter or the underscore. *)
Definition is_name_start (b : byte) : bool :=
  ((0x41 <=? bz b) && (bz b <=? 0x5a)) || ((0x61 <=? bz b) && (bz b <=? 0x7a))
  || (bz b =? 0x5f).

(** The cursor is at the end of the input or at a byte that cannot be part
    of a name. *)
Definition name_ends_at (s : Lexer) : Prop :=
  len (input s) <= end_ s
  \/ exists c, index (input s) (end_ s) = Return c /\ is_name_rune (bz c) = false.


(** ** The form of numbers *)

Definition all_digits (ds : list byte) : Prop :=
  ds <> [] /\ Forall (fun b => is_digit b = true) ds.

(** [0], or digits that do not start with [0]. *)
Definition int_part (ds : list byte) : Prop :=
  all_digits ds /\ forall rest, ds = x30 :: rest -> rest = [].

Definition sign_part (sg : list byte) : Prop := sg = [] \/ sg = [x2d].

Definition fraction_part (fr : list byte) : Prop :=
  exists ds, fr = x2e :: ds /\ all_digits ds.

Definition exponent_part (ex : list byte) : Prop :=
  exists c sg ds,
    ex = c :: sg ++ ds /\ (c = x65 \/ c = x45)
    /\ (sg = [] \/ sg = [x2d] \/ sg = [x2b]) /\ all_digits ds.

Definition int_value (v : list byte) : Prop :=
  exists sg ds, v = sg ++ ds /\ sign_part sg /\ int_part ds.

Definition float_value (v : list byte) : Prop :=
  exists sg ds fr ex,
    v = sg ++ ds ++ fr ++ ex /\ sign_part sg /\ int_part ds
    /\ (fr = [] \/ fraction_part fr) /\ (ex = [] \/ exponent_part ex)
    /\ (fr <> [] \/ ex <> []).

(** [consumed s s' q]: from [s] to [s'] only the cursor moved, over the
    bytes [q] of the input. *)
Definition consumed (s s' : Lexer) (q : list byte) : Prop :=
  moved s s' /\ slice (input s) (end_ s) (end_ s') = Return q.


(** ** Hexadecimal digits *)

Definition is_hex (b : byte) : bool :=
  match hex_value (bz b) with
  | Some _ => true
  | None => false
  end.

(** The number that hexadecimal digits denote, after the digits that gave
    [acc]. *)
Fixpoint hex_number (acc : Z) (bs : list byte) : Z :=
  match bs with
  | [] => acc
  | b :: rest =>
    hex_number (16 * acc + match hex_value (bz b) with
                           | Some d => d
                           | None => 0
                           end) rest
  end.


(** ** Strings of plain characters *)

(** A printable ASCII character other than the double quote and the
    backslash, or a tab. *)
Definition is_plain (b : byte) : bool :=
  (0x20 <=? bz b) && (bz b <? 0x7f)
  && negb (Byte.eqb b x22) && negb (Byte.eqb b x5c)
  || Byte.eqb b x09.


(** ** The cache and the scanners *)

(** [s] with other values in the fields that fill the cache and remember the
    last token: [peekToken], [peekError], [lastToken]. *)
Definition recache (pt : Token) (pe : error) (lt : Token) (s : Lexer) : Lexer :=
  mkLexer (input s) (start s) (startRunes s) (end_ s) (endRunes s)
          (line s) (lineStartRunes s) (peeked s) pt pe lt.


(** ** The body of a string *)

(** [string_body raw v]: [raw] is a sequence of plain characters and escape
    sequences, and [v] is what it stands for: a plain character for itself,
    a backslash and one of the characters that [escape_byte] knows for the
    byte it names, a backslash, [u] and four hexadecimal digits for the
    encoding of the rune they denote. *)
Inductive string_body : list byte -> list byte -> Prop :=
| body_end : string_body [] []
| body_plain (b : byte) (raw v : list byte) :
    is_plain b = true -> string_body raw v ->
    string_body (b :: raw) (b :: v)
| body_escape (c d : byte) (raw v : list byte) :
    escape_byte c = Some d -> string_body raw v ->
    string_body (x5c :: c :: raw) (d :: v)
| body_unicode (ds : list byte) (u : Z) (raw v : list byte) :
    length ds = 4%nat -> unhex ds = Some u -> string_body raw v ->
    string_body (x5c :: x75 :: ds ++ raw) (EncodeRune u ++ v).

(** What [readString] has decoded so far: the buffer when there is one, the
    input from [start] to the cursor otherwise. *)
Definition buffered (buf : option (list byte)) (s : Lexer) (sofar : list byte)
  : Prop :=
  match buf with
  | Some b => b = sofar
  | None => slice (input s) (start s) (end_ s) = Return sofar
  end.


(** ** The body of a block string *)

(** A plain character or a line feed. *)
Definition is_block_plain (b : byte) : bool := is_plain b || Byte.eqb b x0a.

(** [block_body raw v]: [raw] is made of plain characters, line feeds, the
    escaped triple quote and carriage returns each followed by another byte
    of the body; [v] is what [readBlockString] collects for it: the escaped
    triple quote without its backslash, and one line feed for a carriage
    return and for a carriage return with its line feed. *)
Inductive block_body : list byte -> list byte -> Prop :=
| block_end : block_body [] []
| block_plain (b : byte) (raw v : list byte) :
    is_block_plain b = true -> block_body raw v ->
    block_body (b :: raw) (b :: v)
| block_escaped_quotes (raw v : list byte) :
    block_body raw v ->
    block_body (x5c :: triple_quote ++ raw) (triple_quote ++ v)
| block_crlf (raw v : list byte) :
    block_body raw v -> block_body (x0d :: x0a :: raw) (x0a :: v)
| block_cr (c : byte) (raw v : list byte) :
    c <> x0a -> block_body (c :: raw) v ->
    block_body (x0d :: c :: raw) (x0a :: v).


(** ** Comments *)

(** A byte that a comment may hold: anything but a control character, and
    the tab. *)
Definition is_comment_byte (b : byte) : bool := (0x20 <=? bz b) || Byte.eqb b x09.

(** The cursor is at the end of the input or at a byte that ends a comment:
    a control character other than the tab, as the line feed and the
    carriage return are. *)
Definition comment_ends_at (s : Lexer) : Prop :=
  len (input s) <= end_ s
  \/ exists b, index (input s) (end_ s) = Return b /\ is_comment_byte b = false.


(** ** The end of a number *)

(** The cursor is at the end of the input or at a byte that is no digit. *)
Definition digits_end_at (s : Lexer) : Prop :=
  len (input s) <= end_ s
  \/ exists c, index (input s) (end_ s) = Return c /\ is_digit c = false.

(** The cursor is at the end of the input or at a byte that cannot continue
    an integer: no digit, no dot, no exponent mark. *)
Definition int_ends_at (s : Lexer) : Prop :=
  len (input s) <= end_ s
  \/ exists c, index (input s) (end_ s) = Return c /\ is_digit c = false
               /\ c <> x2e /\ c <> x65 /\ c <> x45.


(** ** Tools *)

Lemma bind_Return {A B : Type} (m : outcome A) (k : A -> outcome B) (v : B) :
  bind m k = Return v -> exists a, m = Return a /\ k a = Return v.
Proof.
  destruct m as [a| |]; simpl; intros H; try discriminate.
  exists a; auto.
Qed.

Ltac inv_bind H :=
  let a := fresh "a" in
  let E := fresh "E" in
  apply bind_Return in H; destruct H as (a & E & H).

Lemma makeToken_Return (k : TokenType) (s s' : Lexer) (t : Token) (e : error) :
  makeToken k s = Return (s', t, e) ->
  s' = s /\ Kind t = k /\ e = None /\ 0 <= start s <= end_ s
  /\ end_ s <= len (input s).
Proof.
  unfold makeToken, slice. intros H.
  destruct ((0 <=? start s) && (start s <=? end_ s) && (end_ s <=? len (input s)))
    eqn:C; simpl in H; try discriminate.
  injection H as <- <- <-. simpl.
  apply andb_true_iff in C; destruct C as [C C3].
  apply andb_true_iff in C; destruct C as [C1 C2].
  repeat split; lia.
Qed.

Lemma makeError_Return (m : list byte) (s s' : Lexer) (t : Token) (e : error) :
  makeError m s = Return (s', t, e) ->
  s' = s /\ Kind t = Invalid /\ e = Some m.
Proof.
  unfold makeError. intros H. injection H as <- <- <-. auto.
Qed.

(** ** Indexing and slicing *)

Lemma len_nonneg (bs : list byte) : 0 <= len bs.
Proof. unfold len. lia. Qed.

Lemma bz_range (b : byte) : 0 <= bz b < 256.
Proof.
  unfold bz. pose proof (Byte.to_N_bounded b). lia.
Qed.

Lemma byte_eqb_eq (a b : byte) : Byte.eqb a b = true <-> a = b.
Proof.
  split.
  - apply Byte.byte_dec_bl.
  - apply Byte.byte_dec_lb.
Qed.

Lemma index_Return (bs : list byte) (i : Z) (b : byte) :
  index bs i = Return b ->
  0 <= i < len bs /\ nth_error bs (Z.to_nat i) = Some b.
Proof.
  unfold index. destruct ((0 <=? i) && (i <? len bs)) eqn:C; [|discriminate].
  apply andb_true_iff in C. destruct C as [C1 C2].
  destruct (nth_error bs (Z.to_nat i)) eqn:N; intros H; [|discriminate].
  injection H as <-. split; [lia | reflexivity].
Qed.

Lemma index_skipn (bs : list byte) (i : Z) (b : byte) :
  index bs i = Return b ->
  skipn (Z.to_nat i) bs = b :: skipn (Z.to_nat (i + 1)) bs.
Proof.
  intros H. apply index_Return in H. destruct H as [R N].
  apply nth_error_split in N. destruct N as (l1 & l2 & -> & L).
  replace (Z.to_nat (i + 1)) with (S (length l1)) by lia.
  rewrite <- L.
  rewrite !skipn_app, skipn_all, Nat.sub_diag.
  rewrite (skipn_all2 l1) by lia.
  replace (S (length l1) - length l1)%nat with 1%nat by lia.
  reflexivity.
Qed.

Lemma index_in_range (bs : list byte) (i : Z) :
  0 <= i < len bs -> exists b, index bs i = Return b.
Proof.
  intros R. unfold index.
  replace ((0 <=? i) && (i <? len bs)) with true
    by (symmetry; apply andb_true_iff; split; lia).
  destruct (nth_error bs (Z.to_nat i)) eqn:N; [eauto|].
  apply nth_error_None in N. unfold len in R. lia.
Qed.

Lemma slice_Return (bs : list byte) (lo hi : Z) (q : list byte) :
  slice bs lo hi = Return q ->
  0 <= lo <= hi /\ hi <= len bs
  /\ q = firstn (Z.to_nat (hi - lo)) (skipn (Z.to_nat lo) bs).
Proof.
  unfold slice.
  destruct ((0 <=? lo) && (lo <=? hi) && (hi <=? len bs)) eqn:C; [|discriminate].
  apply andb_true_iff in C. destruct C as [C C3].
  apply andb_true_iff in C. destruct C as [C1 C2].
  intros H. injection H as <-. repeat split; lia.
Qed.

Lemma slice_suffix (bs : list byte) (i : Z) (q : list byte) :
  slice bs i (len bs) = Return q ->
  0 <= i <= len bs /\ q = skipn (Z.to_nat i) bs.
Proof.
  intros H. apply slice_Return in H. destruct H as (R1 & R2 & ->).
  split; [lia|]. apply firstn_all2. rewrite length_skipn. unfold len. lia.
Qed.

Lemma slice_nth (bs : list byte) (lo hi : Z) (q : list byte) (j : Z) :
  slice bs lo hi = Return q -> 0 <= j < hi - lo ->
  nth_error bs (Z.to_nat (lo + j)) = nth_error q (Z.to_nat j).
Proof.
  intros H R. apply slice_Return in H. destruct H as (R1 & R2 & ->).
  rewrite nth_error_firstn.
  replace (Z.to_nat j <? Z.to_nat (hi - lo))%nat with true
    by (symmetry; apply Nat.ltb_lt; lia).
  rewrite nth_error_skipn. f_equal. lia.
Qed.

Lemma slice_index (bs : list byte) (lo hi : Z) (q : list byte) (j : Z) (b : byte) :
  slice bs lo hi = Return q -> 0 <= j < hi - lo ->
  nth_error q (Z.to_nat j) = Some b ->
  index bs (lo + j) = Return b.
Proof.
  intros H R N. pose proof (slice_nth _ _ _ _ j H R) as E.
  apply slice_Return in H. destruct H as (R1 & R2 & _).
  unfold index.
  replace ((0 <=? lo + j) && (lo + j <? len bs)) with true
    by (symmetry; apply andb_true_iff; split; lia).
  rewrite E, N. reflexivity.
Qed.

Lemma bytes_eqb_eq (a b : list byte) : bytes_eqb a b = true -> a = b.
Proof.
  revert b. induction a as [|x a IH]; intros [|y b]; simpl; try discriminate; auto.
  intros H. apply andb_true_iff in H. destruct H as [H1 H2].
  apply byte_eqb_eq in H1. subst y. f_equal. auto.
Qed.

(** ** The peek buffer *)

Lemma PeekToken_peeked (s s1 : Lexer) (t : Token) :
  PeekToken s = Return (s1, t) -> peeked s1 = true /\ peekToken s1 = t.
Proof.
  unfold PeekToken. intros H. inv_bind H. injection H as <- <-.
  split; [|reflexivity].
  destruct (peeked s) eqn:P; simpl in E.
  - injection E as <-. exact P.
  - inv_bind E. destruct a0 as [[s0 t0] e0]. injection E as <-. reflexivity.
Qed.

Lemma ReadToken_peeked (s : Lexer) :
  peeked s = true ->
  ReadToken s
  = Return (set_lastToken (peekToken s) (set_peeked false s), peekToken s,
            peekError s).
Proof.
  intros P. unfold ReadToken. simpl. rewrite P. reflexivity.
Qed.

(** C5: after [PeekToken] returned the token [t], [ReadToken] returns [t]
    and the cached error without moving the cursor, another [PeekToken]
    returns [t] and leaves the state as it is, and if the cache was empty
    the token and the error are those that [ReadToken] would have returned
    in place of the first [PeekToken]. *)
Theorem PeekToken_then_ReadToken (s s1 : Lexer) (t : Token) :
  PeekToken s = Return (s1, t) ->
  (exists s2, ReadToken s1 = Return (s2, t, peekError s1)
              /\ end_ s2 = end_ s1 /\ endRunes s2 = endRunes s1)
  /\ PeekToken s1 = Return (s1, t)
  /\ (peeked s = false ->
      exists s0, ReadToken s = Return (s0, t, peekError s1)).
Proof.
  intros H. pose proof (PeekToken_peeked _ _ _ H) as [P T].
  split; [|split].
  - exists (set_lastToken (peekToken s1) (set_peeked false s1)).
    rewrite (ReadToken_peeked _ P), T. auto.
  - unfold PeekToken. rewrite P. simpl. rewrite T. reflexivity.
  - intros Q. unfold PeekToken in H. rewrite Q in H. simpl in H.
    inv_bind H. inv_bind E. destruct a0 as [[s0 t0] e0].
    injection E as <-. injection H as Hs Ht. subst s1 t. simpl.
    exists s0. exact E0.
Qed.

(** ** Decoding *)

Lemma decode_ascii (b : byte) (t : list byte) :
  bz b < 0x80 -> DecodeRuneInString (b :: t) = (bz b, 1).
Proof.
  intros H. unfold DecodeRuneInString.
  destruct (bz b <? 0x80) eqn:C; [reflexivity|]. apply Z.ltb_ge in C. lia.
Qed.

Ltac break_decode :=
  repeat match goal with
  | |- context [if ?c then _ else _] => destruct c eqn:?
  | |- context [match ?l with [] => _ | _ :: _ => _ end] => destruct l
  | |- context [match ?o with Some _ => _ | None => _ end] =>
    destruct o as [[[? ?] ?]|] eqn:?
  end.

Lemma decode_width (bs : list byte) :
  bs <> [] -> 1 <= snd (DecodeRuneInString bs) <= len bs.
Proof.
  destruct bs as [|b0 t0]; [congruence|]. intros _.
  unfold DecodeRuneInString.
  break_decode; unfold len; simpl length; simpl snd; lia.
Qed.

Lemma skipn_nonempty (bs : list byte) (i : Z) :
  0 <= i < len bs -> skipn (Z.to_nat i) bs <> [].
Proof.
  intros R E. apply (f_equal (@length byte)) in E.
  rewrite length_skipn in E. simpl in E. unfold len in R. lia.
Qed.

Lemma len_skipn (bs : list byte) (i : Z) :
  0 <= i <= len bs -> len (skipn (Z.to_nat i) bs) = len bs - i.
Proof.
  intros R. unfold len in *. rewrite length_skipn. lia.
Qed.

(** ** Rune positions *)

Lemma rune_pos_bounds (bs : list byte) (i n : Z) :
  rune_pos bs i n -> 0 <= i <= len bs /\ 0 <= n.
Proof.
  induction 1 as [|i n r w P IH L D].
  - pose proof (len_nonneg bs). lia.
  - pose proof (decode_width (skipn (Z.to_nat i) bs)
                             (skipn_nonempty bs i ltac:(lia))) as W.
    rewrite D, len_skipn in W by lia. simpl in W. lia.
Qed.

Lemma rune_pos_ascii (bs : list byte) (i n : Z) (b : byte) :
  rune_pos bs i n -> index bs i = Return b -> bz b < 0x80 ->
  rune_pos bs (i + 1) (n + 1).
Proof.
  intros P I A. pose proof (index_Return _ _ _ I) as [R _].
  apply (rune_pos_S bs i n (bz b) 1 P); [lia|].
  rewrite (index_skipn _ _ _ I). apply decode_ascii. exact A.
Qed.

Lemma rune_pos_decode (bs : list byte) (i n r w : Z) (rest : list byte) :
  rune_pos bs i n -> i < len bs -> slice bs i (len bs) = Return rest ->
  DecodeRuneInString rest = (r, w) ->
  rune_pos bs (i + w) (n + 1) /\ 1 <= w.
Proof.
  intros P L S D. apply slice_suffix in S. destruct S as [R ->].
  split.
  - apply (rune_pos_S bs i n r w P L D).
  - pose proof (decode_width _ (skipn_nonempty bs i ltac:(lia))) as W.
    rewrite D in W. simpl in W. lia.
Qed.

(** A run of ASCII bytes is as many runes. *)
Lemma rune_pos_ascii_run (bs : list byte) (k : nat) (i n : Z) :
  rune_pos bs i n ->
  (forall j, 0 <= j < Z.of_nat k ->
             exists b, index bs (i + j) = Return b /\ bz b < 0x80) ->
  rune_pos bs (i + Z.of_nat k) (n + Z.of_nat k).
Proof.
  induction k as [|k IH]; intros P A.
  - simpl. rewrite !Z.add_0_r. exact P.
  - replace (i + Z.of_nat (S k)) with (i + Z.of_nat k + 1) by lia.
    replace (n + Z.of_nat (S k)) with (n + Z.of_nat k + 1) by lia.
    destruct (A (Z.of_nat k) ltac:(lia)) as (b & I & B).
    apply (rune_pos_ascii bs _ _ b); auto.
    apply IH; auto. intros j R. apply A. lia.
Qed.

Lemma rune_pos_bom (bs : list byte) (i n : Z) :
  rune_pos bs i n ->
  index bs i = Return xef -> index bs (i + 1) = Return xbb ->
  index bs (i + 2) = Return xbf ->
  rune_pos bs (i + 3) (n + 1).
Proof.
  intros P I0 I1 I2. pose proof (index_Return _ _ _ I0) as [R _].
  apply (rune_pos_S bs i n 0xFEFF 3 P); [lia|].
  rewrite (index_skipn _ _ _ I0), (index_skipn _ _ _ I1).
  replace (i + 1 + 1) with (i + 2) by lia.
  rewrite (index_skipn _ _ _ I2). reflexivity.
Qed.

(** ** Scanning steps *)

Lemma and_then_true (c : bool) (m : outcome bool) :
  and_then c m = Return true -> c = true /\ m = Return true.
Proof.
  destruct c; simpl; intros H; [auto | discriminate].
Qed.

Lemma byte_at_is_true (bs : list byte) (i : Z) (c : byte) :
  byte_at_is bs i c = Return true -> index bs i = Return c.
Proof.
  unfold byte_at_is. intros H. inv_bind H. injection H as H.
  apply byte_eqb_eq in H. subst a. exact E.
Qed.

Lemma scan_rel_refl (s : Lexer) : scan_rel s s.
Proof. unfold scan_rel. split; [reflexivity | split; [lia | auto]]. Qed.

Lemma scan_rel_trans (s1 s2 s3 : Lexer) :
  scan_rel s1 s2 -> scan_rel s2 s3 -> scan_rel s1 s3.
Proof.
  intros (A1 & A2 & A3) (B1 & B2 & B3). unfold scan_rel.
  split; [congruence | split; [lia | auto]].
Qed.

Lemma scan_newline (s : Lexer) : scan_rel s (newline s).
Proof. unfold scan_rel. split; [reflexivity | split; [simpl; lia | auto]]. Qed.

Lemma scan_ascii (s : Lexer) (b : byte) :
  index (input s) (end_ s) = Return b -> bz b < 0x80 ->
  scan_rel s (advance 1 1 s).
Proof.
  intros I A. unfold scan_rel. split; [reflexivity | split; [simpl; lia |]].
  intros (P1 & P2 & P3 & P4). unfold pos_inv. simpl.
  split; [exact P1 | split; [| lia]]. eapply rune_pos_ascii; eauto.
Qed.

Lemma scan_ascii_run (s : Lexer) (k : nat) :
  (forall j, 0 <= j < Z.of_nat k ->
             exists b, index (input s) (end_ s + j) = Return b /\ bz b < 0x80) ->
  scan_rel s (advance (Z.of_nat k) (Z.of_nat k) s).
Proof.
  intros A. unfold scan_rel. split; [reflexivity | split; [simpl; lia |]].
  intros (P1 & P2 & P3 & P4). unfold pos_inv. simpl.
  split; [exact P1 | split; [| lia]]. apply rune_pos_ascii_run; auto.
Qed.

Lemma scan_peek (s : Lexer) (r w : Z) :
  end_ s < len (input s) -> peek s = Return (r, w) ->
  scan_rel s (advance w 1 s) /\ 1 <= w.
Proof.
  intros L H. unfold peek in H. inv_bind H. injection H as D.
  assert (W : 1 <= w).
  { pose proof (slice_suffix _ _ _ E) as [R ->].
    pose proof (decode_width _ (skipn_nonempty (input s) (end_ s) ltac:(lia))) as W.
    rewrite D in W. simpl in W. lia. }
  split; [|exact W].
  unfold scan_rel. split; [reflexivity | split; [simpl; lia |]].
  intros (P1 & P2 & P3 & P4). unfold pos_inv. simpl.
  split; [exact P1 | split; [| lia]].
  eapply rune_pos_decode; eauto.
Qed.

Lemma scan_bom (s : Lexer) :
  index (input s) (end_ s) = Return xef ->
  index (input s) (end_ s + 1) = Return xbb ->
  index (input s) (end_ s + 2) = Return xbf ->
  scan_rel s (advance 3 1 s).
Proof.
  intros I0 I1 I2. unfold scan_rel. split; [reflexivity | split; [simpl; lia |]].
  intros (P1 & P2 & P3 & P4). unfold pos_inv. simpl.
  split; [exact P1 | split; [| lia]]. apply rune_pos_bom; auto.
Qed.

(** ** Whitespace *)

Lemma ws_loop_scan (fuel : nat) (s s' : Lexer) :
  ws_loop fuel s = Return s' -> scan_rel s s'.
Proof.
  revert s s'. induction fuel as [|fuel IH]; intros s s' H; simpl in H;
    (destruct (end_ s <? len (input s)) eqn:C;
     [| injection H as <-; apply scan_rel_refl]).
  - discriminate.
  - inv_bind H.
    assert (A : bz a < 0x80 -> scan_rel s (advance 1 1 s))
      by (intros; eapply scan_ascii; eauto).
    destruct a; try (injection H as <-; apply scan_rel_refl).
    + apply IH in H. eapply scan_rel_trans; [apply A; reflexivity | exact H].
    + apply IH in H. eapply scan_rel_trans; [apply A; reflexivity |].
      eapply scan_rel_trans; [apply scan_newline | exact H].
    + assert (N : scan_rel s (newline (advance 1 1 s))).
      { eapply scan_rel_trans; [apply A; reflexivity | apply scan_newline]. }
      inv_bind H. destruct a.
      * apply and_then_true in E0. destruct E0 as [_ B].
        apply byte_at_is_true in B. apply IH in H.
        eapply scan_rel_trans; [exact N|].
        eapply scan_rel_trans; [|exact H].
        eapply scan_ascii; [exact B | reflexivity].
      * apply IH in H. eapply scan_rel_trans; [exact N | exact H].
    + apply IH in H. eapply scan_rel_trans; [apply A; reflexivity | exact H].
    + apply IH in H. eapply scan_rel_trans; [apply A; reflexivity | exact H].
    + inv_bind H. destruct a; [| injection H as <-; apply scan_rel_refl].
      apply and_then_true in E0. destruct E0 as [_ B]. inv_bind B.
      apply and_then_true in B. destruct B as [-> B].
      apply byte_at_is_true in E0, B. apply IH in H.
      eapply scan_rel_trans; [|exact H]. apply scan_bom; auto.
Qed.

Lemma ws_scan (s s' : Lexer) : ws s = Return s' -> scan_rel s s'.
Proof. apply ws_loop_scan. Qed.

(** ** Comments and names *)

Lemma readComment_loop_scan (fuel : nat) (s s' : Lexer) :
  readComment_loop fuel s = Return s' -> scan_rel s s'.
Proof.
  revert s s'. induction fuel as [|fuel IH]; intros s s' H; simpl in H;
    (destruct (end_ s <? len (input s)) eqn:C;
     [| injection H as <-; apply scan_rel_refl]).
  - discriminate.
  - apply Z.ltb_lt in C. inv_bind H. destruct a as [r w].
    destruct ((31 <? r) || (r =? 9)); [| injection H as <-; apply scan_rel_refl].
    apply IH in H. eapply scan_rel_trans; [|exact H].
    eapply scan_peek; eauto.
Qed.

Lemma readComment_scan (s s' : Lexer) (t : Token) (e : error) :
  readComment s = Return (s', t, e) -> scan_rel s s'.
Proof.
  unfold readComment. intros H. inv_bind H.
  apply makeToken_Return in H. destruct H as (-> & _).
  eapply readComment_loop_scan; eauto.
Qed.

Lemma readName_loop_scan (fuel : nat) (s s' : Lexer) :
  readName_loop fuel s = Return s' -> scan_rel s s'.
Proof.
  revert s s'. induction fuel as [|fuel IH]; intros s s' H; simpl in H;
    (destruct (end_ s <? len (input s)) eqn:C;
     [| injection H as <-; apply scan_rel_refl]).
  - discriminate.
  - apply Z.ltb_lt in C. inv_bind H. destruct a as [r w].
    destruct (is_name_rune r); [| injection H as <-; apply scan_rel_refl].
    apply IH in H. eapply scan_rel_trans; [|exact H].
    eapply scan_peek; eauto.
Qed.

Lemma readName_scan (s s' : Lexer) (t : Token) (e : error) :
  readName s = Return (s', t, e) -> scan_rel s s' /\ Kind t = Name.
Proof.
  unfold readName. intros H. inv_bind H.
  apply makeToken_Return in H. destruct H as (-> & K & _).
  split; [eapply readName_loop_scan; eauto | exact K].
Qed.

(** ** Numbers *)

Lemma advance_advance (a b c d : Z) (s : Lexer) :
  advance a b (advance c d s) = advance (c + a) (d + b) s.
Proof. unfold advance. simpl. f_equal; lia. Qed.

Lemma advance_0 (s : Lexer) : advance 0 0 s = s.
Proof. destruct s. unfold advance. simpl. f_equal; lia. Qed.

Lemma acceptByte_range_spec (accepted : list byte) (s s' : Lexer) (hit : bool) :
  acceptByte_range accepted s = Return (s', hit) ->
  if hit then
    s' = advance 1 1 s
    /\ exists a, In a accepted /\ index (input s) (end_ s) = Return a
  else s' = s.
Proof.
  induction accepted as [|a rest IH]; simpl; intros H.
  - injection H as <- <-. reflexivity.
  - inv_bind H. destruct a0.
    + injection H as <- <-. split; [reflexivity|].
      exists a. split; [now left | apply byte_at_is_true; exact E].
    + apply IH in H. destruct hit; [|exact H].
      destruct H as (-> & a' & I & X). split; [reflexivity|].
      exists a'. split; [now right | exact X].
Qed.

Lemma acceptByte_spec (accepted : list byte) (s s' : Lexer) (hit : bool) :
  acceptByte accepted s = Return (s', hit) ->
  if hit then
    s' = advance 1 1 s
    /\ exists a, In a accepted /\ index (input s) (end_ s) = Return a
  else s' = s.
Proof.
  unfold acceptByte. destruct (len (input s) <=? end_ s).
  - intros H. injection H as <- <-. reflexivity.
  - apply acceptByte_range_spec.
Qed.

Lemma acceptByte_scan (accepted : list byte) (s s' : Lexer) (hit : bool) :
  Forall (fun a => bz a < 0x80) accepted ->
  acceptByte accepted s = Return (s', hit) -> scan_rel s s'.
Proof.
  intros F H. apply acceptByte_spec in H. destruct hit.
  - destruct H as (-> & a & I & X). eapply scan_ascii; [exact X|].
    rewrite Forall_forall in F. apply F. exact I.
  - subst s'. apply scan_rel_refl.
Qed.

Lemma is_digit_ascii (b : byte) : is_digit b = true -> bz b < 0x80.
Proof.
  unfold is_digit. intros H. apply andb_true_iff in H. lia.
Qed.

Lemma acceptDigits_loop_spec (fuel : nat) (c : Z) (s s' : Lexer) (c' : Z) :
  acceptDigits_loop fuel c s = Return (s', c') ->
  exists k : nat,
    c' = c + Z.of_nat k /\ s' = advance (Z.of_nat k) (Z.of_nat k) s
    /\ (forall j, 0 <= j < Z.of_nat k ->
          exists b, index (input s) (end_ s + j) = Return b /\ is_digit b = true).
Proof.
  revert c s s' c'. induction fuel as [|fuel IH]; intros c s s' c' H;
    simpl in H; inv_bind H; destruct a.
  - discriminate.
  - injection H as <- <-. exists 0%nat. rewrite advance_0.
    split; [simpl; lia | split; [reflexivity | intros; lia]].
  - apply and_then_true in E. destruct E as [_ E]. inv_bind E.
    injection E as D.
    apply IH in H. destruct H as (k & -> & -> & A).
    exists (S k). rewrite advance_advance.
    split; [lia | split; [f_equal; lia |]].
    intros j R. destruct (Z.eq_dec j 0) as [->|N].
    + rewrite Z.add_0_r. eauto.
    + destruct (A (j - 1) ltac:(lia)) as (b & I & B). simpl in I.
      replace (end_ s + 1 + (j - 1)) with (end_ s + j) in I by lia. eauto.
  - injection H as <- <-. exists 0%nat. rewrite advance_0.
    split; [simpl; lia | split; [reflexivity | intros; lia]].
Qed.

Lemma acceptDigits_spec (s s' : Lexer) (c : Z) :
  acceptDigits s = Return (s', c) ->
  exists k : nat,
    c = Z.of_nat k /\ s' = advance c c s
    /\ (forall j, 0 <= j < c ->
          exists b, index (input s) (end_ s + j) = Return b /\ is_digit b = true).
Proof.
  unfold acceptDigits. intros H. apply acceptDigits_loop_spec in H.
  destruct H as (k & -> & -> & A). exists k. auto.
Qed.

Lemma acceptDigits_scan (s s' : Lexer) (c : Z) :
  acceptDigits s = Return (s', c) -> scan_rel s s'.
Proof.
  intros H. apply acceptDigits_spec in H. destruct H as (k & -> & -> & A).
  apply scan_ascii_run. intros j R. destruct (A j R) as (b & I & D).
  exists b. split; [exact I | apply is_digit_ascii; exact D].
Qed.

Ltac ascii_list := repeat (constructor; try reflexivity).

Lemma scanned_Invalid (t : Token) : Kind t = Invalid -> scanned t.
Proof. intros K. unfold scanned. rewrite K. split; discriminate. Qed.

Lemma readNumber_exponent_scan (float : bool) (s s' : Lexer) (t : Token) (e : error) :
  readNumber_exponent float s = Return (s', t, e) ->
  scan_rel s s' /\ scanned t.
Proof.
  unfold readNumber_exponent. intros H.
  inv_bind H. destruct a as [s1 hit].
  assert (R1 : scan_rel _ _)
    by (eapply acceptByte_scan; [| exact E]; ascii_list).
  destruct hit.
  - inv_bind H. destruct a as [s2 sign].
    assert (R2 : scan_rel _ _)
    by (eapply acceptByte_scan; [| exact E0]; ascii_list).
    inv_bind H. destruct a as [s3 consumed].
    pose proof (acceptDigits_scan _ _ _ E1) as R3.
    assert (R : scan_rel s s3)
      by (eapply scan_rel_trans; [exact R1 | eapply scan_rel_trans; eauto]).
    destruct (consumed =? 0).
    + inv_bind H. apply makeError_Return in H. destruct H as (-> & K & _).
      split; [exact R | apply scanned_Invalid; exact K].
    + apply makeToken_Return in H. destruct H as (-> & K & _).
      split; [exact R | unfold scanned; rewrite K; split; discriminate].
  - destruct float; apply makeToken_Return in H; destruct H as (-> & K & _);
      (split; [exact R1 | unfold scanned; rewrite K; split; discriminate]).
Qed.

Lemma readNumber_fraction_scan (s s' : Lexer) (t : Token) (e : error) :
  readNumber_fraction s = Return (s', t, e) ->
  scan_rel s s' /\ scanned t.
Proof.
  unfold readNumber_fraction. intros H.
  inv_bind H. destruct a as [s1 hit].
  assert (R1 : scan_rel _ _)
    by (eapply acceptByte_scan; [| exact E]; ascii_list).
  destruct hit.
  - inv_bind H. destruct a as [s2 consumed].
    pose proof (acceptDigits_scan _ _ _ E0) as R2.
    assert (R : scan_rel s s2) by (eapply scan_rel_trans; eauto).
    destruct (consumed =? 0).
    + inv_bind H. apply makeError_Return in H. destruct H as (-> & K & _).
      split; [exact R | apply scanned_Invalid; exact K].
    + apply readNumber_exponent_scan in H. destruct H as [R3 K].
      split; [eapply scan_rel_trans; eauto | exact K].
  - apply readNumber_exponent_scan in H. destruct H as [R3 K].
    split; [eapply scan_rel_trans; eauto | exact K].
Qed.

Lemma readNumber_scan (s s' : Lexer) (t : Token) (e : error) :
  readNumber s = Return (s', t, e) ->
  scan_rel (advance (-1) (-1) s) s' /\ scanned t.
Proof.
  unfold readNumber. intros H.
  inv_bind H. destruct a as [s1 minus].
  assert (R1 : scan_rel _ _)
    by (eapply acceptByte_scan; [| exact E]; ascii_list).
  inv_bind H. destruct a as [s2 zero].
  assert (R2 : scan_rel _ _)
    by (eapply acceptByte_scan; [| exact E0]; ascii_list).
  assert (R12 : scan_rel (advance (-1) (-1) s) s2)
    by (eapply scan_rel_trans; eauto).
  inv_bind H. destruct a as [s3 consumed].
  pose proof (acceptDigits_scan _ _ _ E1) as R3.
  assert (R : scan_rel (advance (-1) (-1) s) s3)
    by (eapply scan_rel_trans; eauto).
  destruct zero.
  - destruct (negb (consumed =? 0)).
    + inv_bind H. apply makeError_Return in H. destruct H as (-> & K & _).
      split; [| apply scanned_Invalid; exact K].
      apply acceptDigits_spec in E1. destruct E1 as (k & _ & -> & _).
      rewrite advance_advance, Z.add_opp_diag_r, advance_0. exact R12.
    + apply readNumber_fraction_scan in H. destruct H as [R4 K].
      split; [eapply scan_rel_trans; eauto | exact K].
  - destruct (consumed =? 0).
    + inv_bind H. apply makeError_Return in H. destruct H as (-> & K & _).
      split; [exact R | apply scanned_Invalid; exact K].
    + apply readNumber_fraction_scan in H. destruct H as [R4 K].
      split; [eapply scan_rel_trans; eauto | exact K].
Qed.

(** ** Runes of non-ASCII bytes *)

Lemma lor_ge_128 (a b : Z) :
  0 <= a -> 0 <= b -> 128 <= a \/ 128 <= b -> 128 <= Z.lor a b.
Proof.
  intros A B H.
  assert (L : 7 <= Z.log2 (Z.lor a b)).
  { rewrite Z.log2_lor by lia.
    destruct H as [H|H];
      [assert (7 <= Z.log2 a) | assert (7 <= Z.log2 b)]; try lia;
      apply Z.log2_le_pow2; try lia; exact H. }
  destruct (Z.le_gt_cases (Z.lor a b) 0) as [N|P].
  - rewrite Z.log2_nonpos in L by exact N. lia.
  - apply Z.log2_le_pow2 in L; [exact L | exact P].
Qed.

Lemma land_low (x : Z) (k : Z) :
  0 <= k -> Z.land x (Z.ones k) = x mod 2 ^ k.
Proof. intros K. apply Z.land_ones. exact K. Qed.

Lemma contb_mod (b : byte) : contb b = bz b mod 64.
Proof. unfold contb. apply (land_low (bz b) 6). lia. Qed.

Ltac divlia := first [lia | Z.to_euclidean_division_equations; lia].
Ltac lor_nonneg := first [divlia | apply Z.lor_nonneg; split; lor_nonneg].
Ltac lor_ge :=
  first [divlia
        | apply lor_ge_128;
          [lor_nonneg | lor_nonneg | first [left; lor_ge | right; lor_ge]]].

Lemma decode_nonascii (b : byte) (t : list byte) :
  0x80 <= bz b -> 0x80 <= fst (DecodeRuneInString (b :: t)).
Proof.
  intros H. pose proof (bz_range b) as Rb.
  unfold DecodeRuneInString.
  destruct (bz b <? 0x80) eqn:C; [apply Z.ltb_lt in C; lia|].
  assert (E : 0x80 <= RuneError) by (unfold RuneError; lia).
  unfold lead_info.
  repeat match goal with
  | |- context [if ?c then _ else _] => destruct c eqn:?; cbn iota beta
  | |- context [match ?l with [] => _ | _ :: _ => _ end] => destruct l
  end; try exact E; cbn [fst];
  repeat match goal with
  | X : (_ && _) = true |- _ => apply andb_true_iff in X; destruct X
  | X : negb _ = false |- _ => apply negb_false_iff in X
  | X : in_range _ _ _ = true |- _ => unfold in_range in X
  | X : (_ <=? _) = true |- _ => apply Z.leb_le in X
  | X : (_ =? _) = true |- _ => apply Z.eqb_eq in X
  end;
  rewrite ?contb_mod;
  change 0x1F with (Z.ones 5); change 0x0F with (Z.ones 4);
  change 0x07 with (Z.ones 3);
  rewrite ?land_low by lia; rewrite ?Z.shiftl_mul_pow2 by lia;
  change (2 ^ 3) with 8; change (2 ^ 4) with 16; change (2 ^ 5) with 32;
  change (2 ^ 6) with 64; change (2 ^ 12) with 4096;
  change (2 ^ 18) with 262144;
  lor_ge.
Qed.

(** ** Escapes *)

Lemma hex_value_ascii (c d : Z) : hex_value c = Some d -> c < 0x80.
Proof.
  unfold hex_value.
  repeat match goal with
  | |- context [if ?c then _ else _] => destruct c eqn:?
  end; try discriminate; intros _;
  repeat match goal with
  | X : (_ && _) = true |- _ => apply andb_true_iff in X; destruct X
  | X : (_ <=? _) = true |- _ => apply Z.leb_le in X
  end; lia.
Qed.

Lemma unhex_loop_ascii (fuel : nat) (bs : list byte) (v u : Z) :
  unhex_loop v (runes_fuel fuel bs) = Some u -> (length bs <= fuel)%nat ->
  Forall (fun b => bz b < 0x80) bs.
Proof.
  revert bs v. induction fuel as [|fuel IH]; intros bs v H L.
  - destruct bs; [constructor | simpl in L; lia].
  - destruct bs as [|b t]; [constructor|].
    cbn [runes_fuel] in H.
    destruct (DecodeRuneInString (b :: t)) as [r w] eqn:D.
    cbn [unhex_loop] in H.
    destruct (hex_value r) as [d|] eqn:X; [|discriminate].
    apply hex_value_ascii in X.
    assert (A : bz b < 0x80).
    { destruct (Z.lt_ge_cases (bz b) 0x80) as [A|A]; [exact A|].
      pose proof (decode_nonascii b t A) as N. rewrite D in N. simpl in N. lia. }
    rewrite (decode_ascii b t A) in D. injection D as <- <-.
    constructor; [exact A|].
    apply (IH t _ H). simpl in L. lia.
Qed.

Lemma unhex_ascii (bs : list byte) (u : Z) :
  unhex bs = Some u -> Forall (fun b => bz b < 0x80) bs.
Proof.
  unfold unhex, runes. intros H. eapply unhex_loop_ascii; eauto.
Qed.

Lemma escape_byte_ascii (escape c : byte) :
  escape_byte escape = Some c -> bz escape < 0x80.
Proof.
  destruct escape; simpl; intros H; try discriminate; reflexivity.
Qed.

(** The bytes of a slice that are all ASCII are ASCII in the string. *)
Lemma slice_ascii (bs q : list byte) (lo hi j : Z) :
  slice bs lo hi = Return q -> Forall (fun b => bz b < 0x80) q ->
  0 <= j < hi - lo ->
  exists b, index bs (lo + j) = Return b /\ bz b < 0x80.
Proof.
  intros S F R.
  pose proof (slice_Return _ _ _ _ S) as (R1 & R2 & Q).
  assert (L : (Z.to_nat j < length q)%nat).
  { rewrite Q, length_firstn, length_skipn. unfold len in R2. lia. }
  destruct (nth_error q (Z.to_nat j)) as [b|] eqn:N;
    [| apply nth_error_None in N; lia].
  exists b. split.
  - eapply slice_index; eauto.
  - rewrite Forall_forall in F. apply F. eapply nth_error_In; eauto.
Qed.

(** ** Strings *)

Ltac error_leaf H :=
  apply makeError_Return in H;
  let K := fresh "K" in
  destruct H as (-> & K & _);
  split; [| apply scanned_Invalid; exact K].

Lemma scan_ascii_peek (s : Lexer) (r : byte) (char w : Z) :
  end_ s < len (input s) ->
  index (input s) (end_ s) = Return r ->
  (if 127 <=? bz r then peek s else Return (bz r, 1)) = Return (char, w) ->
  scan_rel s (advance w 1 s).
Proof.
  intros L I H. destruct (127 <=? bz r) eqn:G.
  - eapply scan_peek; eauto.
  - injection H as <- <-. apply Z.leb_gt in G.
    eapply scan_ascii; [exact I | lia].
Qed.

Lemma readString_loop_scan (fuel : nat) (buf : option (list byte))
      (s s' : Lexer) (t : Token) (e : error) :
  readString_loop fuel buf s = Return (s', t, e) ->
  scan_rel s s' /\ scanned t.
Proof.
  revert buf s s' t e.
  induction fuel as [|fuel IH]; intros buf s s' t e H;
    cbn [readString_loop] in H;
    (destruct (end_ s <? len (input s)) eqn:C;
     [| error_leaf H; apply scan_rel_refl]).
  - discriminate.
  - apply Z.ltb_lt in C. inv_bind H. rename a into r.
    destruct (Byte.eqb r x0a || Byte.eqb r x0d);
      [error_leaf H; apply scan_rel_refl|].
    destruct ((bz r <? 32) && negb (Byte.eqb r x09));
      [error_leaf H; apply scan_rel_refl|].
    assert (A : bz r < 0x80 -> scan_rel s (advance 1 1 s))
      by (intros; eapply scan_ascii; eauto).
    destruct r;
      try solve [ inv_bind H; destruct a as [char w];
                  apply IH in H; destruct H as [R K]; split; [|exact K];
                  eapply scan_rel_trans; [|exact R];
                  eapply scan_ascii_peek; eauto ].
    + (* the closing quote *)
      inv_bind H. destruct a as [[s0 t0] e0].
      apply makeToken_Return in E0. destruct E0 as (-> & K & -> & _).
      injection H as <- <- <-. split; [apply A; reflexivity|].
      unfold scanned. simpl. rewrite K. split; discriminate.
    + (* an escape *)
      destruct (len (input s) <=? end_ s + 1);
        [error_leaf H; apply A; reflexivity|].
      inv_bind H. rename a into b. inv_bind H. rename a into escape.
      destruct (Byte.eqb escape x75) eqn:U.
      * apply byte_eqb_eq in U. subst escape.
        destruct (len (input s) <=? end_ s + 6).
        { inv_bind H. error_leaf H. apply A; reflexivity. }
        inv_bind H. rename a into digits.
        destruct (unhex digits) as [u|] eqn:X.
        -- apply IH in H. destruct H as [R K]. split; [|exact K].
           eapply scan_rel_trans; [|exact R].
           apply (scan_ascii_run s 6). intros j Rj.
           destruct (Z.eq_dec j 0) as [->|N0];
             [rewrite Z.add_0_r; exists x5c; split; [exact E | reflexivity]|].
           destruct (Z.eq_dec j 1) as [->|N1];
             [exists x75; split; [exact E1 | reflexivity]|].
           apply unhex_ascii in X.
           destruct (slice_ascii _ _ _ _ (j - 2) E2 X ltac:(lia)) as (c & I & B).
           replace (end_ s + 2 + (j - 2)) with (end_ s + j) in I by lia.
           eauto.
        -- inv_bind H. error_leaf H. apply A; reflexivity.
      * destruct (escape_byte escape) as [c|] eqn:X.
        -- apply IH in H. destruct H as [R K]. split; [|exact K].
           eapply scan_rel_trans; [|exact R].
           apply (scan_ascii_run s 2). intros j Rj.
           destruct (Z.eq_dec j 0) as [->|N0];
             [rewrite Z.add_0_r; exists x5c; split; [exact E | reflexivity]|].
           replace j with 1 by lia. exists escape.
           split; [exact E1 | eapply escape_byte_ascii; eauto].
        -- error_leaf H. apply A; reflexivity.
Qed.

Lemma readBlockString_loop_scan (fuel : nat) (buf : list byte)
      (s s' : Lexer) (t : Token) (e : error) :
  readBlockString_loop fuel buf s = Return (s', t, e) ->
  scan_rel s s' /\ scanned t.
Proof.
  revert buf s s' t e.
  induction fuel as [|fuel IH]; intros buf s s' t e H;
    cbn [readBlockString_loop] in H;
    (destruct (end_ s <? len (input s)) eqn:C;
     [| error_leaf H; apply scan_rel_refl]).
  - discriminate.
  - apply Z.ltb_lt in C. inv_bind H. rename a into r.
    assert (A : bz r < 0x80 -> scan_rel s (advance 1 1 s))
      by (intros; eapply scan_ascii; eauto).
    inv_bind H. destruct a.
    + (* the closing delimiter *)
      apply and_then_true in E0. destruct E0 as [G Q].
      inv_bind Q. injection Q as Q. apply bytes_eqb_eq in Q. subst a.
      inv_bind H. destruct a as [[s0 t0] e0].
      apply makeToken_Return in E1. destruct E1 as (-> & K & -> & _).
      injection H as <- <- <-. split.
      * apply (scan_ascii_run s 3). intros j Rj.
        eapply slice_ascii; [exact E0 | ascii_list | lia].
      * unfold scanned. simpl. rewrite K. split; discriminate.
    + destruct ((bz r <? 32) && negb (Byte.eqb r x09) && negb (Byte.eqb r x0a)
                && negb (Byte.eqb r x0d));
        [error_leaf H; apply scan_rel_refl|].
      inv_bind H. destruct a.
      * (* the escaped delimiter *)
        apply and_then_true in E1. destruct E1 as [G Q].
        inv_bind Q. injection Q as Q. apply bytes_eqb_eq in Q. subst a.
        apply IH in H. destruct H as [R K]. split; [|exact K].
        eapply scan_rel_trans; [|exact R].
        apply (scan_ascii_run s 4). intros j Rj.
        eapply slice_ascii; [exact E1 | ascii_list | lia].
      * destruct (Byte.eqb r x0d) eqn:CR.
        -- apply byte_eqb_eq in CR. subst r.
           inv_bind H. apply IH in H. destruct H as [R K]. split; [|exact K].
           eapply scan_rel_trans; [|exact R].
           destruct a.
           ++ apply and_then_true in E2. destruct E2 as [_ B].
              apply byte_at_is_true in B.
              eapply scan_rel_trans; [apply A; reflexivity|].
              eapply scan_ascii; [exact B | reflexivity].
           ++ apply A; reflexivity.
        -- inv_bind H. destruct a as [char w].
           apply IH in H. destruct H as [R K]. split; [|exact K].
           eapply scan_rel_trans; [|exact R].
           eapply scan_ascii_peek; eauto.
Qed.

Lemma readString_scan (s s' : Lexer) (t : Token) (e : error) :
  readString s = Return (s', t, e) ->
  scan_rel (advanceStart 1 1 s) s' /\ scanned t.
Proof. apply readString_loop_scan. Qed.

Lemma readBlockString_scan (s s' : Lexer) (t : Token) (e : error) :
  readBlockString s = Return (s', t, e) ->
  scan_rel (advance 2 2 (advanceStart 3 3 s)) s' /\ scanned t.
Proof. apply readBlockString_loop_scan. Qed.

Lemma unexpectedCharacter_Return (r : byte) (s s' : Lexer) (t : Token) (e : error) :
  unexpectedCharacter r s = Return (s', t, e) ->
  s' = advance (-1) (-1) s /\ Kind t = Invalid.
Proof.
  unfold unexpectedCharacter. intros H.
  repeat match type of H with
  | (if ?c then _ else _) = _ => destruct c
  end; apply makeError_Return in H; destruct H as (-> & K & _); auto.
Qed.

(** ** The dispatch *)

Lemma shell_input (s s' : Lexer) : shell s' = shell s -> input s' = input s.
Proof. unfold shell. intros H. congruence. Qed.

Lemma shell_peeked (s s' : Lexer) : shell s' = shell s -> peeked s' = peeked s.
Proof. unfold shell. intros H. congruence. Qed.

Lemma scanned_body (s s' : Lexer) (t : Token) (e : error) :
  scan_rel s s' -> scanned t -> body_rel s s' t e.
Proof.
  intros (S1 & S2 & S3) (K1 & K2). unfold body_rel.
  split; [apply shell_input; exact S1|].
  split; [apply shell_peeked; exact S1|].
  split; [exact S2|]. split; [exact S3|]. split; [exact K1|].
  intros K. contradiction.
Qed.

Lemma body_rel_after (s s1 s' : Lexer) (t : Token) (e : error) :
  scan_rel s s1 -> body_rel s1 s' t e -> body_rel s s' t e.
Proof.
  intros (S1 & S2 & S3) (B1 & B2 & B3 & B4 & B5 & B6). unfold body_rel.
  split; [rewrite B1; apply shell_input; exact S1|].
  split; [rewrite B2; apply shell_peeked; exact S1|].
  split; [lia|]. split; [auto|]. split; assumption.
Qed.

Lemma body_read (s s' : Lexer) (t : Token) (e : error) :
  body_rel s s' t e -> read_rel s (set_lastToken t s') t e.
Proof.
  intros B. split; [|reflexivity]. exact B.
Qed.

Lemma scan_syncStart (s : Lexer) : scan_rel s (syncStart s).
Proof.
  unfold scan_rel. split; [reflexivity | split; [simpl; lia|]].
  intros (P1 & P2 & P3 & P4). unfold pos_inv. simpl.
  repeat split; auto; lia.
Qed.

Lemma starts_with3_true (lit : list byte) (s : Lexer) :
  starts_with3 lit s = Return true ->
  slice (input s) (start s) (start s + 3) = Return lit.
Proof.
  unfold starts_with3. intros H. apply and_then_true in H.
  destruct H as [_ H]. inv_bind H. injection H as H.
  apply bytes_eqb_eq in H. subst a. exact E.
Qed.

(** Opening a string: the start moves behind the quote. *)
Lemma scan_open_string (s : Lexer) :
  index (input s) (end_ s) = Return x22 ->
  scan_rel (syncStart s) (advanceStart 1 1 (advance 1 1 (syncStart s))).
Proof.
  intros I. unfold scan_rel. split; [reflexivity | split; [simpl; lia|]].
  intros (P1 & P2 & P3 & P4). unfold pos_inv. simpl in *.
  assert (Q : rune_pos (input s) (end_ s + 1) (endRunes s + 1))
    by (eapply rune_pos_ascii; [exact P2 | exact I | reflexivity]).
  repeat split; auto; lia.
Qed.

(** Opening a block string: the start moves behind the three quotes. *)
Lemma scan_open_block (s : Lexer) :
  slice (input s) (end_ s) (end_ s + 3) = Return triple_quote ->
  scan_rel (syncStart s)
           (advance 2 2 (advanceStart 3 3 (advance 1 1 (syncStart s)))).
Proof.
  intros Q. unfold scan_rel. split; [reflexivity | split; [simpl; lia|]].
  intros (P1 & P2 & P3 & P4). unfold pos_inv. simpl in *.
  assert (R : rune_pos (input s) (end_ s + 3) (endRunes s + 3)).
  { apply (rune_pos_ascii_run (input s) 3); [exact P2|].
    intros j Rj. eapply slice_ascii; [exact Q | ascii_list | lia]. }
  replace (end_ s + 1 + 2) with (end_ s + 3) by lia.
  replace (endRunes s + 1 + 2) with (endRunes s + 3) by lia.
  repeat split; auto; lia.
Qed.

Lemma scan_spread (s : Lexer) :
  slice (input s) (end_ s) (end_ s + 3) = Return (bytes "...") ->
  scan_rel (syncStart s) (advance 2 2 (advance 1 1 (syncStart s))).
Proof.
  intros Q. rewrite advance_advance.
  change (bytes "...") with [x2e; x2e; x2e] in Q.
  apply (scan_ascii_run (syncStart s) 3). intros j Rj.
  apply (slice_ascii _ _ _ _ j Q); [ascii_list | simpl; lia].
Qed.

Lemma scan_rewind (s : Lexer) : scan_rel s (advance (-1) (-1) (advance 1 1 s)).
Proof.
  rewrite advance_advance. simpl. rewrite advance_0. apply scan_rel_refl.
Qed.

Ltac token_leaf H :=
  apply makeToken_Return in H;
  let K := fresh "K" in
  destruct H as (-> & K & -> & _);
  apply scanned_body; [| unfold scanned; rewrite K; split; discriminate].

Lemma ReadToken_fuel_fresh (fuel : nat) (s s' : Lexer) (t : Token) (e : error) :
  peeked s = false -> ReadToken_fuel fuel s = Return (s', t, e) ->
  read_rel s s' t e.
Proof.
  revert s s' t e. induction fuel as [|fuel IH]; intros s s' t e P H;
    cbn [ReadToken_fuel] in H; [discriminate|].
  rewrite P in H. inv_bind H. destruct a as [[s0 t0] e0].
  injection H as <- <- <-. apply body_read.
  inv_bind E. rename a into s1.
  apply ws_scan in E0. apply (body_rel_after _ _ _ _ _ E0).
  apply (body_rel_after _ _ _ _ _ (scan_syncStart s1)).
  assert (P1 : peeked s1 = false)
    by (destruct E0 as (S1 & _); rewrite (shell_peeked _ _ S1); exact P).
  clear E0 P s.
  cbv zeta in E.
  destruct (len (input (syncStart s1)) <=? end_ (syncStart s1)) eqn:C.
  - apply Z.leb_le in C.
    apply makeToken_Return in E. destruct E as (-> & K & -> & R).
    unfold body_rel.
    split; [reflexivity|]. split; [reflexivity|]. split; [lia|].
    split; [auto|]. split; [rewrite K; discriminate|].
    intros _. simpl in *. split; [lia | reflexivity].
  - inv_bind E. rename a into r.
    assert (A : bz r < 0x80 ->
                scan_rel (syncStart s1) (advance 1 1 (syncStart s1)))
      by (intros; eapply scan_ascii; eauto).
    destruct r;
      first
        [ token_leaf E; apply A; reflexivity
        | apply readName_scan in E; destruct E as [R K];
          apply scanned_body;
          [ eapply scan_rel_trans; [apply A; reflexivity | exact R]
          | unfold scanned; rewrite K; split; discriminate ]
        | apply readNumber_scan in E; destruct E as [R K];
          apply scanned_body; [| exact K];
          eapply scan_rel_trans; [apply scan_rewind | exact R]
        | apply unexpectedCharacter_Return in E; destruct E as [-> K];
          apply scanned_body; [apply scan_rewind | apply scanned_Invalid; exact K]
        | idtac ].
    + (* a string or a block string *)
      inv_bind E. destruct a.
      * apply starts_with3_true in E1.
        apply readBlockString_scan in E. destruct E as [R K].
        apply scanned_body; [| exact K].
        eapply scan_rel_trans; [| exact R]. apply scan_open_block. exact E1.
      * apply readString_scan in E. destruct E as [R K].
        apply scanned_body; [| exact K].
        eapply scan_rel_trans; [| exact R]. apply scan_open_string. exact E0.
    + (* a comment *)
      inv_bind E. destruct a as [[s4 tc] ec].
      apply readComment_scan in E1.
      assert (R : scan_rel (syncStart s1) s4)
        by (eapply scan_rel_trans; [apply A; reflexivity | exact E1]).
      apply (body_rel_after _ _ _ _ _ R).
      apply IH in E; [exact (proj1 E)|].
      destruct R as (S1 & _). rewrite (shell_peeked _ _ S1). exact P1.
    + (* a dot *)
      inv_bind E. destruct a.
      * apply starts_with3_true in E1. token_leaf E.
        apply scan_spread. exact E1.
      * apply unexpectedCharacter_Return in E; destruct E as [-> K].
        apply scanned_body; [apply scan_rewind | apply scanned_Invalid; exact K].
Qed.

(** ** Reachable states *)

Lemma ReadToken_fresh (s s' : Lexer) (t : Token) (e : error) :
  peeked s = false -> ReadToken s = Return (s', t, e) -> read_rel s s' t e.
Proof. intros P H. eapply ReadToken_fuel_fresh; eauto. Qed.

Lemma PeekToken_fresh (s s' : Lexer) (t : Token) :
  peeked s = false -> PeekToken s = Return (s', t) ->
  exists s1 e, ReadToken s = Return (s1, t, e)
               /\ s' = set_peeked true (set_peek t e s1).
Proof.
  intros P H. unfold PeekToken in H. rewrite P in H. simpl in H.
  inv_bind H. inv_bind E. destruct a0 as [[s1 t1] e1].
  injection E as <-. injection H as <- <-. simpl. eauto.
Qed.

Lemma PeekToken_cached (s s' : Lexer) (t : Token) :
  peeked s = true -> PeekToken s = Return (s', t) ->
  s' = s /\ t = peekToken s.
Proof.
  intros P H. unfold PeekToken in H. rewrite P in H. simpl in H.
  injection H as <- <-. auto.
Qed.

Lemma step_inv (s s' : Lexer) :
  step s s' ->
  input s = input s' /\ (peek_inv s -> peek_inv s') /\ (pos_inv s -> pos_inv s').
Proof.
  intros [t e H | t H]; destruct (peeked s) eqn:P.
  - rewrite (ReadToken_peeked _ P) in H. injection H as <- _ _.
    split; [reflexivity|]. split; [|auto].
    intros _ Q. simpl in Q. discriminate.
  - apply (ReadToken_fresh _ _ _ _ P) in H.
    destruct H as ((B1 & B2 & B3 & B4 & B5 & B6) & L).
    split; [auto|]. split; [|exact B4].
    intros _ Q. congruence.
  - apply (PeekToken_cached _ _ _ P) in H. destruct H as [-> _]. auto.
  - apply (PeekToken_fresh _ _ _ P) in H. destruct H as (s1 & e & H & ->).
    apply (ReadToken_fresh _ _ _ _ P) in H.
    destruct H as ((B1 & B2 & B3 & B4 & B5 & B6) & L).
    split; [simpl; auto|]. split; [|exact B4].
    intros _ _. simpl. split; [exact L|]. split; [exact B5|].
    intros K. apply B6. exact K.
Qed.

Lemma reachable_inv (inp : list byte) (s : Lexer) :
  reachable inp s -> input s = inp /\ peek_inv s /\ pos_inv s.
Proof.
  induction 1 as [|s s' R (I & Q & P) S].
  - split; [reflexivity|]. split.
    + intros X. discriminate.
    + unfold pos_inv. simpl. repeat split; try lia; apply rune_pos_0.
  - apply step_inv in S. destruct S as (S1 & S2 & S3).
    split; [congruence|]. auto.
Qed.

(** C10: in every state that a lexer reaches, once [PeekToken] has returned
    the token [t], [LastToken] returns [t]: peeking assigns [lastToken]. *)
Theorem PeekToken_sets_lastToken (inp : list byte) (s s' : Lexer) (t : Token) :
  reachable inp s -> PeekToken s = Return (s', t) -> LastToken s' = t.
Proof.
  intros R H.
  assert (R' : reachable inp s') by (eapply reach_step; [exact R|]; eapply step_peek; eauto).
  apply reachable_inv in R'. destruct R' as (_ & Q & _).
  apply PeekToken_peeked in H. destruct H as [P T].
  destruct (Q P) as (L & _). unfold LastToken. congruence.
Qed.

(** The token after a comment is what [ReadToken] returns. *)
Lemma ReadToken_fuel_comment (fuel : nat) (s s1 s4 : Lexer) (tc : Token) (ec : error) :
  peeked s = false -> ws s = Return s1 -> end_ s1 < len (input s1) ->
  index (input s1) (end_ s1) = Return x23 ->
  readComment (advance 1 1 (syncStart s1)) = Return (s4, tc, ec) ->
  ReadToken_fuel (S fuel) s
  = ('(s', t, e) <- ReadToken_fuel fuel s4 ;; Return (set_lastToken t s', t, e)).
Proof.
  intros P W L I C. cbn [ReadToken_fuel]. rewrite P, W. cbn [bind].
  cbv zeta.
  replace (len (input (syncStart s1)) <=? end_ (syncStart s1)) with false
    by (symmetry; apply Z.leb_gt; exact L).
  change (index (input (syncStart s1)) (start (syncStart s1)))
    with (index (input s1) (end_ s1)).
  rewrite I. cbn [bind]. rewrite C. reflexivity.
Qed.

(** C8: [ReadToken] never returns a token of kind [Comment]; when the byte
    it dispatches on is the number sign, it reads the comment and returns
    what reading on from there returns; and on the input of the scenario
    the first token is the integer 42 at line 2, column 1. *)
Theorem ReadToken_never_Comment :
  (forall inp s s' t e,
      reachable inp s -> ReadToken s = Return (s', t, e) -> Kind t <> Comment)
  /\ (forall fuel s s1 s4 tc ec,
      peeked s = false -> ws s = Return s1 -> end_ s1 < len (input s1) ->
      index (input s1) (end_ s1) = Return x23 ->
      readComment (advance 1 1 (syncStart s1)) = Return (s4, tc, ec) ->
      ReadToken_fuel (S fuel) s
      = ('(s', t, e) <- ReadToken_fuel fuel s4 ;;
         Return (set_lastToken t s', t, e)))
  /\ (exists s', ReadToken (New input_comment)
                 = Return (s', mkToken Int 5 7 (bytes "42") 2 1, None)).
Proof.
  split; [|split].
  - intros inp s s' t e R H. apply reachable_inv in R.
    destruct R as (_ & Q & _). destruct (peeked s) eqn:P.
    + rewrite (ReadToken_peeked _ P) in H. injection H as _ <- _.
      apply (Q P).
    + apply (ReadToken_fresh _ _ _ _ P) in H.
      destruct H as ((_ & _ & _ & _ & K & _) & _). exact K.
  - intros. eapply ReadToken_fuel_comment; eauto.
  - eexists. vm_compute. reflexivity.
Qed.

(** ** The end of the input *)

Lemma ws_at_end (s : Lexer) : end_ s = len (input s) -> ws s = Return s.
Proof.
  intros E. unfold ws.
  destruct (remaining s); simpl; rewrite E, Z.ltb_irrefl; reflexivity.
Qed.

Lemma ReadToken_at_end (s : Lexer) :
  peeked s = false -> end_ s = len (input s) ->
  ReadToken s
  = Return (set_lastToken
              (mkToken EOF (endRunes s) (endRunes s) [] (line s)
                       (endRunes s - lineStartRunes s + 1))
              (syncStart s),
            mkToken EOF (endRunes s) (endRunes s) [] (line s)
                    (endRunes s - lineStartRunes s + 1),
            None).
Proof.
  intros P E. unfold ReadToken. cbn [ReadToken_fuel].
  rewrite P, (ws_at_end _ E). cbn [bind]. cbv zeta.
  replace (len (input (syncStart s)) <=? end_ (syncStart s)) with true
    by (symmetry; apply Z.leb_le; simpl; lia).
  unfold makeToken, slice. simpl.
  pose proof (len_nonneg (input s)) as N.
  replace ((0 <=? end_ s) && (end_ s <=? end_ s) && (end_ s <=? len (input s)))
    with true
    by (symmetry; rewrite !andb_true_iff; repeat split; apply Z.leb_le; lia).
  simpl. rewrite Z.sub_diag. reflexivity.
Qed.

Lemma at_eof_ReadToken (s : Lexer) :
  at_eof s ->
  exists s' t e, ReadToken s = Return (s', t, e) /\ Kind t = EOF /\ at_eof s'.
Proof.
  intros [E Q]. destruct (peeked s) eqn:P.
  - rewrite (ReadToken_peeked _ P). do 3 eexists.
    split; [reflexivity|]. split; [auto|].
    split; [exact E | intros X; discriminate].
  - rewrite (ReadToken_at_end _ P E). do 3 eexists.
    split; [reflexivity|]. split; [reflexivity|].
    split; [exact E | simpl; intros X; congruence].
Qed.

Lemma at_eof_step (s s' : Lexer) : at_eof s -> step s s' -> at_eof s'.
Proof.
  intros A S.
  destruct (at_eof_ReadToken s A) as (s1 & t1 & e1 & H1 & K1 & A1).
  destruct S as [t e H | t H].
  - rewrite H1 in H. injection H as <- _ _. exact A1.
  - destruct (peeked s) eqn:P.
    + apply (PeekToken_cached _ _ _ P) in H. destruct H as [-> _]. exact A.
    + apply (PeekToken_fresh _ _ _ P) in H. destruct H as (s2 & e & H & ->).
      rewrite H1 in H. injection H as <- <- <-.
      destruct A1 as [E1 _]. split; [exact E1 | intros _; exact K1].
Qed.

Lemma at_eof_steps (s s' : Lexer) : at_eof s -> steps s s' -> at_eof s'.
Proof.
  intros A S. induction S as [|s1 s2 S IH X]; [exact A|].
  eapply at_eof_step; eauto.
Qed.

(** C9: once [ReadToken] has returned a token of kind [EOF], every later
    call of [ReadToken], after any number of calls of [ReadToken] and
    [PeekToken] in between, returns a token of kind [EOF]. *)
Theorem EOF_idempotent (inp : list byte) (s s1 s2 : Lexer) (t : Token) (e : error) :
  reachable inp s -> ReadToken s = Return (s1, t, e) -> Kind t = EOF ->
  steps s1 s2 ->
  exists s3 t' e', ReadToken s2 = Return (s3, t', e') /\ Kind t' = EOF.
Proof.
  intros R H K S.
  assert (A : at_eof s1).
  { apply reachable_inv in R. destruct R as (_ & Q & _).
    destruct (peeked s) eqn:P.
    - rewrite (ReadToken_peeked _ P) in H. injection H as <- <- _.
      destruct (Q P) as (_ & _ & X).
      split; [exact (X K) | intros Y; discriminate].
    - apply (ReadToken_fresh _ _ _ _ P) in H.
      destruct H as ((_ & B2 & _ & _ & _ & B6) & _).
      split; [exact (proj1 (B6 K)) | intros Y; congruence]. }
  destruct (at_eof_ReadToken s2 (at_eof_steps _ _ A S)) as (s3 & t' & e' & H' & K' & _).
  eauto.
Qed.

(** ** Counting the runes of a prefix *)

Lemma skipn_decode_shorter (bs : list byte) (r w : Z) (fuel : nat) :
  bs <> [] -> DecodeRuneInString bs = (r, w) -> (length bs <= S fuel)%nat ->
  (length (skipn (Z.to_nat w) bs) <= fuel)%nat.
Proof.
  intros N D L. pose proof (decode_width bs N) as W. rewrite D in W.
  simpl in W. rewrite length_skipn. lia.
Qed.

Lemma runes_fuel_more (f f' : nat) (bs : list byte) :
  (length bs <= f)%nat -> (length bs <= f')%nat ->
  runes_fuel f bs = runes_fuel f' bs.
Proof.
  revert f' bs. induction f as [|f IH]; intros f' bs L L'.
  - destruct bs; [destruct f'; reflexivity | simpl in L; lia].
  - destruct bs as [|b t]; [destruct f'; reflexivity|].
    destruct f' as [|f']; [simpl in L'; lia|].
    cbn [runes_fuel].
    destruct (DecodeRuneInString (b :: t)) as [r w] eqn:D.
    f_equal.
    apply IH; eapply skipn_decode_shorter; eauto; discriminate.
Qed.

Lemma runes_cons (bs : list byte) (r w : Z) :
  bs <> [] -> DecodeRuneInString bs = (r, w) ->
  runes bs = r :: runes (skipn (Z.to_nat w) bs).
Proof.
  intros N D. unfold runes at 1.
  destruct bs as [|b t]; [congruence|].
  cbn [length runes_fuel]. rewrite D. f_equal.
  apply runes_fuel_more; [|lia].
  eapply skipn_decode_shorter; eauto.
Qed.

Lemma valid_fuel_more (f f' : nat) (bs : list byte) :
  (length bs <= f)%nat -> (length bs <= f')%nat ->
  valid_fuel f bs = valid_fuel f' bs.
Proof.
  revert f' bs. induction f as [|f IH]; intros f' bs L L'.
  - destruct bs; [destruct f'; reflexivity | simpl in L; lia].
  - destruct bs as [|b t]; [destruct f'; reflexivity|].
    destruct f' as [|f']; [simpl in L'; lia|].
    cbn [valid_fuel]. cbv zeta.
    destruct (DecodeRuneInString (b :: t)) as [r w] eqn:D.
    f_equal.
    apply IH; eapply skipn_decode_shorter; eauto; discriminate.
Qed.

Lemma valid_cons (bs : list byte) (r w : Z) :
  bs <> [] -> DecodeRuneInString bs = (r, w) -> ValidString bs = true ->
  is_error (r, w) = false /\ ValidString (skipn (Z.to_nat w) bs) = true.
Proof.
  intros N D V. unfold ValidString in V at 1.
  destruct bs as [|b t]; [congruence|].
  cbn [length valid_fuel] in V. cbv zeta in V. rewrite D in V.
  apply andb_true_iff in V. destruct V as [V1 V2].
  split; [apply negb_true_iff; exact V1|].
  unfold ValidString. rewrite <- V2. simpl snd.
  apply valid_fuel_more; [lia|].
  eapply skipn_decode_shorter; eauto.
Qed.

(** A valid encoding decodes to the same rune whatever follows it. *)
Lemma decode_prefix (bs q : list byte) (r w : Z) :
  DecodeRuneInString bs = (r, w) -> is_error (r, w) = false -> bs <> [] ->
  DecodeRuneInString (firstn (Z.to_nat w) bs ++ q) = (r, w).
Proof.
  intros D E N. destruct bs as [|b0 t0]; [congruence|]. clear N.
  unfold DecodeRuneInString in D.
  assert (X : forall x y : Z, (RuneError, 1) = (x, y) -> is_error (x, y) = false -> False).
  { intros x y I F. injection I as <- <-. discriminate F. }
  destruct (bz b0 <? 128) eqn:C0.
  { injection D as <- <-. simpl. apply decode_ascii. apply Z.ltb_lt. exact C0. }
  destruct (lead_info (bz b0)) as [[[sz lo] hi]|] eqn:LI;
    [| destruct (X _ _ D E)].
  destruct t0 as [|b1 t1]; [destruct (X _ _ D E)|].
  destruct (negb (in_range lo hi b1)) eqn:C1; [destruct (X _ _ D E)|].
  destruct (sz <=? 2) eqn:S2.
  { injection D as <- <-. simpl firstn. simpl app.
    unfold DecodeRuneInString. rewrite C0, LI, C1, S2. reflexivity. }
  destruct t1 as [|b2 t2]; [destruct (X _ _ D E)|].
  destruct (negb (in_range 128 191 b2)) eqn:C2; [destruct (X _ _ D E)|].
  destruct (sz <=? 3) eqn:S3.
  { injection D as <- <-. simpl firstn. simpl app.
    unfold DecodeRuneInString. rewrite C0, LI, C1, S2, C2, S3. reflexivity. }
  destruct t2 as [|b3 t3]; [destruct (X _ _ D E)|].
  destruct (negb (in_range 128 191 b3)) eqn:C3; [destruct (X _ _ D E)|].
  injection D as <- <-. simpl firstn. simpl app.
  unfold DecodeRuneInString. rewrite C0, LI, C1, S2, C2, S3, C3. reflexivity.
Qed.

Lemma firstn_add (bs : list byte) (i w : Z) :
  0 <= i -> 0 <= w ->
  firstn (Z.to_nat (i + w)) bs
  = firstn (Z.to_nat i) bs ++ firstn (Z.to_nat w) (skipn (Z.to_nat i) bs).
Proof.
  intros I W. rewrite Z2Nat.inj_add by lia.
  rewrite <- (firstn_skipn (Z.to_nat i) bs) at 1.
  rewrite firstn_app, length_firstn.
  destruct (Nat.le_gt_cases (Z.to_nat i) (length bs)) as [L|G].
  - rewrite Nat.min_l by exact L.
    replace (Z.to_nat i + Z.to_nat w - Z.to_nat i)%nat with (Z.to_nat w) by lia.
    f_equal. apply firstn_all2. rewrite length_firstn. lia.
  - rewrite !skipn_all2 by lia. rewrite !firstn_nil, !app_nil_r.
    apply firstn_all2. rewrite length_firstn. lia.
Qed.

Lemma chunk_nonempty (bs : list byte) (i w : Z) (q : list byte) :
  0 <= i < len bs -> 1 <= w ->
  firstn (Z.to_nat w) (skipn (Z.to_nat i) bs) ++ q <> [].
Proof.
  intros I W F. apply (f_equal (@length byte)) in F.
  rewrite length_app, length_firstn, length_skipn in F. simpl in F.
  unfold len in I. lia.
Qed.

(** In a valid string, the position reached after [n] decoding steps is the
    end of a prefix of exactly [n] runes. *)
Lemma rune_pos_prefix (bs : list byte) (i n : Z) :
  ValidString bs = true -> rune_pos bs i n ->
  ValidString (skipn (Z.to_nat i) bs) = true
  /\ exists rs, Z.of_nat (length rs) = n
                /\ forall q, runes (firstn (Z.to_nat i) bs ++ q) = rs ++ runes q.
Proof.
  intros V P. induction P as [|i n r w P (VS & rs & L & A) B D].
  - split; [exact V|]. exists []. split; [reflexivity|]. intros q. reflexivity.
  - pose proof (rune_pos_bounds _ _ _ P) as (Ri & Rn).
    pose proof (skipn_nonempty bs i ltac:(lia)) as N.
    pose proof (decode_width _ N) as W. rewrite D in W. simpl in W.
    rewrite len_skipn in W by lia.
    destruct (valid_cons _ _ _ N D VS) as [E VS'].
    split.
    + rewrite skipn_skipn in VS'.
      replace (Z.to_nat (i + w)) with (Z.to_nat w + Z.to_nat i)%nat by lia.
      exact VS'.
    + exists (rs ++ [r]). split; [rewrite length_app; simpl; lia|].
      intros q. rewrite firstn_add by lia.
      rewrite <- !app_assoc. rewrite A. f_equal. simpl.
      pose proof (decode_prefix _ q _ _ D E N) as D'.
      rewrite (runes_cons _ _ _ (chunk_nonempty bs i w q ltac:(lia) ltac:(lia)) D').
      f_equal. f_equal.
      rewrite skipn_app.
      rewrite skipn_all2 by (rewrite length_firstn; lia).
      rewrite length_firstn, length_skipn.
      replace (Z.to_nat w - Nat.min (Z.to_nat w) (length bs - Z.to_nat i))%nat
        with 0%nat by (unfold len in *; lia).
      reflexivity.
Qed.

Lemma rune_pos_count (bs : list byte) (i n : Z) :
  ValidString bs = true -> rune_pos bs i n ->
  prefix_runes bs i = Return n.
Proof.
  intros V P. pose proof (rune_pos_bounds _ _ _ P) as (Ri & Rn).
  destruct (rune_pos_prefix _ _ _ V P) as (_ & rs & L & A).
  unfold prefix_runes, slice.
  replace ((0 <=? 0) && (0 <=? i) && (i <=? len bs)) with true
    by (symmetry; rewrite !andb_true_iff; repeat split; apply Z.leb_le; lia).
  cbn [bind]. rewrite Z.sub_0_r. simpl skipn.
  unfold RuneCountInString.
  specialize (A []). rewrite !app_nil_r in A. rewrite A. f_equal. exact L.
Qed.

(** C4: on a valid UTF-8 input, whatever calls of [ReadToken] and
    [PeekToken] came before, when [ReadToken] returns, [startRunes] is at most
    [endRunes], [startRunes] is the number of runes of the input before the
    byte offset [start], and [endRunes] the number of runes before the byte
    offset [end]. *)
Theorem rune_offsets_count_code_points
        (inp : list byte) (s s' : Lexer) (t : Token) (e : error) :
  ValidString inp = true -> reachable inp s ->
  ReadToken s = Return (s', t, e) ->
  startRunes s' <= endRunes s'
  /\ prefix_runes (input s') (start s') = Return (startRunes s')
  /\ prefix_runes (input s') (end_ s') = Return (endRunes s')
  /\ 0 <= start s' <= end_ s' /\ end_ s' <= len (input s').
Proof.
  intros V R H.
  assert (R' : reachable inp s')
    by (eapply reach_step; [exact R|]; eapply step_read; eauto).
  apply reachable_inv in R'. destruct R' as (I & _ & (P1 & P2 & P3 & P4)).
  rewrite I in *.
  pose proof (rune_pos_bounds _ _ _ P1). pose proof (rune_pos_bounds _ _ _ P2).
  split; [exact P4|].
  split; [apply rune_pos_count; assumption|].
  split; [apply rune_pos_count; assumption|]. lia.
Qed.

(** ** The digit after a leading zero *)

Lemma byte_of_Z_bz (b : byte) : byte_of_Z (bz b) = b.
Proof.
  unfold byte_of_Z. pose proof (bz_range b) as R.
  rewrite Z.mod_small by lia. unfold bz. rewrite N2Z.id, Byte.of_to_N.
  reflexivity.
Qed.

Lemma string_of_byte_ascii (b : byte) : bz b < 0x80 -> string_of_byte b = [b].
Proof.
  intros A. pose proof (bz_range b) as R. unfold string_of_byte, EncodeRune.
  replace ((0 <=? bz b) && (bz b <=? 127)) with true
    by (symmetry; apply andb_true_iff; split; apply Z.leb_le; lia).
  rewrite byte_of_Z_bz. reflexivity.
Qed.

Lemma acceptByte_single_hit (a : byte) (s : Lexer) :
  index (input s) (end_ s) = Return a ->
  acceptByte [a] s = Return (advance 1 1 s, true).
Proof.
  intros I. pose proof (index_Return _ _ _ I) as [R _].
  unfold acceptByte.
  replace (len (input s) <=? end_ s) with false
    by (symmetry; apply Z.leb_gt; lia).
  simpl. unfold byte_at_is. rewrite I. simpl.
  replace (Byte.eqb a a) with true by (symmetry; apply byte_eqb_eq; reflexivity).
  reflexivity.
Qed.

Lemma acceptByte_single_miss (a b : byte) (s : Lexer) :
  index (input s) (end_ s) = Return b -> b <> a ->
  acceptByte [a] s = Return (s, false).
Proof.
  intros I N. pose proof (index_Return _ _ _ I) as [R _].
  unfold acceptByte.
  replace (len (input s) <=? end_ s) with false
    by (symmetry; apply Z.leb_gt; lia).
  simpl. unfold byte_at_is. rewrite I. simpl.
  destruct (Byte.eqb b a) eqn:E; [apply byte_eqb_eq in E; contradiction|].
  reflexivity.
Qed.

Lemma remaining_advance (s : Lexer) (fuel : nat) (w : Z) :
  (remaining s <= S fuel)%nat -> 1 <= w ->
  (remaining (advance w 1 s) <= fuel)%nat.
Proof. unfold remaining. simpl. lia. Qed.

Lemma acceptDigits_loop_total (fuel : nat) (c : Z) (s : Lexer) :
  (remaining s <= fuel)%nat -> 0 <= end_ s ->
  exists s' c', acceptDigits_loop fuel c s = Return (s', c')
    /\ (forall b, index (input s) (end_ s) = Return b -> is_digit b = true ->
                  c < c').
Proof.
  revert c s. induction fuel as [|fuel IH]; intros c s F N;
    cbn [acceptDigits_loop]; unfold and_then at 1;
    destruct (end_ s <? len (input s)) eqn:L.
  - apply Z.ltb_lt in L. unfold remaining in F. lia.
  - cbn [bind]. do 2 eexists. split; [reflexivity|].
    intros b I _. apply index_Return in I. apply Z.ltb_ge in L. lia.
  - apply Z.ltb_lt in L.
    destruct (index_in_range (input s) (end_ s) ltac:(lia)) as (b & I).
    rewrite I. cbn [bind]. destruct (is_digit b) eqn:D.
    + destruct (IH (c + 1) (advance 1 1 s)) as (s' & c' & H & G).
      * apply remaining_advance; [exact F | lia].
      * simpl. lia.
      * exists s', c'. split; [exact H|]. intros _ _ _.
        apply acceptDigits_loop_spec in H. destruct H as (k & -> & _). lia.
    + do 2 eexists. split; [reflexivity|]. intros b' I' D'. congruence.
  - cbn [bind]. do 2 eexists. split; [reflexivity|].
    intros b I _. apply index_Return in I. apply Z.ltb_ge in L. lia.
Qed.

Lemma acceptDigits_some (s : Lexer) (d : byte) :
  index (input s) (end_ s) = Return d -> is_digit d = true ->
  exists c, 0 < c /\ acceptDigits s = Return (advance c c s, c).
Proof.
  intros I D. pose proof (index_Return _ _ _ I) as [R _].
  destruct (acceptDigits_loop_total (remaining s) 0 s ltac:(lia) ltac:(lia))
    as (s' & c & H & G).
  exists c. split; [eapply G; eauto|].
  unfold acceptDigits. rewrite H.
  apply acceptDigits_loop_spec in H. destruct H as (k & -> & -> & _).
  reflexivity.
Qed.

Lemma describeNext_at (s : Lexer) (d : byte) :
  index (input s) (end_ s) = Return d -> bz d < 0x80 ->
  describeNext s = Return (dquote ++ [d] ++ dquote).
Proof.
  intros I A. pose proof (index_Return _ _ _ I) as [R _].
  unfold describeNext.
  replace (end_ s <? len (input s)) with true by (symmetry; apply Z.ltb_lt; lia).
  rewrite I. cbn [bind]. rewrite string_of_byte_ascii by exact A. reflexivity.
Qed.

(** The number scanner on a zero followed by a digit, after an optional
    minus sign; [s] is the state at the first byte of the literal. *)
Lemma readNumber_leading_zero (s : Lexer) (minus : bool) (d : byte) :
  let m := if minus then 1 else 0 in
  (minus = true -> index (input s) (end_ s) = Return x2d) ->
  index (input s) (end_ s + m) = Return x30 ->
  index (input s) (end_ s + m + 1) = Return d -> is_digit d = true ->
  readNumber (advance 1 1 s)
  = makeError (msg_digit_after_0 (dquote ++ [d] ++ dquote))
              (advance (m + 1) (m + 1) s).
Proof.
  intros m Hm H0 Hd D. unfold readNumber. cbv zeta.
  rewrite advance_advance. change (1 + -1) with 0. rewrite advance_0.
  assert (Step : forall s2, s2 = advance (m + 1) (m + 1) s ->
    (x <- acceptDigits s2 ;;
     (let (s3, consumed) := x in
      if negb (consumed =? 0)
      then
        d0 <- describeNext (advance (- consumed) (- consumed) s3) ;;
        makeError (msg_digit_after_0 d0) (advance (- consumed) (- consumed) s3)
      else readNumber_fraction s3))
    = makeError (msg_digit_after_0 (dquote ++ [d] ++ dquote)) s2).
  { intros s2 ->.
    assert (I : index (input (advance (m + 1) (m + 1) s))
                      (end_ (advance (m + 1) (m + 1) s)) = Return d)
      by (simpl; rewrite Z.add_assoc; exact Hd).
    destruct (acceptDigits_some _ _ I D) as (c & C & ->). cbn [bind].
    replace (negb (c =? 0)) with true
      by (symmetry; apply negb_true_iff; apply Z.eqb_neq; lia).
    rewrite advance_advance, Z.add_opp_diag_r, advance_0.
    rewrite (describeNext_at _ _ I (is_digit_ascii _ D)). reflexivity. }
  destruct minus; subst m.
  - rewrite (acceptByte_single_hit x2d s (Hm eq_refl)). cbn [bind].
    rewrite (acceptByte_single_hit x30 (advance 1 1 s) H0). cbn [bind].
    rewrite advance_advance. apply Step. reflexivity.
  - rewrite Z.add_0_r in H0.
    rewrite (acceptByte_single_miss x2d x30 s H0 ltac:(discriminate)).
    cbn [bind].
    rewrite (acceptByte_single_hit x30 s H0). cbn [bind].
    change (0 + 1) with 1 in *. apply Step. reflexivity.
Qed.

(** C6: when the next literal is a zero immediately followed by a digit
    [d], possibly after a minus sign, [ReadToken] returns an [Invalid] token
    and the message that names [d]; the cursor it leaves, the end of the
    token and its column are those of [d].  On the input 0123 the message
    names the digit 1 and the column is 2. *)
Theorem leading_zero_error :
  (forall (s s1 : Lexer) (minus : bool) (d : byte),
      let m := if minus then 1 else 0 in
      peeked s = false -> ws s = Return s1 ->
      (minus = true -> index (input s1) (end_ s1) = Return x2d) ->
      index (input s1) (end_ s1 + m) = Return x30 ->
      index (input s1) (end_ s1 + m + 1) = Return d -> is_digit d = true ->
      exists s',
        ReadToken s
        = Return (s',
                  mkToken Invalid (endRunes s1) (endRunes s1 + m + 1) []
                          (line s1)
                          (endRunes s1 + m + 1 - lineStartRunes s1 + 1),
                  Some (bytes "Invalid number, unexpected digit after 0: "
                        ++ dquote ++ [d] ++ dquote ++ bytes "."))
        /\ end_ s' = end_ s1 + m + 1
        /\ index (input s') (end_ s') = Return d)
  /\ (exists s',
        ReadToken (New input_leading_zero)
        = Return (s', mkToken Invalid 0 1 [] 1 2,
                  Some (bytes "Invalid number, unexpected digit after 0: "
                        ++ dquote ++ bytes "1" ++ dquote ++ bytes "."))).
Proof.
  split.
  - intros s s1 minus d m P W Hm H0 Hd D.
    pose proof (index_Return _ _ _ H0) as [R0 _].
    assert (R : 0 <= end_ s1 < len (input s1)).
    { destruct minus; subst m.
      - pose proof (index_Return _ _ _ (Hm eq_refl)) as [R _]. exact R.
      - lia. }
    pose proof (readNumber_leading_zero (syncStart s1) minus d Hm H0 Hd D) as N.
    fold m in N.
    assert (I : exists r, index (input s1) (end_ s1) = Return r
                          /\ (r = x2d \/ r = x30)).
    { destruct minus; subst m.
      - exists x2d. auto.
      - exists x30. rewrite Z.add_0_r in H0. auto. }
    destruct I as (r & I & Cases).
    replace (endRunes s1 + m + 1) with (endRunes s1 + (m + 1)) by lia.
    exists (set_lastToken
              (mkToken Invalid (endRunes s1) (endRunes s1 + (m + 1)) []
                       (line s1)
                       (endRunes s1 + (m + 1) - lineStartRunes s1 + 1))
              (advance (m + 1) (m + 1) (syncStart s1))).
    split; [|split].
    + unfold ReadToken. cbn [ReadToken_fuel]. rewrite P, W.
      cbn [bind]. cbv zeta.
      replace (len (input (syncStart s1)) <=? end_ (syncStart s1)) with false
        by (symmetry; apply Z.leb_gt; simpl; lia).
      change (index (input (syncStart s1)) (start (syncStart s1)))
        with (index (input s1) (end_ s1)).
      rewrite I. cbn [bind].
      destruct Cases; subst r; rewrite N; reflexivity.
    + simpl. lia.
    + simpl. rewrite Z.add_assoc. exact Hd.
  - eexists. vm_compute. reflexivity.
Qed.

(** ** The scenarios, run on the code *)

(** C1: on an open block string whose last byte is a carriage return,
    [ReadToken] does not return an [Invalid] token: the test for a following
    line feed indexes the input at its length, and the call panics. *)
Theorem block_string_final_cr_panics :
  ReadToken (New input_block_cr) = Panic.
Proof. vm_compute. reflexivity. Qed.

(** An open block string that ends otherwise is reported as unterminated. *)
Lemma block_string_unterminated :
  exists s', ReadToken (New (triple_quote ++ bytes "a" ++ [x0d; x0a] ++ bytes "b"))
             = Return (s', mkToken Invalid 3 7 [] 1 8, Some msg_unterminated).
Proof. eexists. vm_compute. reflexivity. Qed.

Lemma input_escapes_result :
  exists s', ReadToken (New input_escapes)
             = Return (s', mkToken String 0 12 value_escapes 1 2, None).
Proof. eexists. vm_compute. reflexivity. Qed.

(** C2, as the code has it: the input has twelve bytes, all of them ASCII,
    and [ReadToken] returns the String token with the decoded value, the
    start 0 and the end 12. *)
Theorem string_escapes_token :
  len input_escapes = 12
  /\ RuneCountInString input_escapes = 12
  /\ exists s', ReadToken (New input_escapes)
                = Return (s', mkToken String 0 12 value_escapes 1 2, None).
Proof.
  split; [reflexivity|]. split; [reflexivity|]. exact input_escapes_result.
Qed.

(** C3: for the vertical tab, U+000B, the message shows the code of the byte
    in decimal, 0011, and not in hexadecimal, 000B. *)
Theorem invalid_character_message_is_decimal :
  (exists s', ReadToken (New input_vertical_tab)
              = Return (s', mkToken Invalid 0 0 [] 1 1,
                        Some (bytes "Cannot contain the invalid character "
                              ++ dquote ++ bytes "\u0011" ++ dquote)))
  /\ msg_invalid_character x0b
     <> bytes "Cannot contain the invalid character "
        ++ dquote ++ bytes "\u000B" ++ dquote.
Proof.
  split; [eexists; vm_compute; reflexivity|]. vm_compute. discriminate.
Qed.

(** C7: after a carriage return and a line feed, the name [b] is on line 2
    but at column 2; and a line feed inside a block string is not counted,
    so that the name after it is reported on line 1 although one line break
    precedes it. *)
Theorem line_and_column_after_line_breaks :
  (exists s', ReadToken_twice (New input_crlf)
              = Return (s', mkToken Name 3 4 (bytes "b") 2 2, None))
  /\ (exists s', ReadToken_twice (New input_block_lf)
                 = Return (s', mkToken Name 10 11 (bytes "c") 1 11, None))
  /\ line_breaks (firstn 10 input_block_lf) = 1.
Proof.
  split; [eexists; vm_compute; reflexivity|].
  split; [eexists; vm_compute; reflexivity|]. reflexivity.
Qed.

(** ** The fuel is enough *)

Lemma terminates_bind {A B : Type} (m : outcome A) (k : A -> outcome B) :
  terminates m -> (forall a, m = Return a -> terminates (k a)) ->
  terminates (bind m k).
Proof.
  unfold terminates. destruct m as [a| |]; simpl; intros M K.
  - apply K. reflexivity.
  - discriminate.
  - contradiction.
Qed.

Lemma terminates_Return {A : Type} (a : A) : terminates (Return a).
Proof. discriminate. Qed.

Lemma terminates_index (bs : list byte) (i : Z) : terminates (index bs i).
Proof.
  unfold terminates, index.
  destruct ((0 <=? i) && (i <? len bs)); [|discriminate].
  destruct (nth_error bs (Z.to_nat i)); discriminate.
Qed.

Lemma terminates_slice (bs : list byte) (lo hi : Z) : terminates (slice bs lo hi).
Proof.
  unfold terminates, slice.
  destruct ((0 <=? lo) && (lo <=? hi) && (hi <=? len bs)); discriminate.
Qed.

Lemma terminates_and_then (c : bool) (m : outcome bool) :
  terminates m -> terminates (and_then c m).
Proof. destruct c; simpl; [auto | discriminate]. Qed.

Lemma terminates_byte_at_is (bs : list byte) (i : Z) (c : byte) :
  terminates (byte_at_is bs i c).
Proof.
  unfold byte_at_is. apply terminates_bind; [apply terminates_index|].
  intros. apply terminates_Return.
Qed.

Lemma terminates_peek (s : Lexer) : terminates (peek s).
Proof.
  unfold peek. apply terminates_bind; [apply terminates_slice|].
  intros. apply terminates_Return.
Qed.

Lemma terminates_makeToken (k : TokenType) (s : Lexer) : terminates (makeToken k s).
Proof.
  unfold makeToken. apply terminates_bind; [apply terminates_slice|].
  intros. apply terminates_Return.
Qed.

Lemma terminates_makeError (m : list byte) (s : Lexer) : terminates (makeError m s).
Proof. apply terminates_Return. Qed.

Ltac less_fuel :=
  unfold remaining in *; simpl;
  repeat match goal with
  | X : (_ <? _) = true |- _ => apply Z.ltb_lt in X
  end; lia.

Lemma ws_loop_terminates (fuel : nat) (s : Lexer) :
  (remaining s <= fuel)%nat -> terminates (ws_loop fuel s).
Proof.
  revert s. induction fuel as [|fuel IH]; intros s F; cbn [ws_loop];
    (destruct (end_ s <? len (input s)) eqn:C; [| apply terminates_Return]).
  - less_fuel.
  - apply terminates_bind; [apply terminates_index|]. intros b _.
    destruct b; try apply terminates_Return; try (apply IH; less_fuel).
    + apply terminates_bind;
        [apply terminates_and_then, terminates_byte_at_is|].
      intros lf _. destruct lf; apply IH; less_fuel.
    + apply terminates_bind.
      * apply terminates_and_then, terminates_bind;
          [apply terminates_byte_at_is|].
        intros. apply terminates_and_then, terminates_byte_at_is.
      * intros bom _. destruct bom; [apply IH; less_fuel | apply terminates_Return].
Qed.

Lemma peek_loop_step (s : Lexer) (fuel : nat) (r w : Z) :
  (remaining s <= S fuel)%nat -> (end_ s <? len (input s)) = true ->
  peek s = Return (r, w) -> (remaining (advance w 1 s) <= fuel)%nat.
Proof.
  intros F C H. apply Z.ltb_lt in C.
  destruct (scan_peek _ _ _ C H) as [_ W].
  apply remaining_advance; assumption.
Qed.

Lemma readComment_loop_terminates (fuel : nat) (s : Lexer) :
  (remaining s <= fuel)%nat -> terminates (readComment_loop fuel s).
Proof.
  revert s. induction fuel as [|fuel IH]; intros s F; cbn [readComment_loop];
    (destruct (end_ s <? len (input s)) eqn:C; [| apply terminates_Return]).
  - less_fuel.
  - apply terminates_bind; [apply terminates_peek|]. intros [r w] H.
    destruct ((31 <? r) || (r =? 9)); [| apply terminates_Return].
    apply IH. eapply peek_loop_step; eauto.
Qed.

Lemma readName_loop_terminates (fuel : nat) (s : Lexer) :
  (remaining s <= fuel)%nat -> terminates (readName_loop fuel s).
Proof.
  revert s. induction fuel as [|fuel IH]; intros s F; cbn [readName_loop];
    (destruct (end_ s <? len (input s)) eqn:C; [| apply terminates_Return]).
  - less_fuel.
  - apply terminates_bind; [apply terminates_peek|]. intros [r w] H.
    destruct (is_name_rune r); [| apply terminates_Return].
    apply IH. eapply peek_loop_step; eauto.
Qed.

Lemma terminates_readComment (s : Lexer) : terminates (readComment s).
Proof.
  unfold readComment. apply terminates_bind.
  - apply readComment_loop_terminates. lia.
  - intros. apply terminates_makeToken.
Qed.

Lemma terminates_readName (s : Lexer) : terminates (readName s).
Proof.
  unfold readName. apply terminates_bind.
  - apply readName_loop_terminates. lia.
  - intros. apply terminates_makeToken.
Qed.

Lemma terminates_acceptByte (accepted : list byte) (s : Lexer) :
  terminates (acceptByte accepted s).
Proof.
  unfold acceptByte. destruct (len (input s) <=? end_ s);
    [apply terminates_Return|].
  induction accepted as [|a rest IH]; simpl; [apply terminates_Return|].
  apply terminates_bind; [apply terminates_byte_at_is|].
  intros hit _. destruct hit; [apply terminates_Return | exact IH].
Qed.

Lemma acceptDigits_loop_terminates (fuel : nat) (c : Z) (s : Lexer) :
  (remaining s <= fuel)%nat -> terminates (acceptDigits_loop fuel c s).
Proof.
  revert c s. induction fuel as [|fuel IH]; intros c s F;
    cbn [acceptDigits_loop]; (apply terminates_bind;
      [ apply terminates_and_then, terminates_bind;
        [apply terminates_index | intros; apply terminates_Return] |]);
    intros more M; (destruct more; [| apply terminates_Return]);
    apply and_then_true in M; destruct M as [C _].
  - less_fuel.
  - apply IH. less_fuel.
Qed.

Lemma terminates_acceptDigits (s : Lexer) : terminates (acceptDigits s).
Proof. apply acceptDigits_loop_terminates. lia. Qed.

Lemma terminates_describeNext (s : Lexer) : terminates (describeNext s).
Proof.
  unfold describeNext. destruct (end_ s <? len (input s));
    [| apply terminates_Return].
  apply terminates_bind; [apply terminates_index|].
  intros. apply terminates_Return.
Qed.

Ltac terminates_step :=
  match goal with
  | |- terminates (bind _ _) => apply terminates_bind; [| intros ? ?]
  | |- terminates (let (_, _) := ?x in _) => destruct x
  | |- terminates (if ?c then _ else _) => destruct c
  | |- terminates (acceptByte _ _) => apply terminates_acceptByte
  | |- terminates (acceptDigits _) => apply terminates_acceptDigits
  | |- terminates (describeNext _) => apply terminates_describeNext
  | |- terminates (makeError _ _) => apply terminates_makeError
  | |- terminates (makeToken _ _) => apply terminates_makeToken
  | |- terminates (index _ _) => apply terminates_index
  | |- terminates (slice _ _ _) => apply terminates_slice
  | |- terminates (peek _) => apply terminates_peek
  | |- terminates (and_then _ _) => apply terminates_and_then
  | |- terminates (byte_at_is _ _ _) => apply terminates_byte_at_is
  | |- terminates (Return _) => apply terminates_Return
  end.

Lemma terminates_readNumber (s : Lexer) : terminates (readNumber s).
Proof.
  unfold readNumber, readNumber_fraction, readNumber_exponent. cbv zeta.
  repeat terminates_step.
Qed.

Lemma ascii_peek_step (s : Lexer) (fuel : nat) (r : byte) (char w : Z) :
  (remaining s <= S fuel)%nat -> (end_ s <? len (input s)) = true ->
  (if 127 <=? bz r then peek s else Return (bz r, 1)) = Return (char, w) ->
  (remaining (advance w 1 s) <= fuel)%nat.
Proof.
  intros F C H. destruct (127 <=? bz r).
  - eapply peek_loop_step; eauto.
  - injection H as <- <-. less_fuel.
Qed.

Lemma readString_loop_terminates (fuel : nat) (buf : option (list byte)) (s : Lexer) :
  (remaining s <= fuel)%nat -> terminates (readString_loop fuel buf s).
Proof.
  revert buf s. induction fuel as [|fuel IH]; intros buf s F;
    cbn [readString_loop];
    (destruct (end_ s <? len (input s)) eqn:C; [| apply terminates_makeError]).
  - less_fuel.
  - apply terminates_bind; [apply terminates_index|]. intros r _.
    destruct (Byte.eqb r x0a || Byte.eqb r x0d); [apply terminates_makeError|].
    destruct ((bz r <? 32) && negb (Byte.eqb r x09));
      [apply terminates_makeError|].
    destruct r;
      try solve [ apply terminates_bind;
                  [ destruct (127 <=? _);
                    [apply terminates_peek | apply terminates_Return]
                  | intros [char w] H; apply IH;
                    eapply ascii_peek_step; eauto ] ].
    + repeat terminates_step.
    + destruct (len (input s) <=? end_ s + 1); [apply terminates_makeError|].
      apply terminates_bind;
        [destruct buf; [apply terminates_Return | apply terminates_slice]|].
      intros b _. apply terminates_bind; [apply terminates_index|].
      intros escape _. destruct (Byte.eqb escape x75).
      * destruct (len (input s) <=? end_ s + 6); [repeat terminates_step|].
        apply terminates_bind; [apply terminates_slice|]. intros digits _.
        destruct (unhex digits); [apply IH; less_fuel | repeat terminates_step].
      * destruct (escape_byte escape);
          [apply IH; less_fuel | apply terminates_makeError].
Qed.

Lemma terminates_readString (s : Lexer) : terminates (readString s).
Proof. apply readString_loop_terminates. lia. Qed.

Lemma readBlockString_loop_terminates (fuel : nat) (buf : list byte) (s : Lexer) :
  (remaining s <= fuel)%nat -> terminates (readBlockString_loop fuel buf s).
Proof.
  revert buf s. induction fuel as [|fuel IH]; intros buf s F;
    cbn [readBlockString_loop];
    (destruct (end_ s <? len (input s)) eqn:C; [| apply terminates_makeError]).
  - less_fuel.
  - apply terminates_bind; [apply terminates_index|]. intros r _.
    apply terminates_bind; [repeat terminates_step|]. intros closing _.
    destruct closing; [repeat terminates_step|].
    destruct ((bz r <? 32) && negb (Byte.eqb r x09) && negb (Byte.eqb r x0a)
              && negb (Byte.eqb r x0d)); [apply terminates_makeError|].
    apply terminates_bind; [repeat terminates_step|]. intros escaped _.
    destruct escaped; [apply IH; less_fuel|].
    destruct (Byte.eqb r x0d).
    + apply terminates_bind; [repeat terminates_step|]. intros lf _.
      apply IH. destruct lf; less_fuel.
    + apply terminates_bind;
        [destruct (127 <=? _); [apply terminates_peek | apply terminates_Return]|].
      intros [char w] H. apply IH. eapply ascii_peek_step; eauto.
Qed.

Lemma terminates_readBlockString (s : Lexer) : terminates (readBlockString s).
Proof. apply readBlockString_loop_terminates. lia. Qed.

Lemma terminates_unexpectedCharacter (r : byte) (s : Lexer) :
  terminates (unexpectedCharacter r s).
Proof. unfold unexpectedCharacter. cbv zeta. repeat terminates_step. Qed.

Lemma terminates_starts_with3 (lit : list byte) (s : Lexer) :
  terminates (starts_with3 lit s).
Proof. unfold starts_with3. repeat terminates_step. Qed.

Lemma ReadToken_fuel_terminates (fuel : nat) (s : Lexer) :
  (remaining s < fuel)%nat -> terminates (ReadToken_fuel fuel s).
Proof.
  revert s. induction fuel as [|fuel IH]; intros s F; [lia|].
  cbn [ReadToken_fuel].
  apply terminates_bind; [| intros [[s' t] e] _; apply terminates_Return].
  destruct (peeked s); [apply terminates_Return|].
  apply terminates_bind; [apply ws_loop_terminates; lia|]. intros s1 W.
  apply ws_scan in W. destruct W as (W1 & W2 & _).
  cbv zeta.
  destruct (len (input (syncStart s1)) <=? end_ (syncStart s1)) eqn:C;
    [apply terminates_makeToken|].
  apply Z.leb_gt in C. simpl in C.
  apply terminates_bind; [apply terminates_index|]. intros r _.
  destruct r;
    first [ apply terminates_makeToken
          | apply terminates_readName
          | apply terminates_readNumber
          | apply terminates_unexpectedCharacter
          | idtac ].
  - apply terminates_bind; [apply terminates_starts_with3|]. intros block _.
    destruct block; [apply terminates_readBlockString | apply terminates_readString].
  - apply terminates_bind; [apply terminates_readComment|].
    intros [[s4 tc] ec] H. apply readComment_scan in H.
    destruct H as (H1 & H2 & _). apply IH.
    apply shell_input in W1, H1. simpl in H1, H2.
    unfold remaining in *. rewrite H1, W1. rewrite W1 in C. lia.
  - apply terminates_bind; [apply terminates_starts_with3|]. intros dots _.
    destruct dots; [apply terminates_makeToken | apply terminates_unexpectedCharacter].
Qed.

(** [ReadToken] and [PeekToken] return or panic: the fuel their loops and
    the recursion after a comment are given is never used up. *)
Theorem ReadToken_terminates (s : Lexer) : terminates (ReadToken s).
Proof. apply ReadToken_fuel_terminates. lia. Qed.

Theorem PeekToken_terminates (s : Lexer) : terminates (PeekToken s).
Proof.
  unfold PeekToken. apply terminates_bind; [| intros; apply terminates_Return].
  destruct (negb (peeked s)); [| apply terminates_Return].
  apply terminates_bind; [apply ReadToken_terminates|].
  intros [[s1 t] e] _. apply terminates_Return.
Qed.

(** The first scenario of the specification: punctuation and a name. *)
Example braces_and_name :
  read_n 4 (New (bytes "{ hello }"))
  = Return [mkToken BraceL 0 1 (bytes "{") 1 1;
            mkToken Name 2 7 (bytes "hello") 1 3;
            mkToken BraceR 8 9 (bytes "}") 1 9;
            mkToken EOF 9 9 [] 1 10].
Proof. vm_compute. reflexivity. Qed.

(** What [ReadToken] does on a control byte other than tab, line feed and
    carriage return: the message carries the code of the byte in decimal. *)
Lemma invalid_character_error (s s1 : Lexer) (b : byte) :
  peeked s = false -> ws s = Return s1 ->
  index (input s1) (end_ s1) = Return b ->
  bz b < 0x20 -> b <> x09 -> b <> x0a -> b <> x0d ->
  exists s',
    ReadToken s
    = Return (s',
              mkToken Invalid (endRunes s1) (endRunes s1 + 1 + -1) []
                      (line s1) (endRunes s1 + 1 + -1 - lineStartRunes s1 + 1),
              Some (msg_invalid_character b))
    /\ end_ s' = end_ s1.
Proof.
  intros P W I C N1 N2 N3. pose proof (index_Return _ _ _ I) as [R _].
  unfold ReadToken. cbn [ReadToken_fuel]. rewrite P, W. cbn [bind]. cbv zeta.
  replace (len (input (syncStart s1)) <=? end_ (syncStart s1)) with false
    by (symmetry; apply Z.leb_gt; simpl; lia).
  change (index (input (syncStart s1)) (start (syncStart s1)))
    with (index (input s1) (end_ s1)).
  rewrite I. cbn [bind].
  destruct b; try (exfalso; vm_compute in C; discriminate C);
    try contradiction;
    (eexists; split; [reflexivity | simpl; lia]).
Qed.

(** ** What the scanners change *)

Lemma moved_refl (s : Lexer) : moved s s.
Proof.
  unfold moved. intuition lia.
Qed.

Lemma moved_trans (s1 s2 s3 : Lexer) : moved s1 s2 -> moved s2 s3 -> moved s1 s3.
Proof.
  unfold moved. intros A B. intuition (try congruence; lia).
Qed.

Lemma moved_advance (a b : Z) (s : Lexer) :
  0 <= a -> 0 <= b -> moved s (advance a b s).
Proof.
  intros A B. unfold moved. simpl. intuition lia.
Qed.

Lemma skipped_refl (s : Lexer) : skipped s s.
Proof.
  unfold skipped. intuition lia.
Qed.

Lemma skipped_trans (s1 s2 s3 : Lexer) :
  skipped s1 s2 -> skipped s2 s3 -> skipped s1 s3.
Proof.
  unfold skipped. intros A B. intuition (try congruence; lia).
Qed.

Lemma skipped_advance (a b : Z) (s : Lexer) :
  0 <= a -> 0 <= b -> skipped s (advance a b s).
Proof.
  intros A B. unfold skipped. simpl. intuition lia.
Qed.

Lemma skipped_newline (s : Lexer) : skipped s (newline s).
Proof.
  unfold skipped. simpl. intuition lia.
Qed.

Lemma ws_loop_skipped (fuel : nat) (s s' : Lexer) :
  ws_loop fuel s = Return s' -> skipped s s'.
Proof.
  revert s s'. induction fuel as [|fuel IH]; intros s s' H; simpl in H;
    (destruct (end_ s <? len (input s)) eqn:C;
     [| injection H as <-; apply skipped_refl]).
  - discriminate.
  - inv_bind H.
    pose proof (skipped_advance 1 1 s ltac:(lia) ltac:(lia)) as A.
    destruct a; try (injection H as <-; apply skipped_refl).
    + apply IH in H. eapply skipped_trans; eauto.
    + apply IH in H. eapply skipped_trans; [exact A|].
      eapply skipped_trans; [apply skipped_newline | exact H].
    + assert (N : skipped s (newline (advance 1 1 s)))
        by (eapply skipped_trans; [exact A | apply skipped_newline]).
      inv_bind H. destruct a; apply IH in H.
      * eapply skipped_trans; [exact N|].
        eapply skipped_trans; [|exact H]. apply skipped_advance; lia.
      * eapply skipped_trans; eauto.
    + apply IH in H. eapply skipped_trans; eauto.
    + apply IH in H. eapply skipped_trans; eauto.
    + inv_bind H. destruct a; [| injection H as <-; apply skipped_refl].
      apply IH in H. eapply skipped_trans; [|exact H].
      apply skipped_advance; lia.
Qed.

Lemma moved_peek (s : Lexer) (r w : Z) :
  (end_ s <? len (input s)) = true -> peek s = Return (r, w) ->
  moved s (advance w 1 s).
Proof.
  intros C H. apply Z.ltb_lt in C. destruct (scan_peek _ _ _ C H) as [_ W].
  apply moved_advance; lia.
Qed.

Lemma moved_ascii_peek (s : Lexer) (r : byte) (char w : Z) :
  (end_ s <? len (input s)) = true ->
  (if 127 <=? bz r then peek s else Return (bz r, 1)) = Return (char, w) ->
  moved s (advance w 1 s).
Proof.
  intros C H. destruct (127 <=? bz r).
  - eapply moved_peek; eauto.
  - injection H as <- <-. apply moved_advance; lia.
Qed.

Lemma readComment_loop_moved (fuel : nat) (s s' : Lexer) :
  readComment_loop fuel s = Return s' -> moved s s'.
Proof.
  revert s s'. induction fuel as [|fuel IH]; intros s s' H; simpl in H;
    (destruct (end_ s <? len (input s)) eqn:C;
     [| injection H as <-; apply moved_refl]).
  - discriminate.
  - inv_bind H. destruct a as [r w].
    destruct ((31 <? r) || (r =? 9)); [| injection H as <-; apply moved_refl].
    apply IH in H. eapply moved_trans; [|exact H]. eapply moved_peek; eauto.
Qed.

Lemma readName_loop_moved (fuel : nat) (s s' : Lexer) :
  readName_loop fuel s = Return s' -> moved s s'.
Proof.
  revert s s'. induction fuel as [|fuel IH]; intros s s' H; simpl in H;
    (destruct (end_ s <? len (input s)) eqn:C;
     [| injection H as <-; apply moved_refl]).
  - discriminate.
  - inv_bind H. destruct a as [r w].
    destruct (is_name_rune r); [| injection H as <-; apply moved_refl].
    apply IH in H. eapply moved_trans; [|exact H]. eapply moved_peek; eauto.
Qed.

Lemma acceptByte_moved (accepted : list byte) (s s' : Lexer) (hit : bool) :
  acceptByte accepted s = Return (s', hit) -> moved s s'.
Proof.
  intros H. apply acceptByte_spec in H. destruct hit.
  - destruct H as (-> & _). apply moved_advance; lia.
  - subst s'. apply moved_refl.
Qed.

Lemma acceptDigits_moved (s s' : Lexer) (c : Z) :
  acceptDigits s = Return (s', c) -> moved s s'.
Proof.
  intros H. apply acceptDigits_spec in H. destruct H as (k & -> & -> & _).
  apply moved_advance; lia.
Qed.

(** ** How tokens are made *)

Lemma makeToken_shaped (k : TokenType) (s s' : Lexer) (t : Token) (e : error) :
  k <> Invalid -> k <> String -> k <> BlockString ->
  makeToken k s = Return (s', t, e) -> s' = s /\ Kind t = k /\ shaped s t e.
Proof.
  intros N1 N2 N3 H. unfold makeToken in H. inv_bind H.
  injection H as <- <- <-. split; [reflexivity|]. split; [reflexivity|].
  unfold shaped. simpl. split; [reflexivity|]. split; [reflexivity|].
  destruct k; try contradiction; auto.
Qed.

Lemma makeError_shaped (m : list byte) (s s' : Lexer) (t : Token) (e : error) :
  makeError m s = Return (s', t, e) -> s' = s /\ Kind t = Invalid /\ shaped s t e.
Proof.
  unfold makeError. intros H. injection H as <- <- <-.
  split; [reflexivity|]. split; [reflexivity|].
  unfold shaped. simpl. repeat split. discriminate.
Qed.

Ltac shaped_token H :=
  apply makeToken_shaped in H; [| discriminate | discriminate | discriminate];
  let K := fresh "K" in
  let Sh := fresh "Sh" in
  destruct H as (-> & K & Sh).

Ltac shaped_error H :=
  apply makeError_shaped in H;
  let K := fresh "K" in
  let Sh := fresh "Sh" in
  destruct H as (-> & K & Sh).

Lemma readNumber_exponent_moved (float : bool) (s s' : Lexer) (t : Token) (e : error) :
  readNumber_exponent float s = Return (s', t, e) ->
  moved s s' /\ shaped s' t e
  /\ (Kind t = Int \/ Kind t = Float \/ Kind t = Invalid).
Proof.
  unfold readNumber_exponent. intros H.
  inv_bind H. destruct a as [s1 hit]. apply acceptByte_moved in E.
  destruct hit.
  - inv_bind H. destruct a as [s2 sign]. apply acceptByte_moved in E0.
    inv_bind H. destruct a as [s3 consumed]. apply acceptDigits_moved in E1.
    assert (M : moved s s3)
      by (eapply moved_trans; [exact E | eapply moved_trans; eauto]).
    destruct (consumed =? 0).
    + inv_bind H. shaped_error H. auto.
    + shaped_token H. auto.
  - destruct float; shaped_token H; auto.
Qed.

Lemma readNumber_fraction_moved (s s' : Lexer) (t : Token) (e : error) :
  readNumber_fraction s = Return (s', t, e) ->
  moved s s' /\ shaped s' t e
  /\ (Kind t = Int \/ Kind t = Float \/ Kind t = Invalid).
Proof.
  unfold readNumber_fraction. intros H.
  inv_bind H. destruct a as [s1 hit]. apply acceptByte_moved in E.
  destruct hit.
  - inv_bind H. destruct a as [s2 consumed]. apply acceptDigits_moved in E0.
    assert (M : moved s s2) by (eapply moved_trans; eauto).
    destruct (consumed =? 0).
    + inv_bind H. shaped_error H. auto.
    + apply readNumber_exponent_moved in H. destruct H as (M' & Sh & K).
      split; [eapply moved_trans; eauto | auto].
  - apply readNumber_exponent_moved in H. destruct H as (M' & Sh & K).
    split; [eapply moved_trans; eauto | auto].
Qed.

Lemma readNumber_moved (s s' : Lexer) (t : Token) (e : error) :
  readNumber s = Return (s', t, e) ->
  moved (advance (-1) (-1) s) s' /\ shaped s' t e
  /\ (Kind t = Int \/ Kind t = Float \/ Kind t = Invalid).
Proof.
  unfold readNumber. intros H.
  inv_bind H. destruct a as [s1 minus]. apply acceptByte_moved in E.
  inv_bind H. destruct a as [s2 zero]. apply acceptByte_moved in E0.
  assert (M12 : moved (advance (-1) (-1) s) s2) by (eapply moved_trans; eauto).
  inv_bind H. destruct a as [s3 consumed].
  pose proof (acceptDigits_moved _ _ _ E1) as M3.
  assert (M : moved (advance (-1) (-1) s) s3) by (eapply moved_trans; eauto).
  destruct zero.
  - destruct (negb (consumed =? 0)).
    + inv_bind H. shaped_error H.
      apply acceptDigits_spec in E1. destruct E1 as (k & _ & -> & _).
      rewrite advance_advance, Z.add_opp_diag_r, advance_0 in *. auto.
    + apply readNumber_fraction_moved in H. destruct H as (M' & Sh & K).
      split; [eapply moved_trans; eauto | auto].
  - destruct (consumed =? 0).
    + inv_bind H. shaped_error H. auto.
    + apply readNumber_fraction_moved in H. destruct H as (M' & Sh & K).
      split; [eapply moved_trans; eauto | auto].
Qed.

Lemma readName_moved (s s' : Lexer) (t : Token) (e : error) :
  readName s = Return (s', t, e) ->
  moved s s' /\ shaped s' t e /\ Kind t = Name.
Proof.
  unfold readName. intros H. inv_bind H. apply readName_loop_moved in E.
  shaped_token H. auto.
Qed.

Lemma readComment_moved (s s' : Lexer) (t : Token) (e : error) :
  readComment s = Return (s', t, e) -> moved s s'.
Proof.
  unfold readComment. intros H. inv_bind H. apply readComment_loop_moved in E.
  shaped_token H. exact E.
Qed.

Lemma readString_loop_moved (fuel : nat) (buf : option (list byte))
      (s s' : Lexer) (t : Token) (e : error) :
  readString_loop fuel buf s = Return (s', t, e) ->
  moved s s' /\ shaped s' t e /\ (Kind t = String \/ Kind t = Invalid).
Proof.
  revert buf s s' t e.
  induction fuel as [|fuel IH]; intros buf s s' t e H;
    cbn [readString_loop] in H;
    (destruct (end_ s <? len (input s)) eqn:C;
     [| shaped_error H; split; [apply moved_refl | auto]]).
  - discriminate.
  - inv_bind H. rename a into r.
    destruct (Byte.eqb r x0a || Byte.eqb r x0d);
      [shaped_error H; split; [apply moved_refl | auto]|].
    destruct ((bz r <? 32) && negb (Byte.eqb r x09));
      [shaped_error H; split; [apply moved_refl | auto]|].
    pose proof (moved_advance 1 1 s ltac:(lia) ltac:(lia)) as A.
    destruct r;
      try solve [ inv_bind H; destruct a as [char w];
                  apply IH in H; destruct H as (M & Sh & K);
                  split; [| auto];
                  eapply moved_trans; [|exact M];
                  eapply moved_ascii_peek; eauto ].
    + inv_bind H. destruct a as [[s0 t0] e0].
      unfold makeToken in E0. inv_bind E0. injection E0 as <- <- <-.
      injection H as <- <- <-. split; [exact A|]. split; [|auto].
      unfold shaped. simpl. repeat split; lia.
    + destruct (len (input s) <=? end_ s + 1);
        [shaped_error H; auto|].
      inv_bind H. rename a into b. inv_bind H. rename a into escape.
      destruct (Byte.eqb escape x75).
      * destruct (len (input s) <=? end_ s + 6).
        { inv_bind H. shaped_error H. auto. }
        inv_bind H. destruct (unhex a) as [u|].
        -- apply IH in H. destruct H as (M & Sh & K). split; [|auto].
           eapply moved_trans; [|exact M]. apply moved_advance; lia.
        -- inv_bind H. shaped_error H. auto.
      * destruct (escape_byte escape) as [c|].
        -- apply IH in H. destruct H as (M & Sh & K). split; [|auto].
           eapply moved_trans; [|exact M]. apply moved_advance; lia.
        -- shaped_error H. auto.
Qed.

Lemma readBlockString_loop_moved (fuel : nat) (buf : list byte)
      (s s' : Lexer) (t : Token) (e : error) :
  readBlockString_loop fuel buf s = Return (s', t, e) ->
  moved s s' /\ shaped s' t e /\ (Kind t = BlockString \/ Kind t = Invalid).
Proof.
  revert buf s s' t e.
  induction fuel as [|fuel IH]; intros buf s s' t e H;
    cbn [readBlockString_loop] in H;
    (destruct (end_ s <? len (input s)) eqn:C;
     [| shaped_error H; split; [apply moved_refl | auto]]).
  - discriminate.
  - inv_bind H. rename a into r. inv_bind H. destruct a.
    + inv_bind H. destruct a as [[s0 t0] e0].
      unfold makeToken in E1. inv_bind E1. injection E1 as <- <- <-.
      injection H as <- <- <-.
      split; [apply moved_advance; lia|]. split; [|auto].
      unfold shaped. simpl. repeat split; lia.
    + destruct ((bz r <? 32) && negb (Byte.eqb r x09) && negb (Byte.eqb r x0a)
                && negb (Byte.eqb r x0d));
        [shaped_error H; split; [apply moved_refl | auto]|].
      inv_bind H. destruct a.
      * apply IH in H. destruct H as (M & Sh & K). split; [|auto].
        eapply moved_trans; [|exact M]. apply moved_advance; lia.
      * destruct (Byte.eqb r x0d).
        -- inv_bind H. apply IH in H. destruct H as (M & Sh & K).
           split; [|auto]. eapply moved_trans; [|exact M].
           destruct a; [rewrite advance_advance|]; apply moved_advance; lia.
        -- inv_bind H. destruct a as [char w].
           apply IH in H. destruct H as (M & Sh & K). split; [|auto].
           eapply moved_trans; [|exact M]. eapply moved_ascii_peek; eauto.
Qed.

(** ** The dispatch, by classes *)

Lemma classify_punct (r : byte) (k : TokenType) :
  classify r = CPunct k -> In k punctuators.
Proof.
  destruct r; simpl; intros H; try discriminate H; injection H as <-; tauto.
Qed.

Lemma punct_kind (k : TokenType) :
  In k punctuators ->
  k <> Invalid /\ k <> String /\ k <> BlockString /\ k <> EOF /\ k <> Comment.
Proof.
  unfold punctuators. simpl. intros H.
  repeat (destruct H as [<- | H]; [repeat split; discriminate|]).
  contradiction.
Qed.

(** From a state that moved on from the start of the token by [d] runes of
    opening quotes, a shaped token starts where the token starts. *)
Lemma scanned_from_intro (d : Z) (s2 x s0 : Lexer) (t : Token) (e : error) :
  startRunes s2 = endRunes s2 ->
  shell x = shell s2 -> line x = line s2 ->
  lineStartRunes x = lineStartRunes s2 ->
  end_ s2 <= end_ x -> startRunes x = startRunes s2 + d ->
  startRunes x <= endRunes x ->
  moved x s0 -> shaped s0 t e ->
  (d = 0 /\ Kind t <> String /\ Kind t <> BlockString
   \/ d = 1 /\ (Kind t = String \/ Kind t = Invalid)
   \/ d = 3 /\ (Kind t = BlockString \/ Kind t = Invalid)) ->
  scanned_from s2 s0 t e.
Proof.
  intros Sy X0 X1 X2 X3 X4 X5 (M0 & M1 & M2 & M3 & M4 & M5 & M6) Sh D.
  pose proof Sh as (S1 & S2 & S3).
  unfold scanned_from.
  split; [congruence|]. split; [congruence|]. split; [congruence|].
  split; [lia|]. split; [exact Sh|].
  assert (B : startRunes s2 <= Start t /\ Start t <= End_ t).
  { destruct (Kind t) eqn:K; intuition (try discriminate; try congruence; lia). }
  intuition lia.
Qed.

Lemma unexpectedCharacter_shaped (r : byte) (s s' : Lexer) (t : Token) (e : error) :
  unexpectedCharacter r s = Return (s', t, e) ->
  s' = advance (-1) (-1) s /\ Kind t = Invalid /\ shaped s' t e.
Proof.
  unfold unexpectedCharacter. intros H.
  repeat match type of H with
  | (if ?c then _ else _) = _ => destruct c
  end; apply makeError_shaped in H; destruct H as (-> & K & Sh); auto.
Qed.

Lemma scan_class_spec (r : byte) (s2 s0 : Lexer) (t : Token) (e : error) :
  start s2 = end_ s2 -> startRunes s2 = endRunes s2 ->
  scan_class (classify r) r (advance 1 1 s2) = Return (s0, t, e) ->
  scanned_from s2 s0 t e /\ class_kind (classify r) (Kind t).
Proof.
  intros Sb Sr H.
  assert (G : forall d x,
             shell x = shell s2 -> line x = line s2 ->
             lineStartRunes x = lineStartRunes s2 ->
             end_ s2 <= end_ x -> startRunes x = startRunes s2 + d ->
             startRunes x <= endRunes x ->
             moved x s0 -> shaped s0 t e ->
             (d = 0 /\ Kind t <> String /\ Kind t <> BlockString
              \/ d = 1 /\ (Kind t = String \/ Kind t = Invalid)
              \/ d = 3 /\ (Kind t = BlockString \/ Kind t = Invalid)) ->
             scanned_from s2 s0 t e)
    by (intros; eapply scanned_from_intro; eauto).
  destruct (classify r) as [k| | | | | |] eqn:C; simpl in H.
  - pose proof (punct_kind _ (classify_punct _ _ C)) as (N1 & N2 & N3 & N4 & N5).
    apply makeToken_shaped in H; auto. destruct H as (-> & K & Sh).
    split; [| simpl; exact K].
    apply (G 0 (advance 1 1 s2)); simpl; auto; try lia.
    + apply moved_refl.
    + left. rewrite K. auto.
  - apply readName_moved in H. destruct H as (M & Sh & K). split; [| simpl; exact K].
    apply (G 0 (advance 1 1 s2)); simpl; auto; try lia.
    left. rewrite K. repeat split; discriminate.
  - apply readNumber_moved in H. destruct H as (M & Sh & K). split; [| simpl; exact K].
    rewrite advance_advance in M. change (1 + -1) with 0 in M.
    rewrite advance_0 in M.
    apply (G 0 s2); auto; try lia.
    left. destruct K as [K|[K|K]]; rewrite K; repeat split; discriminate.
  - inv_bind H. destruct a.
    + apply readBlockString_loop_moved in H. destruct H as (M & Sh & K).
      split; [| simpl; tauto].
      apply (G 3 (advance 2 2 (advanceStart 3 3 (advance 1 1 s2))));
        simpl; auto; lia.
    + apply readString_loop_moved in H. destruct H as (M & Sh & K).
      split; [| simpl; tauto].
      apply (G 1 (advanceStart 1 1 (advance 1 1 s2))); simpl; auto; lia.
  - inv_bind H. destruct a.
    + apply makeToken_shaped in H; try discriminate.
      destruct H as (-> & K & Sh). split; [| simpl; tauto].
      apply (G 0 (advance 2 2 (advance 1 1 s2))); simpl; auto; try lia.
      * apply moved_refl.
      * left. rewrite K. repeat split; discriminate.
    + apply unexpectedCharacter_shaped in H. destruct H as (-> & K & Sh).
      split; [| simpl; tauto].
      rewrite advance_advance in *. change (1 + -1) with 0 in *.
      rewrite advance_0 in *.
      apply (G 0 s2); auto; try lia; [apply moved_refl|].
      left. rewrite K. repeat split; discriminate.
  - discriminate.
  - apply unexpectedCharacter_shaped in H. destruct H as (-> & K & Sh).
    split; [| simpl; exact K].
    rewrite advance_advance in *. change (1 + -1) with 0 in *.
    rewrite advance_0 in *.
    apply (G 0 s2); auto; try lia; [apply moved_refl|].
    left. rewrite K. repeat split; discriminate.
Qed.

Lemma ReadToken_fuel_cases (fuel : nat) (s s' : Lexer) (t : Token) (e : error) :
  peeked s = false -> ReadToken_fuel fuel s = Return (s', t, e) ->
  exists s2 s0,
    token_start s s2 /\ s' = set_lastToken t s0
    /\ (len (input s2) <= end_ s2 /\ makeToken EOF s2 = Return (s0, t, e)
        \/ exists r, index (input s2) (end_ s2) = Return r
                     /\ scan_class (classify r) r (advance 1 1 s2)
                        = Return (s0, t, e)).
Proof.
  revert s s' t e. induction fuel as [|fuel IH]; intros s s' t e P H;
    cbn [ReadToken_fuel] in H; [discriminate|].
  rewrite P in H. inv_bind H. destruct a as [[s0 t0] e0].
  injection H as <- <- <-.
  inv_bind E. rename a into s1. cbv zeta in E.
  destruct (len (input (syncStart s1)) <=? end_ (syncStart s1)) eqn:C.
  - apply Z.leb_le in C. exists (syncStart s1), s0.
    split; [apply token_start_ws; exact E0|]. split; [reflexivity|].
    left. split; [exact C | exact E].
  - apply Z.leb_gt in C. inv_bind E. rename a into r.
    change (index (input (syncStart s1)) (start (syncStart s1)))
      with (index (input s1) (end_ s1)) in E1.
    destruct (classify r) eqn:Cl;
      try solve [ exists (syncStart s1), s0;
                  split; [apply token_start_ws; exact E0|];
                  split; [reflexivity|]; right; exists r;
                  split; [exact E1|];
                  destruct r; try discriminate Cl; exact E ].
    assert (r = x23) by (destruct r; try discriminate Cl; reflexivity).
    subst r. inv_bind E. destruct a as [[s4 tc] ec].
    assert (P4 : peeked s4 = false).
    { apply readComment_moved in E2. destruct E2 as (Sh & _).
      apply shell_peeked in Sh. simpl in Sh.
      apply ws_scan in E0. destruct E0 as (Sh0 & _).
      apply shell_peeked in Sh0. congruence. }
    destruct (IH _ _ _ _ P4 E) as (s2 & s0' & TS & -> & D).
    exists s2, s0'. split; [|split; [reflexivity | exact D]].
    eapply token_start_comment; eauto.
Qed.

Lemma token_start_props (s s2 : Lexer) :
  token_start s s2 ->
  shell s2 = shell s
  /\ end_ s <= end_ s2 /\ endRunes s <= endRunes s2
  /\ start s2 = end_ s2 /\ startRunes s2 = endRunes s2
  /\ line s <= line s2
  /\ (lineStartRunes s <= endRunes s -> lineStartRunes s2 <= endRunes s2).
Proof.
  induction 1 as [s s1 W | s s1 s4 s2 tc ec W L I C T IH].
  - apply ws_loop_skipped in W.
    destruct W as (A0 & A1 & A2 & A3 & A4 & A5 & A6).
    simpl. intuition lia.
  - apply ws_loop_skipped in W.
    destruct W as (A0 & A1 & A2 & A3 & A4 & A5 & A6).
    apply readComment_moved in C.
    destruct C as (B0 & B1 & B2 & B3 & B4 & B5 & B6). simpl in *.
    destruct IH as (C0 & C1 & C2 & C3 & C4 & C5 & C6).
    split; [unfold shell in *; simpl in *; congruence|]. intuition lia.
Qed.

(** What a call of [ReadToken] with an empty cache guarantees. *)
Lemma ReadToken_fresh_shape (s s' : Lexer) (t : Token) (e : error) :
  peeked s = false -> ReadToken s = Return (s', t, e) ->
  shaped s' t e
  /\ endRunes s <= Start t /\ Start t <= End_ t
  /\ line s <= line s'
  /\ (lineStartRunes s <= endRunes s -> lineStartRunes s' <= startRunes s')
  /\ startRunes s' <= endRunes s'.
Proof.
  intros P H. apply (ReadToken_fuel_cases _ _ _ _ _ P) in H.
  destruct H as (s2 & s0 & TS & -> & D).
  apply token_start_props in TS.
  destruct TS as (T0 & T1 & T2 & T3 & T4 & T5 & T6).
  destruct D as [(C & H) | (r & I & H)].
  - apply makeToken_shaped in H; try discriminate.
    destruct H as (-> & K & Sh). pose proof Sh as (S1 & S2 & S3).
    rewrite K in S3. destruct S3 as (_ & S3 & _).
    split; [exact Sh|]. simpl. intuition lia.
  - apply (scan_class_spec _ _ _ _ _ T3 T4) in H.
    destruct H as ((F0 & F1 & F2 & F3 & F4 & F5 & F6 & F7 & F8) & _).
    split; [exact F4|]. simpl. intuition lia.
Qed.

Lemma step_cache_inv (s s' : Lexer) :
  step s s' -> pos_inv s -> cache_inv s -> cache_inv s'.
Proof.
  intros St (_ & _ & _ & PI) (L & LS & Q).
  destruct St as [t e H | t H]; destruct (peeked s) eqn:P.
  - rewrite (ReadToken_peeked _ P) in H. injection H as <- _ _.
    unfold cache_inv. simpl. split; [exact L|]. split; [exact LS|].
    intros X. discriminate.
  - pose proof (ReadToken_fresh _ _ _ _ P H) as ((_ & B2 & _) & _).
    apply (ReadToken_fresh_shape _ _ _ _ P) in H.
    destruct H as (Sh & A1 & A2 & A3 & A4 & A5).
    unfold cache_inv. split; [lia|]. split; [specialize (A4 LS); lia|].
    intros X. congruence.
  - apply (PeekToken_cached _ _ _ P) in H. destruct H as [-> _].
    unfold cache_inv. auto.
  - apply (PeekToken_fresh _ _ _ P) in H. destruct H as (s1 & e & H & ->).
    apply (ReadToken_fresh_shape _ _ _ _ P) in H.
    destruct H as (Sh & A1 & A2 & A3 & A4 & A5).
    unfold cache_inv. simpl. split; [lia|]. split; [specialize (A4 LS); lia|].
    intros _. split; [exact Sh | auto].
Qed.

Lemma reachable_cache_inv (inp : list byte) (s : Lexer) :
  reachable inp s -> cache_inv s.
Proof.
  induction 1 as [|s s' R IH S].
  - unfold cache_inv. simpl. split; [lia|]. split; [lia|].
    intros X. discriminate.
  - apply reachable_inv in R. destruct R as (_ & _ & PI).
    eapply step_cache_inv; eauto.
Qed.

Lemma ReadToken_token_shape
        (inp : list byte) (s s' : Lexer) (t : Token) (e : error) :
  reachable inp s -> ReadToken s = Return (s', t, e) ->
  shaped s' t e /\ Start t <= End_ t /\ 1 <= Line t /\ 1 <= Column t.
Proof.
  intros R H.
  assert (R' : reachable inp s')
    by (eapply reach_step; [exact R|]; eapply step_read; eauto).
  pose proof (reachable_cache_inv _ _ R) as (L & LS & Q).
  pose proof (reachable_cache_inv _ _ R') as (L' & LS' & _).
  apply reachable_inv in R'. destruct R' as (_ & _ & (_ & _ & _ & PI)).
  assert (X : shaped s' t e /\ lineStartRunes s' <= startRunes s').
  { destruct (peeked s) eqn:P.
    - rewrite (ReadToken_peeked _ P) in H. injection H as <- <- <-.
      exact (Q eq_refl).
    - apply (ReadToken_fresh_shape _ _ _ _ P) in H.
      destruct H as (Sh & A1 & A2 & A3 & A4 & A5). auto. }
  destruct X as (Sh & LS2). split; [exact Sh|].
  destruct Sh as (S1 & S2 & S3).
  destruct (Kind t); intuition lia.
Qed.

(** A name, a number or a punctuator (any token that is neither [Invalid]
    nor a string) carries its source text: its value is the input between
    the byte offsets [start] and [end] of the state that [ReadToken] leaves,
    and its [Start] and [End] are the rune offsets of that state. *)
Theorem simple_token_is_source_slice
        (inp : list byte) (s s' : Lexer) (t : Token) (e : error) :
  reachable inp s -> ReadToken s = Return (s', t, e) ->
  Kind t <> Invalid -> Kind t <> String -> Kind t <> BlockString ->
  slice (input s') (start s') (end_ s') = Return (Value t)
  /\ Start t = startRunes s' /\ End_ t = endRunes s'.
Proof.
  intros R H N1 N2 N3.
  destruct (ReadToken_token_shape _ _ _ _ _ R H) as ((S1 & _ & S) & _).
  destruct (Kind t); try contradiction; intuition.
Qed.

(** No token starts after it ends, its line is the line the lexer is at,
    and lines and columns are counted from 1. *)
Theorem token_position_bounds
        (inp : list byte) (s s' : Lexer) (t : Token) (e : error) :
  reachable inp s -> ReadToken s = Return (s', t, e) ->
  Start t <= End_ t /\ Line t = line s' /\ 1 <= Line t /\ 1 <= Column t.
Proof.
  intros R H.
  destruct (ReadToken_token_shape _ _ _ _ _ R H) as ((_ & S2 & _) & A & B & C).
  auto.
Qed.

(** [ReadToken] returns an error exactly with a token of kind [Invalid],
    and such a token has no value. *)
Theorem error_iff_Invalid
        (inp : list byte) (s s' : Lexer) (t : Token) (e : error) :
  reachable inp s -> ReadToken s = Return (s', t, e) ->
  (e <> None <-> Kind t = Invalid) /\ (Kind t = Invalid -> Value t = []).
Proof.
  intros R H. destruct (ReadToken_token_shape _ _ _ _ _ R H) as ((_ & _ & S) & _).
  destruct (Kind t); split; try (intros X; discriminate X);
    try (split; [intros X | intros X; try discriminate X]);
    intuition congruence.
Qed.

(** The tokens of successive calls of [ReadToken] are in the order of the
    input: each starts at or after the end of the one before. *)
Lemma read_n_ordered (n : nat) (s : Lexer) (ts : list Token) :
  peeked s = false -> read_n n s = Return ts -> ordered (endRunes s) ts.
Proof.
  revert s ts. induction n as [|n IH]; intros s ts P H; simpl in H.
  - injection H as <-. exact I.
  - inv_bind H. destruct a as [[s' t] e]. inv_bind H. injection H as <-.
    pose proof (ReadToken_fresh _ _ _ _ P E) as ((_ & B2 & _) & _).
    apply (ReadToken_fresh_shape _ _ _ _ P) in E.
    destruct E as ((S1 & _) & A1 & A2 & _).
    simpl. split; [exact A1|]. split; [exact A2|].
    rewrite S1. apply IH; [congruence | exact E0].
Qed.

(** The tokens of any number of calls of [ReadToken] on a new lexer are in
    the order of the input: every token starts at or after the rune offset
    at which the one before it ends. *)
Theorem tokens_in_input_order (inp : list byte) (n : nat) (ts : list Token) :
  read_n n (New inp) = Return ts -> ordered 0 ts.
Proof. intros H. exact (read_n_ordered n (New inp) ts eq_refl H). Qed.

(** ** Whitespace *)

Lemma bom_test_false (s : Lexer) :
  and_then (end_ s + 2 <? len (input s))
    (b1 <- byte_at_is (input s) (end_ s + 1) xbb ;;
     and_then b1 (byte_at_is (input s) (end_ s + 2) xbf)) = Return false ->
  ~ bom_at s.
Proof.
  intros H (_ & I1 & I2). unfold and_then at 1 in H.
  destruct (end_ s + 2 <? len (input s)) eqn:C.
  - unfold byte_at_is in H. rewrite I1 in H. cbn [bind] in H.
    replace (Byte.eqb xbb xbb) with true in H by reflexivity.
    cbn [and_then] in H. rewrite I2 in H. discriminate H.
  - apply Z.ltb_ge in C. apply index_Return in I2. lia.
Qed.

Lemma ws_loop_stops (fuel : nat) (s s' : Lexer) :
  ws_loop fuel s = Return s' -> significant_at s'.
Proof.
  revert s s'. induction fuel as [|fuel IH]; intros s s' H; simpl in H;
    (destruct (end_ s <? len (input s)) eqn:C;
     [| injection H as <-; left; apply Z.ltb_ge; exact C]).
  - discriminate.
  - inv_bind H.
    destruct a eqn:B; try solve [apply IH in H; exact H];
      try solve [injection H as <-; right; split;
                 [exists a; subst a; split; [exact E | reflexivity]
                 | intros (I0 & _); congruence]].
    + inv_bind H. destruct a0; apply IH in H; exact H.
    + inv_bind H. destruct a0; [apply IH in H; exact H|].
      injection H as <-. right. split.
      * exists xef. split; [exact E | reflexivity].
      * apply bom_test_false. exact E0.
Qed.

(** [ws] stops at the end of the input or at a byte that is none of tab,
    space, comma, line feed and carriage return and that does not begin a
    byte order mark. *)
Theorem ws_stops_at_significant_byte (s s' : Lexer) :
  ws s = Return s' -> significant_at s'.
Proof. apply ws_loop_stops. Qed.

Lemma ws_loop_at_significant (fuel : nat) (s : Lexer) :
  (remaining s <= fuel)%nat -> significant_at s -> ws_loop fuel s = Return s.
Proof.
  intros F [E | ((b & I & B) & N)].
  - destruct fuel; simpl;
      replace (end_ s <? len (input s)) with false
        by (symmetry; apply Z.ltb_ge; exact E); reflexivity.
  - pose proof (index_Return _ _ _ I) as [R _].
    destruct fuel as [|fuel]; [unfold remaining in F; lia|].
    cbn [ws_loop].
    replace (end_ s <? len (input s)) with true
      by (symmetry; apply Z.ltb_lt; lia).
    rewrite I. cbn [bind].
    destruct b; try discriminate B; try reflexivity.
    unfold and_then at 1. destruct (end_ s + 2 <? len (input s)) eqn:C;
      [| reflexivity].
    apply Z.ltb_lt in C.
    destruct (index_in_range (input s) (end_ s + 1) ltac:(lia)) as (b1 & I1).
    destruct (index_in_range (input s) (end_ s + 2) ltac:(lia)) as (b2 & I2).
    unfold byte_at_is. rewrite I1. cbn [bind].
    destruct (Byte.eqb b1 xbb) eqn:E1; [| reflexivity].
    cbn [and_then]. rewrite I2. cbn [bind].
    destruct (Byte.eqb b2 xbf) eqn:E2; [| reflexivity].
    apply byte_eqb_eq in E1, E2. subst b1 b2.
    exfalso. apply N. unfold bom_at. auto.
Qed.

(** Skipping whitespace twice is skipping it once. *)
Theorem ws_idempotent (s s' : Lexer) : ws s = Return s' -> ws s' = Return s'.
Proof.
  intros H. unfold ws in H. apply ws_loop_stops in H.
  apply ws_loop_at_significant; [lia | exact H].
Qed.

Lemma firstn_cons_Z (b : byte) (l : list byte) (k : Z) :
  1 <= k ->
  firstn (Z.to_nat k) (b :: l) = b :: firstn (Z.to_nat (k - 1)) l.
Proof.
  intros K. replace (Z.to_nat k) with (S (Z.to_nat (k - 1))) by lia.
  reflexivity.
Qed.

Lemma line_breaks_cr (x : list byte) :
  (forall b rest, x = b :: rest -> b <> x0a) ->
  line_breaks (x0d :: x) = 1 + line_breaks x.
Proof.
  intros H. destruct x as [|b rest]; [reflexivity|].
  cbn [line_breaks]. change (Byte.eqb x0d x0a) with false.
  change (Byte.eqb x0d x0d) with true. cbn iota.
  destruct (Byte.eqb b x0a) eqn:E; [|].
  - apply byte_eqb_eq in E. destruct (H b rest eq_refl E).
  - reflexivity.
Qed.

(** The bytes between the cursor of [s] and the cursor of [s']. *)
Lemma ws_loop_counts_lines (fuel : nat) (s s' : Lexer) :
  ws_loop fuel s = Return s' ->
  line s' = line s
            + line_breaks (firstn (Z.to_nat (end_ s' - end_ s))
                                  (skipn (Z.to_nat (end_ s)) (input s))).
Proof.
  revert s s'. induction fuel as [|fuel IH]; intros s s' H;
    pose proof H as H'; simpl in H;
    (destruct (end_ s <? len (input s)) eqn:C;
     [| injection H as <-; rewrite Z.sub_diag; simpl; lia]).
  - discriminate.
  - inv_bind H. rename a into b.
    pose proof (index_skipn _ _ _ E) as Sk. rewrite Sk.
    pose proof (index_Return _ _ _ E) as [R _].
    assert (Stop : s' = s ->
                   line s' = line s + line_breaks (firstn (Z.to_nat (end_ s' - end_ s)) (b :: skipn (Z.to_nat (end_ s + 1)) (input s))))
      by (intros ->; rewrite Z.sub_diag; simpl; lia).
    assert (Plain : forall s1,
               ws_loop fuel s1 = Return s' -> input s1 = input s ->
               end_ s1 = end_ s + 1 -> line s1 = line s ->
               is_blank b = true -> b <> x0a -> b <> x0d ->
               line s' = line s + line_breaks (firstn (Z.to_nat (end_ s' - end_ s)) (b :: skipn (Z.to_nat (end_ s + 1)) (input s)))).
    { intros s1 W I1 E1 L1 _ N1 N2.
      pose proof (ws_loop_skipped _ _ _ W) as (_ & _ & _ & Mono & _).
      apply IH in W. rewrite W, I1, E1, L1.
      rewrite firstn_cons_Z by lia.
      replace (end_ s' - end_ s - 1) with (end_ s' - (end_ s + 1)) by lia.
      cbn [line_breaks].
      destruct (Byte.eqb b x0a) eqn:Q1; [apply byte_eqb_eq in Q1; contradiction|].
      destruct (Byte.eqb b x0d) eqn:Q2; [apply byte_eqb_eq in Q2; contradiction|].
      reflexivity. }
    destruct b; try (injection H as <-; apply Stop; reflexivity);
      try (eapply Plain; [exact H | reflexivity | reflexivity | reflexivity
                          | reflexivity | discriminate | discriminate]).
    + (* line feed *)
      pose proof (ws_loop_skipped _ _ _ H) as (_ & _ & _ & Mono & _).
      apply IH in H. simpl in H, Mono. rewrite H.
      rewrite firstn_cons_Z by lia.
      replace (end_ s' - end_ s - 1) with (end_ s' - (end_ s + 1)) by lia.
      change (line_breaks (x0a :: ?x)) with (1 + line_breaks x). lia.
    + (* carriage return *)
      inv_bind H. destruct a.
      * apply and_then_true in E0. destruct E0 as [_ B].
        apply byte_at_is_true in B. simpl in B.
        rewrite (index_skipn _ _ _ B).
        pose proof (ws_loop_skipped _ _ _ H) as (_ & _ & _ & Mono & _).
        apply IH in H. simpl in H, Mono. rewrite H.
        rewrite firstn_cons_Z by lia. rewrite firstn_cons_Z by lia.
        replace (end_ s' - end_ s - 1 - 1) with (end_ s' - (end_ s + 1 + 1)) by lia.
        change (line_breaks (x0d :: x0a :: ?x)) with (1 + line_breaks x). lia.
      * pose proof (ws_loop_skipped _ _ _ H) as (_ & _ & _ & Mono & _).
        apply IH in H. simpl in H, Mono. rewrite H.
        rewrite firstn_cons_Z by lia.
        replace (end_ s' - end_ s - 1) with (end_ s' - (end_ s + 1)) by lia.
        rewrite line_breaks_cr; [lia|].
        intros b rest X Y. subst b.
        unfold and_then in E0. simpl in E0.
        destruct (end_ s + 1 <? len (input s)) eqn:C1.
        -- unfold byte_at_is in E0. inv_bind E0. injection E0 as E0.
           rewrite (index_skipn _ _ _ E1) in X.
           destruct (Z.to_nat (end_ s' - (end_ s + 1))); simpl in X;
             [discriminate X|]. injection X as X1 _. rewrite X1 in E0.
           discriminate E0.
        -- apply Z.ltb_ge in C1.
           rewrite skipn_all2 in X by (unfold len in C1; lia).
           rewrite firstn_nil in X. discriminate X.
    + (* byte order mark *)
      inv_bind H. destruct a; [| injection H as <-; apply Stop; reflexivity].
      apply and_then_true in E0. destruct E0 as [_ B]. inv_bind B.
      apply and_then_true in B. destruct B as [-> B].
      apply byte_at_is_true in E0, B.
      rewrite (index_skipn _ _ _ E0).
      replace (end_ s + 1 + 1) with (end_ s + 2) by lia.
      rewrite (index_skipn _ _ _ B).
      pose proof (ws_loop_skipped _ _ _ H) as (_ & _ & _ & Mono & _).
      apply IH in H. simpl in H, Mono. rewrite H.
      do 3 (rewrite firstn_cons_Z by lia).
      replace (end_ s' - end_ s - 1 - 1 - 1) with (end_ s' - (end_ s + 3)) by lia.
      replace (end_ s + 2 + 1) with (end_ s + 3) by lia.
      reflexivity.
Qed.

(** [ws] adds to the line number exactly the number of line breaks among
    the bytes it skips, a carriage return followed by a line feed being one
    line break. *)
Theorem ws_counts_line_breaks (s s' : Lexer) (between : list byte) :
  ws s = Return s' ->
  slice (input s) (end_ s) (end_ s') = Return between ->
  line s' = line s + line_breaks between.
Proof.
  intros W S. apply slice_Return in S. destruct S as (_ & _ & ->).
  eapply ws_loop_counts_lines. exact W.
Qed.

(** ** One token, forwards *)

Lemma ReadToken_dispatch (s s1 : Lexer) (r : byte) :
  peeked s = false -> ws s = Return s1 ->
  index (input s1) (end_ s1) = Return r -> classify r <> CHash ->
  ReadToken s
  = ('(s0, t, e) <- scan_class (classify r) r (advance 1 1 (syncStart s1)) ;;
     Return (set_lastToken t s0, t, e)).
Proof.
  intros P W I N. pose proof (index_Return _ _ _ I) as [R _].
  unfold ReadToken. cbn [ReadToken_fuel]. rewrite P, W. cbn [bind]. cbv zeta.
  replace (len (input (syncStart s1)) <=? end_ (syncStart s1)) with false
    by (symmetry; apply Z.leb_gt; simpl; lia).
  change (index (input (syncStart s1)) (start (syncStart s1)))
    with (index (input s1) (end_ s1)).
  rewrite I. cbn [bind].
  destruct r; try reflexivity. exfalso. apply N. reflexivity.
Qed.

Lemma rewind (s : Lexer) : advance (-1) (-1) (advance 1 1 s) = s.
Proof. rewrite advance_advance. change (1 + -1) with 0. apply advance_0. Qed.

Lemma unexpectedCharacter_message (r : byte) :
  exists m, forall s,
    unexpectedCharacter r (advance 1 1 s) = makeError m s.
Proof.
  unfold unexpectedCharacter. cbv zeta.
  destruct ((bz r <? 32) && negb (bz r =? 9) && negb (bz r =? 10)
            && negb (bz r =? 13));
    [| destruct (Byte.eqb r x27)];
    eexists; intros s; rewrite rewind; reflexivity.
Qed.

Lemma ws_keeps_cache_flag (s s1 : Lexer) :
  ws s = Return s1 -> peeked s1 = peeked s /\ input s1 = input s.
Proof.
  intros W. apply ws_scan in W. destruct W as (Sh & _).
  split; [apply shell_peeked | apply shell_input]; exact Sh.
Qed.

(** A byte that starts no token is not consumed: [ReadToken] reports it
    with an [Invalid] token, leaves the cursor on it, and the next call
    returns the same token and the same error, in the same state. *)
Theorem unexpected_character_not_consumed (s s1 : Lexer) (r : byte) :
  peeked s = false -> ws s = Return s1 ->
  index (input s1) (end_ s1) = Return r -> classify r = COther ->
  exists s' t m,
    ReadToken s = Return (s', t, Some m)
    /\ Kind t = Invalid /\ Start t = endRunes s1 /\ End_ t = endRunes s1
    /\ end_ s' = end_ s1
    /\ ReadToken s' = Return (s', t, Some m).
Proof.
  intros P W I C. destruct (unexpectedCharacter_message r) as (m & M).
  pose proof (ws_keeps_cache_flag _ _ W) as (P1 & _).
  assert (N : classify r <> CHash) by (rewrite C; discriminate).
  set (t := mkToken Invalid (endRunes s1) (endRunes s1) [] (line s1)
                    (endRunes s1 - lineStartRunes s1 + 1)).
  set (s' := set_lastToken t (syncStart s1)).
  assert (H : forall x x1,
             peeked x = false -> ws x = Return x1 ->
             index (input x1) (end_ x1) = Return r ->
             makeError m (syncStart x1) = Return (syncStart x1, t, Some m) ->
             set_lastToken t (syncStart x1) = s' ->
             ReadToken x = Return (s', t, Some m)).
  { intros x x1 Px Wx Ix Ex Sx.
    rewrite (ReadToken_dispatch x x1 r Px Wx Ix N), C. cbn [scan_class].
    rewrite M, Ex. cbn [bind]. rewrite Sx. reflexivity. }
  exists s', t, m.
  split; [apply (H s s1); auto; reflexivity|].
  repeat (split; [reflexivity|]).
  apply (H s' s').
  - simpl. congruence.
  - apply ws_loop_at_significant; [lia|].
    unfold ws in W. apply ws_loop_stops in W. exact W.
  - exact I.
  - reflexivity.
  - reflexivity.
Qed.

(** Three dots are a [Spread] token; a dot that is not the first of three
    is reported as an unexpected character, and is not consumed. *)
Theorem spread_or_unexpected_dot (s s1 : Lexer) :
  peeked s = false -> ws s = Return s1 ->
  index (input s1) (end_ s1) = Return x2e ->
  exists s' t e,
    ReadToken s = Return (s', t, e)
    /\ Start t = endRunes s1
    /\ (slice (input s1) (end_ s1) (end_ s1 + 3) = Return (bytes "...") ->
        Kind t = Spread /\ Value t = bytes "..." /\ e = None
        /\ End_ t = endRunes s1 + 3 /\ end_ s' = end_ s1 + 3)
    /\ (slice (input s1) (end_ s1) (end_ s1 + 3) <> Return (bytes "...") ->
        Kind t = Invalid /\ e = Some (msg_unexpected_character x2e)
        /\ End_ t = endRunes s1 /\ end_ s' = end_ s1).
Proof.
  intros P W I. pose proof (index_Return _ _ _ I) as [R _].
  rewrite (ReadToken_dispatch s s1 x2e P W I ltac:(discriminate)).
  cbn [classify scan_class]. unfold starts_with3.
  change (start (advance 1 1 (syncStart s1))) with (end_ s1).
  change (input (advance 1 1 (syncStart s1))) with (input s1).
  unfold and_then.
  destruct (end_ s1 + 2 <? len (input s1)) eqn:C.
  - apply Z.ltb_lt in C.
    assert (Q : exists q, slice (input s1) (end_ s1) (end_ s1 + 3) = Return q).
    { unfold slice.
      replace ((0 <=? end_ s1) && (end_ s1 <=? end_ s1 + 3)
               && (end_ s1 + 3 <=? len (input s1))) with true
        by (symmetry; rewrite !andb_true_iff; repeat split; apply Z.leb_le; lia).
      eauto. }
    destruct Q as (q & Q). rewrite Q. cbn [bind].
    destruct (bytes_eqb q (bytes "...")) eqn:B.
    + apply bytes_eqb_eq in B. subst q.
      unfold makeToken.
      change (slice (input (advance 2 2 (advance 1 1 (syncStart s1))))
                    (start (advance 2 2 (advance 1 1 (syncStart s1))))
                    (end_ (advance 2 2 (advance 1 1 (syncStart s1)))))
        with (slice (input s1) (end_ s1) (end_ s1 + 1 + 2)).
      replace (end_ s1 + 1 + 2) with (end_ s1 + 3) by lia.
      rewrite Q. cbn [bind]. do 3 eexists. split; [reflexivity|].
      simpl. split; [reflexivity|]. split.
      * intros _. repeat split; lia.
      * intros X. contradiction.
    + unfold unexpectedCharacter. cbv zeta. rewrite rewind. simpl.
      do 3 eexists. split; [reflexivity|]. simpl. split; [reflexivity|]. split.
      * intros X. injection X as ->. discriminate B.
      * intros _. auto.
  - cbn [bind]. unfold unexpectedCharacter. cbv zeta. rewrite rewind. simpl.
    do 3 eexists. split; [reflexivity|]. simpl. split; [reflexivity|]. split.
    + intros X. apply slice_Return in X. apply Z.ltb_ge in C. lia.
    + intros _. auto.
Qed.

(** ** Any call, from what holds of the calls that scan *)

Lemma reachable_read_ind (Q : Lexer -> Token -> error -> Prop) :
  (forall s s' t e,
      peeked s = false -> ReadToken s = Return (s', t, e) -> Q s' t e) ->
  (forall s t e x, Q s t e -> Q (set_lastToken x s) t e) ->
  (forall s t e b, Q s t e -> Q (set_peeked b s) t e) ->
  (forall s t e t0 e0, Q s t e -> Q (set_peek t0 e0 s) t e) ->
  forall inp s s' t e,
    reachable inp s -> ReadToken s = Return (s', t, e) -> Q s' t e.
Proof.
  intros Fresh QL QP QK inp s s' t e R H.
  assert (Inv : peeked s = true -> Q s (peekToken s) (peekError s)).
  { clear H. induction R as [|s0 s1 R IH S]; [intros X; discriminate X|].
    destruct S as [t1 e1 H | t1 H]; destruct (peeked s0) eqn:P.
    - rewrite (ReadToken_peeked _ P) in H. injection H as <- _ _.
      intros X. discriminate X.
    - pose proof (ReadToken_fresh _ _ _ _ P H) as ((_ & B2 & _) & _).
      intros X. congruence.
    - apply (PeekToken_cached _ _ _ P) in H. destruct H as [-> _].
      intros _. apply IH. reflexivity.
    - apply (PeekToken_fresh _ _ _ P) in H. destruct H as (s2 & e2 & H & ->).
      intros _. simpl. apply QP, QK. eapply Fresh; eauto. }
  destruct (peeked s) eqn:P.
  - rewrite (ReadToken_peeked _ P) in H. injection H as <- <- <-.
    apply QL, QP. apply Inv. reflexivity.
  - eapply Fresh; eauto.
Qed.

(** ** Names *)

Lemma is_name_rune_ascii (r : Z) : is_name_rune r = true -> r < 0x80.
Proof.
  unfold is_name_rune. intros H.
  repeat match type of H with
  | (_ || _) = true => apply orb_true_iff in H; destruct H as [H|H]
  end;
  try (apply andb_true_iff in H; destruct H as [H1 H2];
       apply Z.leb_le in H1, H2; lia).
  apply Z.eqb_eq in H. lia.
Qed.

(** The rune at the cursor, read off its first byte. *)
Lemma peek_byte (s : Lexer) (r w : Z) :
  end_ s < len (input s) -> peek s = Return (r, w) ->
  exists b, index (input s) (end_ s) = Return b
            /\ (bz b < 0x80 -> r = bz b /\ w = 1)
            /\ (0x80 <= bz b -> 0x80 <= r).
Proof.
  intros L H. unfold peek in H. inv_bind H. injection H as D.
  apply slice_suffix in E. destruct E as [R ->].
  destruct (index_in_range (input s) (end_ s) ltac:(lia)) as (b & I).
  exists b. split; [exact I|]. rewrite (index_skipn _ _ _ I) in D. split.
  - intros A. rewrite (decode_ascii _ _ A) in D. injection D as <- <-. auto.
  - intros A.
    match type of D with
    | DecodeRuneInString (_ :: ?t) = _ =>
      pose proof (decode_nonascii b t A) as N
    end.
    rewrite D in N. exact N.
Qed.

Lemma not_name_rune_byte (s : Lexer) (r w : Z) :
  end_ s < len (input s) -> peek s = Return (r, w) ->
  is_name_rune r = false -> name_ends_at s.
Proof.
  intros L H N. destruct (peek_byte _ _ _ L H) as (b & I & A & B).
  right. exists b. split; [exact I|].
  destruct (Z.lt_ge_cases (bz b) 0x80) as [C|C].
  - destruct (A C) as [<- _]. exact N.
  - destruct (is_name_rune (bz b)) eqn:X; [|reflexivity].
    apply is_name_rune_ascii in X. lia.
Qed.

Lemma readName_loop_spec (fuel : nat) (s s' : Lexer) :
  readName_loop fuel s = Return s' ->
  name_ends_at s'
  /\ exists k : nat,
       s' = advance (Z.of_nat k) (Z.of_nat k) s
       /\ forall j, 0 <= j < Z.of_nat k ->
            exists b, index (input s) (end_ s + j) = Return b
                      /\ is_name_rune (bz b) = true.
Proof.
  revert s s'. induction fuel as [|fuel IH]; intros s s' H; simpl in H;
    (destruct (end_ s <? len (input s)) eqn:C;
     [| injection H as <-; split;
        [left; apply Z.ltb_ge; exact C
        | exists 0%nat; rewrite advance_0; split; [reflexivity | intros; lia]]]).
  - discriminate.
  - apply Z.ltb_lt in C. inv_bind H. destruct a as [r w].
    destruct (is_name_rune r) eqn:N.
    + destruct (peek_byte _ _ _ C E) as (b & I & A & B).
      assert (Ab : bz b < 0x80).
      { destruct (Z.lt_ge_cases (bz b) 0x80) as [X|X]; [exact X|].
        apply B in X. apply is_name_rune_ascii in N. lia. }
      destruct (A Ab) as [-> ->].
      apply IH in H. destruct H as (St & k & -> & F).
      split; [exact St|]. exists (S k). rewrite advance_advance.
      split; [f_equal; lia|].
      intros j R. destruct (Z.eq_dec j 0) as [->|Nj].
      * rewrite Z.add_0_r. eauto.
      * destruct (F (j - 1) ltac:(lia)) as (c & Ic & Nc). simpl in Ic.
        replace (end_ s + 1 + (j - 1)) with (end_ s + j) in Ic by lia. eauto.
    + injection H as <-. split; [eapply not_name_rune_byte; eauto|].
      exists 0%nat. rewrite advance_0. split; [reflexivity | intros; lia].
Qed.

(** The bytes of a slice have what holds of the bytes of the string at its
    offsets. *)
Lemma slice_Forall (P : byte -> Prop) (bs q : list byte) (lo hi : Z) :
  slice bs lo hi = Return q ->
  (forall j, 0 <= j < hi - lo ->
             exists b, index bs (lo + j) = Return b /\ P b) ->
  Forall P q.
Proof.
  intros S A. apply Forall_forall. intros x X.
  apply In_nth_error in X. destruct X as (n & N).
  assert (L : (n < length q)%nat) by (apply nth_error_Some; congruence).
  pose proof (slice_Return _ _ _ _ S) as (R1 & R2 & Q).
  assert (Ln : 0 <= Z.of_nat n < hi - lo).
  { rewrite Q, length_firstn, length_skipn in L. lia. }
  destruct (A _ Ln) as (b & I & Pb).
  pose proof (slice_nth _ _ _ _ _ S Ln) as E.
  apply index_Return in I. destruct I as [_ I].
  rewrite Nat2Z.id in E. rewrite I, N in E. injection E as ->. exact Pb.
Qed.

Lemma slice_cons (bs q : list byte) (lo hi : Z) (b : byte) :
  index bs lo = Return b -> slice bs lo hi = Return q -> lo < hi ->
  exists rest, q = b :: rest /\ slice bs (lo + 1) hi = Return rest.
Proof.
  intros I S L. pose proof (slice_Return _ _ _ _ S) as (R1 & R2 & ->).
  rewrite (index_skipn _ _ _ I). rewrite firstn_cons_Z by lia.
  eexists. split; [reflexivity|]. unfold slice.
  replace ((0 <=? lo + 1) && (lo + 1 <=? hi) && (hi <=? len bs)) with true
    by (symmetry; rewrite !andb_true_iff; repeat split; apply Z.leb_le; lia).
  do 2 f_equal. f_equal. lia.
Qed.

Lemma classify_name_start (r : byte) :
  classify r = CName -> is_name_start r = true.
Proof. destruct r; simpl; intros H; try discriminate H; reflexivity. Qed.

Lemma class_kind_Name (r : byte) (k : TokenType) :
  class_kind (classify r) k -> k = Name -> classify r = CName.
Proof.
  intros C ->. destruct (classify r) eqn:Cl; simpl in C;
    try reflexivity; try (exfalso; intuition discriminate).
  subst k. apply classify_punct in Cl. simpl in Cl.
  exfalso. intuition discriminate.
Qed.

Lemma name_token_fresh (s s' : Lexer) (t : Token) (e : error) :
  peeked s = false -> ReadToken s = Return (s', t, e) -> Kind t = Name ->
  name_ends_at s'
  /\ exists b rest,
       Value t = b :: rest /\ is_name_start b = true
       /\ Forall (fun c => is_name_rune (bz c) = true) rest.
Proof.
  intros P H K. apply (ReadToken_fuel_cases _ _ _ _ _ P) in H.
  destruct H as (s2 & s0 & TS & -> & D).
  apply token_start_props in TS.
  destruct TS as (T0 & T1 & T2 & T3 & T4 & T5 & T6).
  destruct D as [(C & H) | (r & I & H)].
  - apply makeToken_Return in H. destruct H as (_ & K' & _). congruence.
  - pose proof (scan_class_spec _ _ _ _ _ T3 T4 H) as (_ & CK).
    pose proof (class_kind_Name _ _ CK K) as Cl. rewrite Cl in H.
    cbn [scan_class] in H. unfold readName in H. inv_bind H.
    rename a into s1. apply readName_loop_spec in E.
    destruct E as (St & k & -> & F).
    unfold makeToken in H. inv_bind H. injection H as <- <- <-.
    split; [exact St|]. simpl in E.
    rewrite T3 in E.
    pose proof (index_Return _ _ _ I) as [R _].
    destruct (slice_cons _ _ _ _ _ I E ltac:(lia)) as (rest & -> & Sl).
    exists r, rest. simpl. split; [reflexivity|].
    split; [apply classify_name_start; exact Cl|].
    eapply slice_Forall; [exact Sl|].
    intros j Rj. destruct (F j ltac:(lia)) as (b & Ib & Nb). simpl in Ib.
    eauto.
Qed.

(** A token of kind [Name] has the form of a name: a letter or an
    underscore, then letters, digits and underscores; and the name is as
    long as it can be: the cursor is left at the end of the input or at a
    byte that is none of these. *)
Theorem name_token_grammar
        (inp : list byte) (s s' : Lexer) (t : Token) (e : error) :
  reachable inp s -> ReadToken s = Return (s', t, e) -> Kind t = Name ->
  name_ends_at s'
  /\ exists b rest,
       Value t = b :: rest /\ is_name_start b = true
       /\ Forall (fun c => is_name_rune (bz c) = true) rest.
Proof.
  intros R H.
  apply (reachable_read_ind
           (fun s' t e =>
              Kind t = Name ->
              name_ends_at s'
              /\ exists b rest,
                   Value t = b :: rest /\ is_name_start b = true
                   /\ Forall (fun c => is_name_rune (bz c) = true) rest))
    with (inp := inp) (s := s) (e := e); auto.
  intros. eapply name_token_fresh; eauto.
Qed.

(** ** Numbers *)

Lemma slice_empty (bs : list byte) (i : Z) :
  0 <= i <= len bs -> slice bs i i = Return [].
Proof.
  intros R. unfold slice.
  replace ((0 <=? i) && (i <=? i) && (i <=? len bs)) with true
    by (symmetry; rewrite !andb_true_iff; repeat split; apply Z.leb_le; lia).
  rewrite Z.sub_diag. reflexivity.
Qed.

Lemma slice_one (bs : list byte) (i : Z) (b : byte) :
  index bs i = Return b -> slice bs i (i + 1) = Return [b].
Proof.
  intros I. pose proof (index_Return _ _ _ I) as [R _]. unfold slice.
  replace ((0 <=? i) && (i <=? i + 1) && (i + 1 <=? len bs)) with true
    by (symmetry; rewrite !andb_true_iff; repeat split; apply Z.leb_le; lia).
  rewrite (index_skipn _ _ _ I).
  replace (i + 1 - i) with 1 by lia. reflexivity.
Qed.

Lemma slice_app (bs q1 q2 : list byte) (a b c : Z) :
  slice bs a b = Return q1 -> slice bs b c = Return q2 ->
  slice bs a c = Return (q1 ++ q2).
Proof.
  intros S1 S2.
  apply slice_Return in S1. destruct S1 as (A1 & A2 & ->).
  apply slice_Return in S2. destruct S2 as (B1 & B2 & ->).
  unfold slice.
  replace ((0 <=? a) && (a <=? c) && (c <=? len bs)) with true
    by (symmetry; rewrite !andb_true_iff; repeat split; apply Z.leb_le; lia).
  f_equal.
  replace (Z.to_nat (c - a)) with (Z.to_nat (b - a) + Z.to_nat (c - b))%nat by lia.
  rewrite <- (firstn_skipn (Z.to_nat (b - a)) (skipn (Z.to_nat a) bs)) at 1.
  rewrite firstn_app, length_firstn, length_skipn.
  replace (Nat.min (Z.to_nat (b - a)) (length bs - Z.to_nat a))
    with (Z.to_nat (b - a)) by (unfold len in *; lia).
  rewrite firstn_firstn.
  replace (Nat.min (Z.to_nat (b - a) + Z.to_nat (c - b)) (Z.to_nat (b - a)))
    with (Z.to_nat (b - a)) by lia.
  f_equal. rewrite skipn_skipn.
  replace (Z.to_nat (b - a) + Z.to_nat (c - b) - Z.to_nat (b - a))%nat
    with (Z.to_nat (c - b)) by lia.
  do 2 f_equal. lia.
Qed.

Lemma slice_length (bs q : list byte) (lo hi : Z) :
  slice bs lo hi = Return q -> len q = hi - lo.
Proof.
  intros S. apply slice_Return in S. destruct S as (A1 & A2 & ->).
  unfold len in *. rewrite length_firstn, length_skipn. lia.
Qed.

Lemma consumed_refl (s : Lexer) :
  0 <= end_ s <= len (input s) -> consumed s s [].
Proof.
  intros R. split; [apply moved_refl | apply slice_empty; exact R].
Qed.

Lemma consumed_trans (s1 s2 s3 : Lexer) (q1 q2 : list byte) :
  consumed s1 s2 q1 -> consumed s2 s3 q2 -> consumed s1 s3 (q1 ++ q2).
Proof.
  intros (M1 & S1) (M2 & S2). split; [eapply moved_trans; eauto|].
  destruct M1 as (Sh & _). apply shell_input in Sh. rewrite Sh in S2.
  eapply slice_app; eauto.
Qed.

Lemma consumed_range (s s' : Lexer) (q : list byte) :
  consumed s s' q ->
  0 <= end_ s /\ end_ s' <= len (input s') /\ input s' = input s.
Proof.
  intros ((Sh & _ & _ & _ & _ & M & _) & S). apply shell_input in Sh.
  apply slice_Return in S. destruct S as (A & B & _). rewrite Sh.
  split; [lia | split; [lia | reflexivity]].
Qed.

Lemma acceptByte_consumed (accepted : list byte) (s s' : Lexer) (hit : bool) :
  0 <= end_ s <= len (input s) ->
  acceptByte accepted s = Return (s', hit) ->
  exists q, consumed s s' q
    /\ (if hit then exists a, In a accepted /\ q = [a]
        else q = []
             /\ forall b, index (input s) (end_ s) = Return b -> ~ In b accepted).
Proof.
  intros R H. pose proof (acceptByte_moved _ _ _ _ H) as M.
  unfold acceptByte in H. destruct (len (input s) <=? end_ s) eqn:C.
  - injection H as <- <-. exists []. split; [apply consumed_refl; exact R|].
    split; [reflexivity|]. intros b I. apply index_Return in I.
    apply Z.leb_le in C. lia.
  - clear C. revert H.
    induction accepted as [|a rest IH]; simpl; intros H.
    + injection H as <- <-. exists []. split; [apply consumed_refl; exact R|].
      split; [reflexivity | intros b _ []].
    + inv_bind H. destruct a0.
      * injection H as <- <-. apply byte_at_is_true in E.
        exists [a]. split; [split; [exact M | apply slice_one; exact E]|].
        exists a. split; [now left | reflexivity].
      * destruct (IH H) as (q & Cq & X). exists q. split; [exact Cq|].
        destruct hit; [destruct X as (a' & I' & ->); exists a'; split; [now right | reflexivity]|].
        destruct X as (-> & N). split; [reflexivity|].
        intros b I [<- | J]; [| exact (N b I J)].
        unfold byte_at_is in E. rewrite I in E. cbn [bind] in E.
        injection E as E.
        replace (Byte.eqb a a) with true in E
          by (symmetry; apply byte_eqb_eq; reflexivity).
        discriminate E.
Qed.

Lemma acceptDigits_consumed (s s' : Lexer) (c : Z) :
  0 <= end_ s <= len (input s) ->
  acceptDigits s = Return (s', c) ->
  exists q, consumed s s' q /\ Forall (fun b => is_digit b = true) q
            /\ len q = c.
Proof.
  intros R H. pose proof (acceptDigits_moved _ _ _ H) as M.
  apply acceptDigits_spec in H. destruct H as (k & -> & -> & A).
  assert (S : exists q, slice (input s) (end_ s) (end_ s + Z.of_nat k) = Return q).
  { unfold slice.
    assert (L : end_ s + Z.of_nat k <= len (input s)).
    { destruct k as [|k]; [lia|].
      destruct (A (Z.of_nat k) ltac:(lia)) as (b & I & _).
      apply index_Return in I. lia. }
    replace ((0 <=? end_ s) && (end_ s <=? end_ s + Z.of_nat k)
             && (end_ s + Z.of_nat k <=? len (input s))) with true
      by (symmetry; rewrite !andb_true_iff; repeat split; apply Z.leb_le; lia).
    eauto. }
  destruct S as (q & S). exists q.
  split; [split; [exact M | exact S]|].
  split.
  - eapply slice_Forall; [exact S|]. intros j Rj. apply A. lia.
  - rewrite (slice_length _ _ _ _ S). lia.
Qed.

Lemma all_digits_intro (q : list byte) :
  Forall (fun b => is_digit b = true) q -> len q <> 0 -> all_digits q.
Proof.
  intros F L. split; [|exact F]. intros ->. apply L. reflexivity.
Qed.

Lemma consumed_next (s s' : Lexer) (q : list byte) :
  consumed s s' q -> 0 <= end_ s' <= len (input s').
Proof.
  intros C. pose proof (consumed_range _ _ _ C) as (A & B & _).
  destruct C as ((_ & _ & _ & _ & _ & M & _) & _). lia.
Qed.

Ltac next_range C R := pose proof (consumed_next _ _ _ C) as R.

Lemma made_token (k : TokenType) (s s' : Lexer) (t : Token) (e : error) :
  makeToken k s = Return (s', t, e) ->
  s' = s /\ Kind t = k /\ makeToken (Kind t) s = Return (s, t, e).
Proof.
  intros H. pose proof (makeToken_Return _ _ _ _ _ H) as (-> & K & _).
  rewrite K. auto.
Qed.

Lemma readNumber_exponent_parts (float : bool) (s s' : Lexer) (t : Token) (e : error) :
  0 <= end_ s <= len (input s) ->
  readNumber_exponent float s = Return (s', t, e) -> Kind t <> Invalid ->
  exists ex,
    consumed s s' ex /\ (ex = [] \/ exponent_part ex)
    /\ makeToken (Kind t) s' = Return (s', t, e)
    /\ (Kind t = Int /\ float = false /\ ex = []
        \/ Kind t = Float /\ (float = true \/ ex <> [])).
Proof.
  intros R H N. unfold readNumber_exponent in H.
  inv_bind H. destruct a as [s1 hit].
  destruct (acceptByte_consumed _ _ _ _ R E) as (q1 & C1 & X1).
  next_range C1 M1.
  destruct hit.
  - destruct X1 as (a & Ia & ->).
    inv_bind H. destruct a0 as [s2 sign].
    destruct (acceptByte_consumed _ _ _ _ M1 E0) as (q2 & C2 & X2).
    next_range C2 M2.
    inv_bind H. destruct a0 as [s3 c].
    destruct (acceptDigits_consumed _ _ _ M2 E1) as (q3 & C3 & F3 & L3).
    destruct (c =? 0) eqn:Z0.
    + inv_bind H. apply makeError_Return in H. destruct H as (_ & K & _).
      contradiction.
    + apply Z.eqb_neq in Z0. apply made_token in H. destruct H as (-> & K & H).
      exists ([a] ++ q2 ++ q3).
      split; [eapply consumed_trans; [exact C1 | eapply consumed_trans; eauto]|].
      split; [right|split; [exact H | right; split; [exact K | right; discriminate]]].
      exists a, q2, q3. split; [reflexivity|].
      split; [simpl in Ia; intuition|].
      split; [| apply all_digits_intro; [exact F3 | lia]].
      destruct sign; [destruct X2 as (a' & Ia' & ->); simpl in Ia'; intuition (subst; auto)
                     | destruct X2 as (-> & _); auto].
  - destruct X1 as (-> & _).
    destruct float; apply made_token in H; destruct H as (-> & K & H);
      exists []; (split; [exact C1|]); (split; [left; reflexivity|]);
      (split; [exact H|]); [right | left]; auto.
Qed.

Lemma readNumber_fraction_parts (s s' : Lexer) (t : Token) (e : error) :
  0 <= end_ s <= len (input s) ->
  readNumber_fraction s = Return (s', t, e) -> Kind t <> Invalid ->
  exists fr ex,
    consumed s s' (fr ++ ex)
    /\ (fr = [] \/ fraction_part fr) /\ (ex = [] \/ exponent_part ex)
    /\ makeToken (Kind t) s' = Return (s', t, e)
    /\ (Kind t = Int /\ fr = [] /\ ex = []
        \/ Kind t = Float /\ (fr <> [] \/ ex <> [])).
Proof.
  intros R H N. unfold readNumber_fraction in H.
  inv_bind H. destruct a as [s1 hit].
  destruct (acceptByte_consumed _ _ _ _ R E) as (q1 & C1 & X1).
  next_range C1 M1.
  destruct hit.
  - destruct X1 as (a & Ia & ->).
    inv_bind H. destruct a0 as [s2 c].
    destruct (acceptDigits_consumed _ _ _ M1 E0) as (q2 & C2 & F2 & L2).
    next_range C2 M2.
    destruct (c =? 0) eqn:Z0.
    + inv_bind H. apply makeError_Return in H. destruct H as (_ & K & _).
      contradiction.
    + apply Z.eqb_neq in Z0.
      destruct (readNumber_exponent_parts _ _ _ _ _ M2 H N)
        as (ex & C3 & Ex & Mk & Kd).
      exists ([a] ++ q2), ex.
      split; [eapply consumed_trans; [eapply consumed_trans; eauto | exact C3]|].
      split; [right|].
      * exists q2. split; [simpl in Ia; intuition (subst; auto)|].
        apply all_digits_intro; [exact F2 | lia].
      * split; [exact Ex|]. split; [exact Mk|].
        right. destruct Kd as [(_ & X & _) | (K & _)]; [discriminate X|].
        split; [exact K | left; discriminate].
  - destruct X1 as (-> & _).
    destruct (readNumber_exponent_parts _ _ _ _ _ M1 H N)
      as (ex & C3 & Ex & Mk & Kd).
    exists [], ex.
    split; [exact (consumed_trans _ _ _ _ _ C1 C3)|].
    split; [left; reflexivity|]. split; [exact Ex|]. split; [exact Mk|].
    destruct Kd as [(K & _ & X) | (K & [X|X])];
      [left; auto | discriminate X | right; auto].
Qed.

Lemma readNumber_parts (s s' : Lexer) (t : Token) (e : error) :
  0 <= end_ s - 1 <= len (input s) ->
  readNumber s = Return (s', t, e) -> Kind t <> Invalid ->
  exists sg ds fr ex,
    consumed (advance (-1) (-1) s) s' (sg ++ ds ++ fr ++ ex)
    /\ sign_part sg /\ int_part ds
    /\ (fr = [] \/ fraction_part fr) /\ (ex = [] \/ exponent_part ex)
    /\ makeToken (Kind t) s' = Return (s', t, e)
    /\ (Kind t = Int /\ fr = [] /\ ex = []
        \/ Kind t = Float /\ (fr <> [] \/ ex <> [])).
Proof.
  intros R H N. unfold readNumber in H. cbv zeta in H.
  set (s0 := advance (-1) (-1) s) in *.
  assert (R0 : 0 <= end_ s0 <= len (input s0)) by (unfold s0; simpl; lia).
  inv_bind H. destruct a as [s1 minus].
  destruct (acceptByte_consumed _ _ _ _ R0 E) as (sg & C1 & X1).
  next_range C1 M1.
  assert (Sg : sign_part sg).
  { destruct minus; [destruct X1 as (a & Ia & ->); simpl in Ia; right;
                     intuition (subst; auto)
                    | destruct X1 as (-> & _); left; reflexivity]. }
  inv_bind H. destruct a as [s2 zero].
  destruct (acceptByte_consumed _ _ _ _ M1 E0) as (q2 & C2 & X2).
  next_range C2 M2.
  inv_bind H. destruct a as [s3 c].
  destruct (acceptDigits_consumed _ _ _ M2 E1) as (q3 & C3 & F3 & L3).
  next_range C3 M3.
  assert (G : forall ds,
             consumed s1 s3 ds -> int_part ds ->
             readNumber_fraction s3 = Return (s', t, e) ->
             exists sg ds fr ex,
               consumed s0 s' (sg ++ ds ++ fr ++ ex)
               /\ sign_part sg /\ int_part ds
               /\ (fr = [] \/ fraction_part fr) /\ (ex = [] \/ exponent_part ex)
               /\ makeToken (Kind t) s' = Return (s', t, e)
               /\ (Kind t = Int /\ fr = [] /\ ex = []
                   \/ Kind t = Float /\ (fr <> [] \/ ex <> []))).
  { intros ds Cd Id Hf.
    destruct (readNumber_fraction_parts _ _ _ _ M3 Hf N)
      as (fr & ex & Cf & Fr & Ex & Mk & Kd).
    exists sg, ds, fr, ex.
    split; [| auto 10].
    eapply consumed_trans; [exact C1|].
    eapply consumed_trans; [exact Cd | exact Cf]. }
  destruct zero.
  - destruct X2 as (a & Ia & ->). simpl in Ia.
    assert (a = x30) by intuition. subst a.
    destruct (negb (c =? 0)) eqn:Z0.
    + inv_bind H. apply makeError_Return in H. destruct H as (_ & K & _).
      contradiction.
    + apply negb_false_iff, Z.eqb_eq in Z0. subst c.
      assert (q3 = []) by (destruct q3; [reflexivity | discriminate L3]).
      subst q3. apply (G ([x30] ++ [])).
      * eapply consumed_trans; eauto.
      * split; [split; [discriminate | repeat constructor]|].
        intros rest X. injection X as <-. reflexivity.
      * exact H.
  - destruct X2 as (-> & Miss).
    destruct (c =? 0) eqn:Z0.
    + inv_bind H. apply makeError_Return in H. destruct H as (_ & K & _).
      contradiction.
    + apply Z.eqb_neq in Z0. apply (G ([] ++ q3)).
      * eapply consumed_trans; eauto.
      * simpl. split; [apply all_digits_intro; [exact F3 | lia]|].
        intros rest ->. exfalso.
        destruct C3 as (_ & S3).
        assert (I : index (input s2) (end_ s2) = Return x30).
        { replace (end_ s2) with (end_ s2 + 0) by lia.
          eapply slice_index; [exact S3 | | reflexivity].
          apply slice_length in S3. unfold len in S3. simpl in S3. lia. }
        destruct C2 as ((Sh2 & _) & S2).
        apply slice_length in S2. change (len []) with 0 in S2.
        apply shell_input in Sh2.
        replace (end_ s2) with (end_ s1) in I by lia. rewrite Sh2 in I.
        apply (Miss _ I). now left.
      * exact H.
Qed.

Lemma class_kind_Number (r : byte) (k : TokenType) :
  class_kind (classify r) k -> k = Int \/ k = Float -> classify r = CNumber.
Proof.
  intros C K. destruct (classify r) eqn:Cl; simpl in C;
    try reflexivity; try (exfalso; intuition congruence).
  subst k. apply classify_punct in Cl. simpl in Cl.
  exfalso. intuition congruence.
Qed.

Lemma number_token_fresh (s s' : Lexer) (t : Token) (e : error) :
  peeked s = false -> ReadToken s = Return (s', t, e) ->
  (Kind t = Int -> int_value (Value t))
  /\ (Kind t = Float -> float_value (Value t)).
Proof.
  intros P H.
  assert (G : Kind t = Int \/ Kind t = Float ->
              exists sg ds fr ex,
                Value t = sg ++ ds ++ fr ++ ex
                /\ sign_part sg /\ int_part ds
                /\ (fr = [] \/ fraction_part fr) /\ (ex = [] \/ exponent_part ex)
                /\ (Kind t = Int /\ fr = [] /\ ex = []
                    \/ Kind t = Float /\ (fr <> [] \/ ex <> []))).
  { intros K. apply (ReadToken_fuel_cases _ _ _ _ _ P) in H.
    destruct H as (s2 & s0 & TS & -> & D).
    apply token_start_props in TS.
    destruct TS as (T0 & T1 & T2 & T3 & T4 & T5 & T6).
    destruct D as [(C & H) | (r & I & H)].
    - apply makeToken_Return in H. destruct H as (_ & K' & _).
      destruct K; congruence.
    - pose proof (scan_class_spec _ _ _ _ _ T3 T4 H) as (_ & CK).
      pose proof (class_kind_Number _ _ CK K) as Cl. rewrite Cl in H.
      cbn [scan_class] in H.
      pose proof (index_Return _ _ _ I) as [R _].
      apply readNumber_parts in H;
        [| simpl; lia | destruct K as [K|K]; rewrite K; discriminate].
      destruct H as (sg & ds & fr & ex & (M & Sl) & Sg & Ds & Fr & Ex & Mk & Kd).
      rewrite rewind in M, Sl.
      exists sg, ds, fr, ex. split; [| auto 10].
      unfold makeToken in Mk. inv_bind Mk. injection Mk as Mk.
      destruct M as (Sh & St & _). apply shell_input in Sh.
      rewrite St, T3, Sh, Sl in E. injection E as <-.
      rewrite <- Mk at 1. reflexivity. }
  split; intros K.
  - destruct (G (or_introl K)) as (sg & ds & fr & ex & V & Sg & Ds & _ & _ & Kd).
    destruct Kd as [(_ & -> & ->) | (K' & _)]; [| congruence].
    exists sg, ds. rewrite V, !app_nil_r. auto.
  - destruct (G (or_intror K)) as (sg & ds & fr & ex & V & Sg & Ds & Fr & Ex & Kd).
    destruct Kd as [(K' & _) | (_ & Ne)]; [congruence|].
    exists sg, ds, fr, ex. auto 10.
Qed.

(** The value of an [Int] token is an optional minus sign and then either
    the digit 0 or digits that do not begin with 0; the value of a [Float]
    token is such an integer followed by a fraction (a dot and at least one
    digit), by an exponent (e or E, an optional sign, at least one digit),
    or by both. *)
Theorem number_token_grammar
        (inp : list byte) (s s' : Lexer) (t : Token) (e : error) :
  reachable inp s -> ReadToken s = Return (s', t, e) ->
  (Kind t = Int -> int_value (Value t))
  /\ (Kind t = Float -> float_value (Value t)).
Proof.
  intros R H.
  apply (reachable_read_ind
           (fun s' t e =>
              (Kind t = Int -> int_value (Value t))
              /\ (Kind t = Float -> float_value (Value t))))
    with (inp := inp) (s := s) (s' := s') (e := e); auto.
  intros. eapply number_token_fresh; eauto.
Qed.

(** ** Hexadecimal digits *)

Lemma hex_value_range (c d : Z) : hex_value c = Some d -> 0 <= d < 16.
Proof.
  unfold hex_value.
  repeat match goal with
  | |- context [if ?c then _ else _] => destruct c eqn:?
  end; try discriminate; intros H; injection H as <-;
  repeat match goal with
  | X : (_ && _) = true |- _ => apply andb_true_iff in X; destruct X
  | X : (_ <=? _) = true |- _ => apply Z.leb_le in X
  end; lia.
Qed.

Lemma lor_shiftl_digit (v d : Z) :
  0 <= v -> 0 <= d < 16 -> Z.lor (Z.shiftl v 4) d = 16 * v + d.
Proof.
  intros V D.
  assert (L : Z.land (Z.shiftl v 4) d = 0).
  { apply Z.bits_inj'. intros n N. rewrite Z.land_spec, Z.bits_0.
    destruct (Z.lt_ge_cases n 4) as [A|A].
    - rewrite Z.shiftl_spec_low by exact A. reflexivity.
    - destruct (Z.eq_dec d 0) as [->|Nz];
        [rewrite Z.bits_0; apply andb_false_r|].
      rewrite (Z.bits_above_log2 d n); [apply andb_false_r | lia |].
      apply Z.lt_le_trans with 4; [| exact A].
      apply Z.log2_lt_pow2; [lia | simpl; lia]. }
  rewrite <- Z.lxor_lor by exact L.
  rewrite <- Z.add_nocarry_lxor by exact L.
  rewrite Z.shiftl_mul_pow2 by lia. lia.
Qed.

Lemma runes_ascii (bs : list byte) :
  Forall (fun b => bz b < 0x80) bs -> runes bs = map bz bs.
Proof.
  induction 1 as [|b t A F IH]; [reflexivity|].
  rewrite (runes_cons (b :: t) (bz b) 1 ltac:(discriminate) (decode_ascii b t A)).
  simpl. f_equal. exact IH.
Qed.

Lemma is_hex_ascii (b : byte) : is_hex b = true -> bz b < 0x80.
Proof.
  unfold is_hex. destruct (hex_value (bz b)) eqn:H; [| discriminate].
  intros _. eapply hex_value_ascii; eauto.
Qed.

Lemma unhex_loop_hex (bs : list byte) (v : Z) :
  0 <= v -> Forall (fun b => is_hex b = true) bs ->
  unhex_loop v (map bz bs) = Some (hex_number v bs) /\ 0 <= hex_number v bs.
Proof.
  intros V F. revert v V.
  induction F as [|b t H F IH]; intros v V; cbn [unhex_loop map hex_number].
  - auto.
  - unfold is_hex in H. destruct (hex_value (bz b)) as [d|] eqn:X;
      [| discriminate H].
    pose proof (hex_value_range _ _ X) as R.
    rewrite lor_shiftl_digit by assumption. apply IH. lia.
Qed.

Lemma unhex_loop_all_hex (v u : Z) (bs : list byte) :
  unhex_loop v (map bz bs) = Some u -> Forall (fun b => is_hex b = true) bs.
Proof.
  revert v. induction bs as [|b t IH]; intros v H; [constructor|].
  cbn [unhex_loop map] in H.
  destruct (hex_value (bz b)) as [d|] eqn:X; [| discriminate H].
  constructor; [unfold is_hex; rewrite X; reflexivity|]. eapply IH; eauto.
Qed.

Lemma hex_number_bound (bs : list byte) (v : Z) :
  0 <= v -> 
  16 ^ len bs * v <= hex_number v bs < 16 ^ len bs * (v + 1).
Proof.
  revert v. induction bs as [|b t IH]; intros v V.
  - change (len (@nil byte)) with 0. rewrite Z.pow_0_r. cbn [hex_number]. lia.
  - cbn [hex_number].
    assert (D : 0 <= match hex_value (bz b) with Some d => d | None => 0 end < 16).
    { destruct (hex_value (bz b)) eqn:X; [eapply hex_value_range; eauto | lia]. }
    set (d := match hex_value (bz b) with Some d => d | None => 0 end) in *.
    specialize (IH (16 * v + d) ltac:(lia)).
    replace (len (b :: t)) with (len t + 1) by (unfold len; simpl length; lia).
    rewrite Z.pow_add_r by (pose proof (len_nonneg t); lia).
    change (16 ^ 1) with 16.
    assert (P : 0 < 16 ^ len t) by (apply Z.pow_pos_nonneg; [lia | apply len_nonneg]).
    nia.
Qed.

(** [unhex] succeeds exactly on hexadecimal digits, and then returns the
    number they denote in base 16, which is below 16 to the number of
    digits.  The source computes in 32-bit runes; up to seven digits nothing
    overflows (the lexer passes four). *)
Theorem unhex_correct (bs : list byte) :
  (length bs <= 7)%nat ->
  (Forall (fun b => is_hex b = true) bs ->
   unhex bs = Some (hex_number 0 bs))
  /\ (forall v, unhex bs = Some v ->
                Forall (fun b => is_hex b = true) bs
                /\ v = hex_number 0 bs /\ 0 <= v < 16 ^ len bs).
Proof.
  intros _.
  assert (A : Forall (fun b => is_hex b = true) bs ->
              unhex bs = Some (hex_number 0 bs)).
  { intros F. unfold unhex. rewrite runes_ascii.
    - apply unhex_loop_hex; [lia | exact F].
    - eapply Forall_impl; [| exact F]. intros b. apply is_hex_ascii. }
  split; [exact A|].
  intros v H. pose proof (unhex_ascii _ _ H) as As.
  assert (F : Forall (fun b => is_hex b = true) bs).
  { unfold unhex in H. rewrite (runes_ascii _ As) in H.
    eapply unhex_loop_all_hex; eauto. }
  split; [exact F|]. rewrite (A F) in H.
  assert (v = hex_number 0 bs) as -> by congruence.
  split; [reflexivity|].
  pose proof (hex_number_bound bs 0 ltac:(lia)). lia.
Qed.

(** ** Strings without escapes *)





(** ** Strings of plain characters *)

Lemma readString_loop_plain_step (fuel : nat) (s : Lexer) (b : byte) :
  index (input s) (end_ s) = Return b -> is_plain b = true ->
  readString_loop (S fuel) None s = readString_loop fuel None (advance 1 1 s).
Proof.
  intros I P. pose proof (index_Return _ _ _ I) as [R _].
  cbn [readString_loop].
  replace (end_ s <? len (input s)) with true by (symmetry; apply Z.ltb_lt; lia).
  rewrite I. cbn [bind].
  destruct b; try discriminate P; reflexivity.
Qed.

Lemma readString_loop_plain_run (body : list byte) :
  forall (fuel : nat) (s : Lexer),
    slice (input s) (end_ s) (end_ s + len body) = Return body ->
    Forall (fun b => is_plain b = true) body ->
    (remaining s <= fuel)%nat ->
    exists fuel',
      (remaining (advance (len body) (len body) s) <= fuel')%nat
      /\ readString_loop fuel None s
         = readString_loop fuel' None (advance (len body) (len body) s).
Proof.
  induction body as [|b rest IH]; intros fuel s Sl F Rm.
  - change (len (@nil byte)) with 0. rewrite advance_0. eauto.
  - assert (L : len (b :: rest) = 1 + len rest)
      by (unfold len; simpl length; lia).
    rewrite L in *. pose proof (len_nonneg rest) as N.
    assert (I : index (input s) (end_ s) = Return b).
    { rewrite <- (Z.add_0_r (end_ s)).
      eapply slice_index; [exact Sl | lia | reflexivity]. }
    destruct (slice_cons _ _ _ _ _ I Sl ltac:(lia)) as (rest' & Eq & Sl').
    injection Eq as <-.
    pose proof (index_Return _ _ _ I) as [R _].
    destruct fuel as [|fuel]; [unfold remaining in Rm; lia|].
    inversion F as [|? ? Pb Fr]; subst.
    rewrite (readString_loop_plain_step _ _ _ I Pb).
    destruct (IH fuel (advance 1 1 s)) as (fuel' & Rm' & E).
    + simpl. replace (end_ s + 1 + len rest) with (end_ s + (1 + len rest)) by lia.
      exact Sl'.
    + exact Fr.
    + apply remaining_advance; [exact Rm | lia].
    + rewrite advance_advance in Rm', E. exists fuel'. split; assumption.
Qed.

Lemma starts_with3_false (lit : list byte) (s : Lexer) :
  0 <= start s ->
  (forall q, slice (input s) (start s) (start s + 3) = Return q -> q <> lit) ->
  starts_with3 lit s = Return false.
Proof.
  intros N H. unfold starts_with3, and_then.
  destruct (start s + 2 <? len (input s)) eqn:C; [| reflexivity].
  apply Z.ltb_lt in C. unfold slice in *.
  replace ((0 <=? start s) && (start s <=? start s + 3)
           && (start s + 3 <=? len (input s))) with true in *
    by (symmetry; rewrite !andb_true_iff; repeat split; apply Z.leb_le; lia).
  cbn [bind]. f_equal.
  destruct (bytes_eqb _ lit) eqn:B; [| reflexivity].
  apply bytes_eqb_eq in B. exfalso. eapply H; [reflexivity | exact B].
Qed.

Lemma not_triple_quote (bs : list byte) (i : Z) :
  index bs (i + 1) <> Return x22 \/ index bs (i + 2) <> Return x22 ->
  forall q, slice bs i (i + 3) = Return q -> q <> triple_quote.
Proof.
  intros H q Sl ->. destruct H as [H|H]; apply H.
  - eapply slice_index; [exact Sl | lia | reflexivity].
  - eapply slice_index; [exact Sl | lia | reflexivity].
Qed.

(** Up to the end of a body of plain characters, [ReadToken] is the loop of
    [readString] at the byte behind the body. *)
Lemma ReadToken_plain_body (s s1 : Lexer) (body : list byte) :
  peeked s = false -> ws s = Return s1 ->
  slice (input s1) (end_ s1) (end_ s1 + 1 + len body) = Return (x22 :: body) ->
  Forall (fun b => is_plain b = true) body ->
  index (input s1) (end_ s1 + 1) <> Return x22
  \/ index (input s1) (end_ s1 + 2) <> Return x22 ->
  let s0 := advance (len body) (len body)
                    (advanceStart 1 1 (advance 1 1 (syncStart s1))) in
  slice (input s1) (end_ s1 + 1) (end_ s1 + 1 + len body) = Return body
  /\ exists fuel,
      (remaining s0 <= fuel)%nat
      /\ ReadToken s
         = ('(s0', t, e) <- readString_loop fuel None s0 ;;
            Return (set_lastToken t s0', t, e)).
Proof.
  intros P W Sl F NT s0. pose proof (len_nonneg body) as N.
  assert (I : index (input s1) (end_ s1) = Return x22).
  { rewrite <- (Z.add_0_r (end_ s1)).
    eapply slice_index; [exact Sl | lia | reflexivity]. }
  destruct (slice_cons _ _ _ _ _ I Sl ltac:(lia)) as (rest' & Eq & Sl').
  injection Eq as <-. split; [exact Sl'|].
  pose proof (index_Return _ _ _ I) as [R _].
  rewrite (ReadToken_dispatch _ _ _ P W I) by discriminate.
  change (classify x22) with CQuote. cbn [scan_class].
  rewrite starts_with3_false;
    [| simpl; lia | simpl; apply not_triple_quote; exact NT].
  cbn [bind]. unfold readString.
  destruct (readString_loop_plain_run body
              (remaining (advanceStart 1 1 (advance 1 1 (syncStart s1))))
              (advanceStart 1 1 (advance 1 1 (syncStart s1))))
    as (fuel' & Rm & E); [exact Sl' | exact F | lia |].
  exists fuel'. split; [exact Rm|]. rewrite E. reflexivity.
Qed.

(** A double quote and plain characters up to a line break or to the end of
    the input are not a string: [ReadToken] reports [Unterminated string.]
    with an [Invalid] token that starts behind the opening quote, and leaves
    the cursor at the line break. *)
Theorem unterminated_string (s s1 : Lexer) (body : list byte) :
  peeked s = false -> ws s = Return s1 ->
  slice (input s1) (end_ s1) (end_ s1 + 1 + len body) = Return (x22 :: body) ->
  Forall (fun b => is_plain b = true) body ->
  end_ s1 + 1 + len body = len (input s1)
  \/ index (input s1) (end_ s1 + 1 + len body) = Return x0a
  \/ index (input s1) (end_ s1 + 1 + len body) = Return x0d ->
  exists s',
    ReadToken s
    = Return (s',
              mkToken Invalid (endRunes s1 + 1) (endRunes s1 + 1 + len body) []
                      (line s1)
                      (endRunes s1 + 1 + len body - lineStartRunes s1 + 1),
              Some msg_unterminated)
    /\ end_ s' = end_ s1 + 1 + len body.
Proof.
  intros P W Sl F Q. pose proof (len_nonneg body) as N.
  pose proof (slice_Return _ _ _ _ Sl) as (R1 & R2 & _).
  assert (NT : index (input s1) (end_ s1 + 1) <> Return x22
               \/ index (input s1) (end_ s1 + 2) <> Return x22).
  { left. destruct body as [|b rest].
    - change (len (@nil byte)) with 0 in Q.
      replace (end_ s1 + 1 + 0) with (end_ s1 + 1) in Q by lia.
      destruct Q as [Q | [Q | Q]]; [| rewrite Q; discriminate ..].
      intros X. apply index_Return in X. lia.
    - replace (index (input s1) (end_ s1 + 1)) with (Return (A := byte) b).
      + inversion F; subst. intros X. injection X as ->. discriminate.
      + symmetry. eapply slice_index; [exact Sl | | reflexivity].
        unfold len in *. simpl length in *. lia. }
  destruct (ReadToken_plain_body _ _ _ P W Sl F NT) as (Sb & fuel & Rm & ->).
  set (s0 := advance (len body) (len body)
                     (advanceStart 1 1 (advance 1 1 (syncStart s1)))) in *.
  assert (E0 : end_ s0 = end_ s1 + 1 + len body) by (simpl; lia).
  assert (G : readString_loop fuel None s0 = makeError msg_unterminated s0).
  { destruct Q as [Q | Q].
    - destruct fuel; cbn [readString_loop];
        replace (end_ s0 <? len (input s0)) with false
          by (symmetry; apply Z.ltb_ge; change (input s0) with (input s1); lia);
        reflexivity.
    - assert (exists r, index (input s1) (end_ s1 + 1 + len body) = Return r
                        /\ (r = x0a \/ r = x0d)) as (r & I & Br)
        by (destruct Q as [Q|Q]; eauto).
      pose proof (index_Return _ _ _ I) as [R _].
      destruct fuel as [|fuel];
        [unfold remaining in Rm; change (input s0) with (input s1) in Rm; lia|].
      cbn [readString_loop].
      replace (end_ s0 <? len (input s0)) with true
        by (symmetry; apply Z.ltb_lt; change (input s0) with (input s1); lia).
      change (input s0) with (input s1). rewrite E0, I. cbn [bind].
      destruct Br as [-> | ->]; reflexivity. }
  rewrite G. unfold makeError. cbn [bind].
  eexists. split.
  - reflexivity.
  - simpl. lia.
Qed.

(** ** The scanners do not read the cache *)

Ltac rc_norm :=
  repeat match goal with
  | |- context [input (recache ?a ?b ?c ?x)] =>
    change (input (recache a b c x)) with (input x)
  | |- context [end_ (recache ?a ?b ?c ?x)] =>
    change (end_ (recache a b c x)) with (end_ x)
  | |- context [start (recache ?a ?b ?c ?x)] =>
    change (start (recache a b c x)) with (start x)
  | |- context [peeked (recache ?a ?b ?c ?x)] =>
    change (peeked (recache a b c x)) with (peeked x)
  | |- context [advance ?m ?n (recache ?a ?b ?c ?x)] =>
    change (advance m n (recache a b c x)) with (recache a b c (advance m n x))
  | |- context [advanceStart ?m ?n (recache ?a ?b ?c ?x)] =>
    change (advanceStart m n (recache a b c x))
      with (recache a b c (advanceStart m n x))
  | |- context [syncStart (recache ?a ?b ?c ?x)] =>
    change (syncStart (recache a b c x)) with (recache a b c (syncStart x))
  | |- context [newline (recache ?a ?b ?c ?x)] =>
    change (newline (recache a b c x)) with (recache a b c (newline x))
  | |- context [peek (recache ?a ?b ?c ?x)] =>
    change (peek (recache a b c x)) with (peek x)
  | |- context [describeNext (recache ?a ?b ?c ?x)] =>
    change (describeNext (recache a b c x)) with (describeNext x)
  | |- context [starts_with3 ?l (recache ?a ?b ?c ?x)] =>
    change (starts_with3 l (recache a b c x)) with (starts_with3 l x)
  | |- context [remaining (recache ?a ?b ?c ?x)] =>
    change (remaining (recache a b c x)) with (remaining x)
  end.

Section Frame.

Variables (pt : Token) (pe : error) (lt : Token).

Lemma ws_loop_frame (fuel : nat) (s s' : Lexer) :
  ws_loop fuel s = Return s' ->
  ws_loop fuel (recache pt pe lt s) = Return (recache pt pe lt s').
Proof.
  revert s s'. induction fuel as [|fuel IH]; intros s s' H;
    cbn [ws_loop] in *; rc_norm;
    (destruct (end_ s <? len (input s)) eqn:C;
     [| injection H as <-; reflexivity]).
  - discriminate.
  - inv_bind H. rewrite E. cbn [bind]. cbv zeta in *.
    destruct a;
      try solve [ injection H as <-; reflexivity
                | rc_norm; apply IH; exact H
                | inv_bind H; rc_norm; rewrite E0; cbn [bind];
                  destruct a;
                  [ rc_norm; apply IH; exact H
                  | first [ injection H as <-; reflexivity
                          | rc_norm; apply IH; exact H ] ] ].
Qed.

Lemma ws_frame (s s' : Lexer) :
  ws s = Return s' ->
  ws (recache pt pe lt s) = Return (recache pt pe lt s').
Proof. apply ws_loop_frame. Qed.

Lemma readComment_loop_frame (fuel : nat) (s s' : Lexer) :
  readComment_loop fuel s = Return s' ->
  readComment_loop fuel (recache pt pe lt s) = Return (recache pt pe lt s').
Proof.
  revert s s'. induction fuel as [|fuel IH]; intros s s' H;
    cbn [readComment_loop] in *; rc_norm;
    (destruct (end_ s <? len (input s)) eqn:C;
     [| injection H as <-; reflexivity]).
  - discriminate.
  - inv_bind H. rewrite E. cbn [bind]. destruct a as [r w].
    destruct ((31 <? r) || (r =? 9)).
    + rc_norm. apply IH. exact H.
    + injection H as <-. reflexivity.
Qed.

Lemma readName_loop_frame (fuel : nat) (s s' : Lexer) :
  readName_loop fuel s = Return s' ->
  readName_loop fuel (recache pt pe lt s) = Return (recache pt pe lt s').
Proof.
  revert s s'. induction fuel as [|fuel IH]; intros s s' H;
    cbn [readName_loop] in *; rc_norm;
    (destruct (end_ s <? len (input s)) eqn:C;
     [| injection H as <-; reflexivity]).
  - discriminate.
  - inv_bind H. rewrite E. cbn [bind]. destruct a as [r w].
    destruct (is_name_rune r).
    + rc_norm. apply IH. exact H.
    + injection H as <-. reflexivity.
Qed.

Lemma makeToken_frame (k : TokenType) (s s' : Lexer) (t : Token) (e : error) :
  makeToken k s = Return (s', t, e) ->
  makeToken k (recache pt pe lt s) = Return (recache pt pe lt s', t, e).
Proof.
  unfold makeToken. intros H. rc_norm. inv_bind H. rewrite E. cbn [bind].
  injection H as <- <- <-. reflexivity.
Qed.

Lemma makeError_frame (m : list byte) (s s' : Lexer) (t : Token) (e : error) :
  makeError m s = Return (s', t, e) ->
  makeError m (recache pt pe lt s) = Return (recache pt pe lt s', t, e).
Proof.
  unfold makeError. intros H. injection H as <- <- <-. reflexivity.
Qed.

Lemma readComment_frame (s s' : Lexer) (t : Token) (e : error) :
  readComment s = Return (s', t, e) ->
  readComment (recache pt pe lt s) = Return (recache pt pe lt s', t, e).
Proof.
  unfold readComment. intros H. inv_bind H. rc_norm.
  rewrite (readComment_loop_frame _ _ _ E). cbn [bind].
  apply makeToken_frame. exact H.
Qed.

Lemma readName_frame (s s' : Lexer) (t : Token) (e : error) :
  readName s = Return (s', t, e) ->
  readName (recache pt pe lt s) = Return (recache pt pe lt s', t, e).
Proof.
  unfold readName. intros H. inv_bind H. rc_norm.
  rewrite (readName_loop_frame _ _ _ E). cbn [bind].
  apply makeToken_frame. exact H.
Qed.

Lemma acceptByte_frame (accepted : list byte) (s s' : Lexer) (hit : bool) :
  acceptByte accepted s = Return (s', hit) ->
  acceptByte accepted (recache pt pe lt s) = Return (recache pt pe lt s', hit).
Proof.
  unfold acceptByte. rc_norm. destruct (len (input s) <=? end_ s).
  - intros H. injection H as <- <-. reflexivity.
  - induction accepted as [|a rest IH]; cbn [acceptByte_range]; intros H.
    + injection H as <- <-. reflexivity.
    + rc_norm. inv_bind H. rewrite E. cbn [bind]. destruct a0.
      * injection H as <- <-. reflexivity.
      * apply IH. exact H.
Qed.

Lemma acceptDigits_loop_frame (fuel : nat) (c : Z) (s s' : Lexer) (c' : Z) :
  acceptDigits_loop fuel c s = Return (s', c') ->
  acceptDigits_loop fuel c (recache pt pe lt s)
  = Return (recache pt pe lt s', c').
Proof.
  revert c s. induction fuel as [|fuel IH]; intros c s H;
    cbn [acceptDigits_loop] in *; rc_norm;
    inv_bind H; rewrite E; cbn [bind]; destruct a;
    try discriminate; try (injection H as <- <-; reflexivity).
  rc_norm. apply IH. exact H.
Qed.

Lemma acceptDigits_frame (s s' : Lexer) (c : Z) :
  acceptDigits s = Return (s', c) ->
  acceptDigits (recache pt pe lt s) = Return (recache pt pe lt s', c).
Proof. apply acceptDigits_loop_frame. Qed.

Ltac frame_error H :=
  inv_bind H; rc_norm;
  match goal with
  | X : describeNext _ = Return _ |- _ => rewrite X; cbn [bind]
  end;
  apply makeError_frame; exact H.

Lemma readNumber_exponent_frame (float : bool) (s s' : Lexer) (t : Token) (e : error) :
  readNumber_exponent float s = Return (s', t, e) ->
  readNumber_exponent float (recache pt pe lt s)
  = Return (recache pt pe lt s', t, e).
Proof.
  unfold readNumber_exponent. intros H.
  inv_bind H. destruct a as [s1 hit].
  rewrite (acceptByte_frame _ _ _ _ E). cbn [bind].
  destruct hit.
  - inv_bind H. destruct a as [s2 sign].
    rewrite (acceptByte_frame _ _ _ _ E0). cbn [bind].
    inv_bind H. destruct a as [s3 c].
    rewrite (acceptDigits_frame _ _ _ E1). cbn [bind].
    destruct (c =? 0); [frame_error H | apply makeToken_frame; exact H].
  - destruct float; apply makeToken_frame; exact H.
Qed.

Lemma readNumber_fraction_frame (s s' : Lexer) (t : Token) (e : error) :
  readNumber_fraction s = Return (s', t, e) ->
  readNumber_fraction (recache pt pe lt s) = Return (recache pt pe lt s', t, e).
Proof.
  unfold readNumber_fraction. intros H.
  inv_bind H. destruct a as [s1 hit].
  rewrite (acceptByte_frame _ _ _ _ E). cbn [bind].
  destruct hit.
  - inv_bind H. destruct a as [s2 c].
    rewrite (acceptDigits_frame _ _ _ E0). cbn [bind].
    destruct (c =? 0);
      [frame_error H | apply readNumber_exponent_frame; exact H].
  - apply readNumber_exponent_frame; exact H.
Qed.

Lemma readNumber_frame (s s' : Lexer) (t : Token) (e : error) :
  readNumber s = Return (s', t, e) ->
  readNumber (recache pt pe lt s) = Return (recache pt pe lt s', t, e).
Proof.
  unfold readNumber. cbv zeta. intros H. rc_norm.
  inv_bind H. destruct a as [s1 minus].
  rewrite (acceptByte_frame _ _ _ _ E). cbn [bind].
  inv_bind H. destruct a as [s2 zero].
  rewrite (acceptByte_frame _ _ _ _ E0). cbn [bind].
  inv_bind H. destruct a as [s3 c].
  rewrite (acceptDigits_frame _ _ _ E1). cbn [bind].
  destruct zero.
  - destruct (negb (c =? 0));
      [frame_error H | apply readNumber_fraction_frame; exact H].
  - destruct (c =? 0);
      [frame_error H | apply readNumber_fraction_frame; exact H].
Qed.

Lemma unexpectedCharacter_frame (r : byte) (s s' : Lexer) (t : Token) (e : error) :
  unexpectedCharacter r s = Return (s', t, e) ->
  unexpectedCharacter r (recache pt pe lt s)
  = Return (recache pt pe lt s', t, e).
Proof.
  unfold unexpectedCharacter. cbv zeta. intros H. rc_norm.
  destruct ((bz r <? 32) && negb (bz r =? 9) && negb (bz r =? 10)
            && negb (bz r =? 13));
    [| destruct (Byte.eqb r x27)]; apply makeError_frame; exact H.
Qed.

Lemma readString_loop_frame (fuel : nat) (buf : option (list byte))
      (s s' : Lexer) (t : Token) (e : error) :
  readString_loop fuel buf s = Return (s', t, e) ->
  readString_loop fuel buf (recache pt pe lt s)
  = Return (recache pt pe lt s', t, e).
Proof.
  revert buf s. induction fuel as [|fuel IH]; intros buf s H;
    cbn [readString_loop] in *; cbv zeta in *; rc_norm;
    (destruct (end_ s <? len (input s)) eqn:C;
     [| apply makeError_frame; exact H]).
  - discriminate.
  - inv_bind H. rename a into r. rewrite E. cbn [bind].
    destruct (Byte.eqb r x0a || Byte.eqb r x0d);
      [apply makeError_frame; exact H|].
    destruct ((bz r <? 32) && negb (Byte.eqb r x09));
      [apply makeError_frame; exact H|].
    destruct r;
      try solve [ inv_bind H; rewrite E0; cbn [bind]; destruct a as [char w];
                  rc_norm; apply IH; exact H ].
    + inv_bind H. destruct a as [[s0 t0] e0].
      rewrite (makeToken_frame _ _ _ _ _ E0). cbn [bind].
      injection H as <- <- <-. reflexivity.
    + destruct (len (input s) <=? end_ s + 1);
        [rc_norm; apply makeError_frame; exact H|].
      inv_bind H. rename a into b.
      rewrite E0. cbn [bind].
      inv_bind H. rename a into escape. rewrite E1. cbn [bind].
      destruct (Byte.eqb escape x75).
      * destruct (len (input s) <=? end_ s + 6).
        -- inv_bind H. rc_norm. rewrite E2. cbn [bind].
           apply makeError_frame; exact H.
        -- inv_bind H. rewrite E2. cbn [bind]. destruct (unhex a).
           ++ rc_norm. apply IH. exact H.
           ++ inv_bind H. rc_norm. rewrite E3. cbn [bind].
              apply makeError_frame; exact H.
      * destruct (escape_byte escape).
        -- rc_norm. apply IH. exact H.
        -- rc_norm. apply makeError_frame; exact H.
Qed.

Lemma readString_frame (s s' : Lexer) (t : Token) (e : error) :
  readString s = Return (s', t, e) ->
  readString (recache pt pe lt s) = Return (recache pt pe lt s', t, e).
Proof.
  unfold readString. cbv zeta. intros H. rc_norm.
  apply readString_loop_frame. exact H.
Qed.

Lemma readBlockString_loop_frame (fuel : nat) (buf : list byte)
      (s s' : Lexer) (t : Token) (e : error) :
  readBlockString_loop fuel buf s = Return (s', t, e) ->
  readBlockString_loop fuel buf (recache pt pe lt s)
  = Return (recache pt pe lt s', t, e).
Proof.
  revert buf s. induction fuel as [|fuel IH]; intros buf s H;
    cbn [readBlockString_loop] in *; cbv zeta in *; rc_norm;
    (destruct (end_ s <? len (input s)) eqn:C;
     [| apply makeError_frame; exact H]).
  - discriminate.
  - inv_bind H. rename a into r. rewrite E. cbn [bind].
    inv_bind H. rename a into closing. rewrite E0. cbn [bind].
    destruct closing.
    + inv_bind H. destruct a as [[s0 t0] e0].
      rewrite (makeToken_frame _ _ _ _ _ E1). cbn [bind].
      injection H as <- <- <-. reflexivity.
    + destruct ((bz r <? 32) && negb (Byte.eqb r x09) && negb (Byte.eqb r x0a)
                && negb (Byte.eqb r x0d));
        [apply makeError_frame; exact H|].
      inv_bind H. rename a into escaped. rewrite E1. cbn [bind].
      destruct escaped; [rc_norm; apply IH; exact H|].
      destruct (Byte.eqb r x0d).
      * inv_bind H. rename a into lf. rewrite E2. cbn [bind].
        destruct lf; rc_norm; apply IH; exact H.
      * inv_bind H. destruct a as [char w]. rewrite E2. cbn [bind].
        rc_norm. apply IH. exact H.
Qed.

Lemma readBlockString_frame (s s' : Lexer) (t : Token) (e : error) :
  readBlockString s = Return (s', t, e) ->
  readBlockString (recache pt pe lt s) = Return (recache pt pe lt s', t, e).
Proof.
  unfold readBlockString. cbv zeta. intros H. rc_norm.
  apply readBlockString_loop_frame. exact H.
Qed.

Lemma scan_class_frame (c : byte_class) (r : byte)
      (s s' : Lexer) (t : Token) (e : error) :
  scan_class c r s = Return (s', t, e) ->
  scan_class c r (recache pt pe lt s) = Return (recache pt pe lt s', t, e).
Proof.
  destruct c; cbn [scan_class]; intros H.
  - apply makeToken_frame; exact H.
  - apply readName_frame; exact H.
  - apply readNumber_frame; exact H.
  - inv_bind H. rc_norm. rewrite E. cbn [bind].
    destruct a; [apply readBlockString_frame | apply readString_frame]; exact H.
  - inv_bind H. rc_norm. rewrite E. cbn [bind].
    destruct a; [rc_norm; apply makeToken_frame | apply unexpectedCharacter_frame];
      exact H.
  - discriminate.
  - apply unexpectedCharacter_frame; exact H.
Qed.

End Frame.

Lemma ReadToken_fuel_frame (pt : Token) (pe : error) (lt : Token) (fuel : nat) :
  forall (s s' : Lexer) (t : Token) (e : error),
    peeked s = false -> ReadToken_fuel fuel s = Return (s', t, e) ->
    ReadToken_fuel fuel (recache pt pe lt s)
    = Return (recache pt pe t s', t, e).
Proof.
  induction fuel as [|fuel IH]; intros s s' t e P H;
    cbn [ReadToken_fuel] in *; [discriminate|].
  rc_norm. rewrite P in *. inv_bind H. destruct a as [[s0 t0] e0].
  injection H as <- <- <-.
  match goal with
  | |- bind ?body _ = _ =>
    assert (G : exists x, body = Return (x, t0, e0)
                          /\ set_lastToken t0 x
                             = recache pt pe t0 (set_lastToken t0 s0))
  end.
  { inv_bind E. rename a into s1. rewrite (ws_frame pt pe lt _ _ E0).
    cbn [bind]. cbv zeta in *. rc_norm.
    destruct (len (input (syncStart s1)) <=? end_ (syncStart s1)) eqn:C.
    - exists (recache pt pe lt s0).
      split; [apply makeToken_frame; exact E | reflexivity].
    - inv_bind E. rename a into r. rewrite E1. cbn [bind].
      destruct (classify r) eqn:Cl;
        try solve [ exists (recache pt pe lt s0); split; [| reflexivity];
                    destruct r; try discriminate Cl;
                    match type of E1 with
                    | _ = Return ?b =>
                      exact (scan_class_frame pt pe lt (classify b) b _ _ _ _ E)
                    end ].
      assert (r = x23) by (destruct r; try discriminate Cl; reflexivity).
      subst r. inv_bind E. destruct a as [[s4 tc] ec].
      assert (P4 : peeked s4 = false).
      { apply readComment_moved in E2. destruct E2 as (Sh & _).
        apply shell_peeked in Sh. simpl in Sh.
        apply ws_scan in E0. destruct E0 as (Sh0 & _).
        apply shell_peeked in Sh0. congruence. }
      rc_norm. rewrite (readComment_frame pt pe lt _ _ _ _ E2). cbn [bind].
      exists (recache pt pe t0 s0).
      split; [apply IH; assumption | reflexivity]. }
  destruct G as (x & -> & X). cbn [bind]. rewrite X. reflexivity.
Qed.

Lemma ReadToken_frame (pt : Token) (pe : error) (lt : Token)
      (s s' : Lexer) (t : Token) (e : error) :
  peeked s = false -> ReadToken s = Return (s', t, e) ->
  ReadToken (recache pt pe lt s) = Return (recache pt pe t s', t, e).
Proof. apply ReadToken_fuel_frame. Qed.

Lemma read_n_frame (n : nat) :
  forall (s : Lexer) (pt : Token) (pe : error) (lt : Token) (ts : list Token),
    peeked s = false -> read_n n s = Return ts ->
    read_n n (recache pt pe lt s) = Return ts.
Proof.
  induction n as [|n IH]; intros s pt pe lt ts P H; cbn [read_n] in *;
    [exact H|].
  inv_bind H. destruct a as [[s0 t0] e0].
  rewrite (ReadToken_frame pt pe lt _ _ _ _ P E). cbn [bind].
  inv_bind H.
  pose proof (ReadToken_fresh _ _ _ _ P E) as ((_ & P0 & _) & _).
  rewrite (IH s0 pt pe t0 a); [exact H | congruence | exact E0].
Qed.

Lemma recache_back (pt : Token) (pe : error) (lt : Token) (s : Lexer) :
  recache (peekToken s) (peekError s) (lastToken s) (recache pt pe lt s) = s.
Proof. destruct s. reflexivity. Qed.

(** The tokens that [ReadToken] returns do not depend on what the fields
    [peekToken], [peekError] and [lastToken] hold while the cache is
    empty. *)
Lemma read_n_recache (n : nat) (s : Lexer) (pt : Token) (pe : error) (lt : Token)
      (ts : list Token) :
  peeked s = false ->
  read_n n (recache pt pe lt s) = Return ts <-> read_n n s = Return ts.
Proof.
  intros P. split; intros H.
  - rewrite <- (recache_back pt pe lt s). apply read_n_frame; assumption.
  - apply read_n_frame; assumption.
Qed.

(** Peeking changes no token: after [PeekToken], any number of calls of
    [ReadToken] return the tokens they would have returned without it. *)
Theorem PeekToken_changes_no_token
        (s s1 : Lexer) (t : Token) (n : nat) (ts : list Token) :
  PeekToken s = Return (s1, t) ->
  read_n n s1 = Return ts <-> read_n n s = Return ts.
Proof.
  intros H. destruct (peeked s) eqn:P.
  - apply (PeekToken_cached _ _ _ P) in H. destruct H as [-> _]. tauto.
  - apply (PeekToken_fresh _ _ _ P) in H. destruct H as (s0 & e & R & ->).
    destruct n as [|n]; [tauto|]. cbn [read_n].
    rewrite R, ReadToken_peeked by reflexivity. cbn [bind].
    pose proof (ReadToken_fresh _ _ _ _ P R) as ((_ & P0 & _) & _).
    assert (P0' : peeked s0 = false) by congruence.
    assert (X : set_lastToken (peekToken (set_peeked true (set_peek t e s0)))
                  (set_peeked false (set_peeked true (set_peek t e s0)))
                = recache t e t s0).
    { clear - P0'. destruct s0. simpl in P0'. subst. reflexivity. }
    rewrite X.
    split; intros G; inv_bind G;
      apply (read_n_recache n s0 t e t a P0') in E; rewrite E; exact G.
Qed.

(** ** Every token consumes input *)

Lemma readNumber_progress (s s' : Lexer) (t : Token) (e : error) :
  readNumber s = Return (s', t, e) -> Kind t <> Invalid ->
  end_ s <= end_ s' /\ endRunes s <= endRunes s'.
Proof.
  unfold readNumber. cbv zeta. intros H N.
  inv_bind H. destruct a as [s1 minus]. apply acceptByte_spec in E.
  inv_bind H. destruct a as [s2 zero]. apply acceptByte_spec in E0.
  inv_bind H. destruct a as [s3 c]. apply acceptDigits_spec in E1.
  destruct E1 as (k & Ck & -> & _).
  assert (A1 : end_ s - 1 <= end_ s1 /\ endRunes s - 1 <= endRunes s1)
    by (destruct minus; [destruct E as (-> & _) | subst s1]; simpl; lia).
  assert (Err : forall m x, makeError m x = Return (s', t, e) -> False)
    by (intros m x X; apply makeError_Return in X; destruct X as (_ & K & _);
        congruence).
  destruct zero.
  - destruct E0 as (-> & _).
    destruct (negb (c =? 0)); [inv_bind H; exfalso; eapply Err; eauto|].
    apply readNumber_fraction_moved in H.
    destruct H as ((_ & _ & _ & _ & _ & M1 & M2) & _). simpl in M1, M2. lia.
  - subst s2. destruct (c =? 0) eqn:C; [inv_bind H; exfalso; eapply Err; eauto|].
    apply Z.eqb_neq in C.
    apply readNumber_fraction_moved in H.
    destruct H as ((_ & _ & _ & _ & _ & M1 & M2) & _). simpl in M1, M2. lia.
Qed.

Lemma scan_class_progress (r : byte) (s2 s0 : Lexer) (t : Token) (e : error) :
  scan_class (classify r) r (advance 1 1 s2) = Return (s0, t, e) ->
  Kind t <> Invalid ->
  end_ s2 < end_ s0 /\ endRunes s2 < endRunes s0
  /\ (Kind t = String -> startRunes s0 = startRunes s2 + 1)
  /\ (Kind t = BlockString -> startRunes s0 = startRunes s2 + 3)
  /\ (Kind t <> String -> Kind t <> BlockString ->
      startRunes s0 = startRunes s2 /\ start s0 = start s2).
Proof.
  intros H N.
  assert (G : forall x, moved x s0 ->
                end_ s2 < end_ x -> endRunes s2 < endRunes x ->
                end_ s2 < end_ s0 /\ endRunes s2 < endRunes s0
                /\ startRunes s0 = startRunes x /\ start s0 = start x)
    by (intros x (_ & M1 & M2 & _ & _ & M5 & M6) A B; intuition lia).
  destruct (classify r) as [k| | | | | |] eqn:C; cbn [scan_class] in H.
  - pose proof (punct_kind _ (classify_punct _ _ C)) as (N1 & N2 & N3 & N4 & N5).
    apply makeToken_shaped in H; auto. destruct H as (-> & K & _).
    simpl. rewrite K. intuition (try congruence; lia).
  - apply readName_moved in H. destruct H as (M & _ & K).
    destruct (G _ M) as (A & B & S1 & S2); simpl; try lia.
    simpl in S1, S2. rewrite K.
    intuition (try discriminate; try congruence; lia).
  - pose proof (readNumber_progress _ _ _ _ H N) as (A & B).
    apply readNumber_moved in H. destruct H as (M & _ & K).
    rewrite rewind in M. destruct M as (_ & M1 & M2 & _). simpl in A, B.
    destruct K as [K|[K|K]]; [| |contradiction]; rewrite K;
      intuition (try discriminate; try congruence; lia).
  - inv_bind H. destruct a.
    + apply readBlockString_loop_moved in H. destruct H as (M & _ & K).
      destruct (G _ M) as (A & B & S1 & S2); simpl; try lia.
      simpl in S1, S2. destruct K as [K|K]; [|contradiction]. rewrite K.
      intuition (try discriminate; try congruence; lia).
    + apply readString_loop_moved in H. destruct H as (M & _ & K).
      destruct (G _ M) as (A & B & S1 & S2); simpl; try lia.
      simpl in S1, S2. destruct K as [K|K]; [|contradiction]. rewrite K.
      intuition (try discriminate; try congruence; lia).
  - inv_bind H. destruct a.
    + apply makeToken_shaped in H; try discriminate.
      destruct H as (-> & K & _). simpl. rewrite K.
      intuition (try discriminate; try congruence; lia).
    + apply unexpectedCharacter_shaped in H. destruct H as (_ & K & _).
      contradiction.
  - discriminate.
  - apply unexpectedCharacter_shaped in H. destruct H as (_ & K & _).
    contradiction.
Qed.

Lemma token_nonempty_fresh (s s' : Lexer) (t : Token) (e : error) :
  peeked s = false -> ReadToken s = Return (s', t, e) ->
  Kind t <> Invalid -> Kind t <> EOF ->
  end_ s < end_ s' /\ Start t < End_ t
  /\ (Kind t <> String -> Kind t <> BlockString -> Value t <> []).
Proof.
  intros P H N1 N2. apply (ReadToken_fuel_cases _ _ _ _ _ P) in H.
  destruct H as (s2 & s0 & TS & -> & D).
  apply token_start_props in TS.
  destruct TS as (T0 & T1 & T2 & T3 & T4 & T5 & T6).
  destruct D as [(C & H) | (r & I & H)].
  - apply makeToken_Return in H. destruct H as (_ & K & _). congruence.
  - pose proof (scan_class_progress _ _ _ _ _ H N1) as (A & B & C1 & C2 & C3).
    apply (scan_class_spec _ _ _ _ _ T3 T4) in H.
    destruct H as ((_ & _ & _ & _ & (S1 & _ & S3) & _) & _).
    cbn [end_ set_lastToken]. split; [lia|].
    destruct (Kind t) eqn:K; try congruence;
      try (destruct S3 as (_ & S3 & _ & Sl);
           destruct C3 as (C3 & C4); [discriminate | discriminate |];
           split; [lia|]; intros _ _ V; rewrite V in Sl;
           apply slice_length in Sl; change (len (@nil byte)) with 0 in Sl; lia).
    + destruct S3 as (_ & S3 & _). specialize (C1 eq_refl).
      split; [lia|]. intros X. congruence.
    + destruct S3 as (_ & S3 & _). specialize (C2 eq_refl).
      split; [lia|]. intros _ X. congruence.
Qed.

(** Every token other than [EOF] and [Invalid] is not empty: it ends after
    it starts, and unless it is a string its value has at least one byte;
    and the call of [ReadToken] that scans it moves the cursor forward. *)
Theorem token_is_not_empty
        (inp : list byte) (s s' : Lexer) (t : Token) (e : error) :
  reachable inp s -> ReadToken s = Return (s', t, e) ->
  Kind t <> Invalid -> Kind t <> EOF ->
  Start t < End_ t
  /\ (Kind t <> String -> Kind t <> BlockString -> Value t <> [])
  /\ (peeked s = false -> end_ s < end_ s').
Proof.
  intros R H N1 N2.
  assert (A : Start t < End_ t
              /\ (Kind t <> String -> Kind t <> BlockString -> Value t <> [])).
  { revert N1 N2.
    apply (reachable_read_ind
             (fun s' t e =>
                Kind t <> Invalid -> Kind t <> EOF ->
                Start t < End_ t
                /\ (Kind t <> String -> Kind t <> BlockString -> Value t <> [])))
      with (inp := inp) (s := s) (s' := s') (e := e); auto.
    intros x x' t0 e0 P0 H0 M1 M2.
    destruct (token_nonempty_fresh _ _ _ _ P0 H0 M1 M2) as (_ & B). exact B. }
  destruct A as (A1 & A2). split; [exact A1|]. split; [exact A2|].
  intros P. destruct (token_nonempty_fresh _ _ _ _ P H N1 N2) as (B & _).
  exact B.
Qed.

(** ** Strings with escape sequences *)

Lemma slice_app_inv (bs q1 q2 : list byte) (a c : Z) :
  slice bs a c = Return (q1 ++ q2) ->
  slice bs a (a + len q1) = Return q1
  /\ slice bs (a + len q1) c = Return q2.
Proof.
  intros S. pose proof (slice_length _ _ _ _ S) as L.
  apply slice_Return in S. destruct S as (R1 & R2 & E).
  unfold slice. unfold len in *. rewrite length_app in L.
  replace ((0 <=? a) && (a <=? a + Z.of_nat (length q1))
           && (a + Z.of_nat (length q1) <=? Z.of_nat (length bs))) with true
    by (symmetry; rewrite !andb_true_iff; repeat split; apply Z.leb_le; lia).
  replace ((0 <=? a + Z.of_nat (length q1)) && (a + Z.of_nat (length q1) <=? c)
           && (c <=? Z.of_nat (length bs))) with true
    by (symmetry; rewrite !andb_true_iff; repeat split; apply Z.leb_le; lia).
  split; f_equal.
  - replace (Z.to_nat (a + Z.of_nat (length q1) - a)) with (length q1) by lia.
    apply (f_equal (firstn (length q1))) in E.
    rewrite firstn_app, Nat.sub_diag, firstn_all, firstn_O, app_nil_r in E.
    rewrite firstn_firstn in E.
    replace (Nat.min (length q1) (Z.to_nat (c - a))) with (length q1) in E by lia.
    symmetry. exact E.
  - apply (f_equal (skipn (length q1))) in E.
    rewrite skipn_app, Nat.sub_diag, skipn_all, skipn_O in E. simpl in E.
    rewrite skipn_firstn_comm, skipn_skipn in E.
    rewrite E. f_equal; [lia|]. f_equal. lia.
Qed.

Lemma readString_loop_plain_step_buf
      (fuel : nat) (buf : option (list byte)) (s : Lexer) (b : byte) :
  index (input s) (end_ s) = Return b -> is_plain b = true ->
  readString_loop (S fuel) buf s
  = readString_loop fuel (option_map (fun q => q ++ [b]) buf) (advance 1 1 s).
Proof.
  intros I P. pose proof (index_Return _ _ _ I) as [R _].
  cbn [readString_loop].
  replace (end_ s <? len (input s)) with true by (symmetry; apply Z.ltb_lt; lia).
  rewrite I. cbn [bind].
  destruct b; try discriminate P; destruct buf; reflexivity.
Qed.

Lemma readString_loop_escape_step
      (fuel : nat) (buf : option (list byte)) (s : Lexer) (c d : byte)
      (sofar : list byte) :
  index (input s) (end_ s) = Return x5c ->
  index (input s) (end_ s + 1) = Return c ->
  escape_byte c = Some d -> buffered buf s sofar ->
  readString_loop (S fuel) buf s
  = readString_loop fuel (Some (sofar ++ [d])) (advance 2 2 s).
Proof.
  intros I I1 Ec B. pose proof (index_Return _ _ _ I) as [R _].
  pose proof (index_Return _ _ _ I1) as [R1 _].
  cbn [readString_loop]. cbv zeta.
  replace (end_ s <? len (input s)) with true by (symmetry; apply Z.ltb_lt; lia).
  rewrite I. cbn [bind].
  change (Byte.eqb x5c x0a || Byte.eqb x5c x0d) with false.
  change ((bz x5c <? 32) && negb (Byte.eqb x5c x09)) with false.
  cbv iota.
  replace (len (input s) <=? end_ s + 1) with false
    by (symmetry; apply Z.leb_gt; lia).
  assert (Eb : match buf with
               | Some b => Return b
               | None => slice (input s) (start s) (end_ s)
               end = Return sofar)
    by (destruct buf; simpl in B; [subst; reflexivity | exact B]).
  rewrite Eb, I1. cbn [bind].
  destruct c; try discriminate Ec; injection Ec as <-; reflexivity.
Qed.

Lemma readString_loop_unicode_step
      (fuel : nat) (buf : option (list byte)) (s : Lexer) (ds : list byte)
      (u : Z) (sofar : list byte) :
  index (input s) (end_ s) = Return x5c ->
  index (input s) (end_ s + 1) = Return x75 ->
  slice (input s) (end_ s + 2) (end_ s + 6) = Return ds ->
  end_ s + 6 < len (input s) ->
  unhex ds = Some u -> buffered buf s sofar ->
  readString_loop (S fuel) buf s
  = readString_loop fuel (Some (sofar ++ EncodeRune u)) (advance 6 6 s).
Proof.
  intros I I1 Sd L U B. pose proof (index_Return _ _ _ I) as [R _].
  cbn [readString_loop]. cbv zeta.
  replace (end_ s <? len (input s)) with true by (symmetry; apply Z.ltb_lt; lia).
  rewrite I. cbn [bind].
  change (Byte.eqb x5c x0a || Byte.eqb x5c x0d) with false.
  change ((bz x5c <? 32) && negb (Byte.eqb x5c x09)) with false.
  cbv iota.
  replace (len (input s) <=? end_ s + 1) with false
    by (symmetry; apply Z.leb_gt; lia).
  assert (Eb : match buf with
               | Some b => Return b
               | None => slice (input s) (start s) (end_ s)
               end = Return sofar)
    by (destruct buf; simpl in B; [subst; reflexivity | exact B]).
  rewrite Eb, I1. cbn [bind].
  change (Byte.eqb x75 x75) with true. cbv iota.
  replace (len (input s) <=? end_ s + 6) with false
    by (symmetry; apply Z.leb_gt; lia).
  rewrite Sd. cbn [bind]. rewrite U. reflexivity.
Qed.

Lemma len_cons (b : byte) (l : list byte) : len (b :: l) = 1 + len l.
Proof. unfold len. simpl length. lia. Qed.

Lemma len_app (l1 l2 : list byte) : len (l1 ++ l2) = len l1 + len l2.
Proof. unfold len. rewrite length_app. lia. Qed.

Lemma readString_loop_body_run (raw v : list byte) :
  string_body raw v ->
  forall (fuel : nat) (buf : option (list byte)) (s : Lexer) (sofar : list byte),
    slice (input s) (end_ s) (end_ s + len raw) = Return raw ->
    end_ s + len raw < len (input s) ->
    buffered buf s sofar -> 0 <= start s <= end_ s ->
    (remaining s <= fuel)%nat ->
    exists fuel' buf',
      (remaining (advance (len raw) (len raw) s) <= fuel')%nat
      /\ buffered buf' (advance (len raw) (len raw) s) (sofar ++ v)
      /\ readString_loop fuel buf s
         = readString_loop fuel' buf' (advance (len raw) (len raw) s).
Proof.
  induction 1 as [| b raw v P Bd IH | c d raw v Ec Bd IH
                  | ds u raw v Ld U Bd IH];
    intros fuel buf s sofar Sl L B St Rm.
  - change (len (@nil byte)) with 0. rewrite advance_0, app_nil_r. eauto.
  - rewrite len_cons in *. pose proof (len_nonneg raw) as N.
    destruct (slice_app_inv _ [b] raw _ _ Sl) as (S1 & S2).
    change (len [b]) with 1 in S1, S2.
    assert (I : index (input s) (end_ s) = Return b).
    { rewrite <- (Z.add_0_r (end_ s)).
      eapply slice_index; [exact S1 | lia | reflexivity]. }
    destruct fuel as [|fuel]; [unfold remaining in Rm; lia|].
    rewrite (readString_loop_plain_step_buf _ _ _ _ I P).
    destruct (IH fuel (option_map (fun q => q ++ [b]) buf) (advance 1 1 s)
                 (sofar ++ [b])) as (fuel' & buf' & Rm' & B' & E).
    + simpl. replace (end_ s + 1 + len raw) with (end_ s + (1 + len raw)) by lia.
      exact S2.
    + simpl. lia.
    + destruct buf; simpl in *; [subst; reflexivity|].
      eapply slice_app; [exact B | exact S1].
    + simpl. lia.
    + apply remaining_advance; [exact Rm | lia].
    + rewrite advance_advance in Rm', B', E. rewrite <- app_assoc in B'.
      exists fuel', buf'. split; [exact Rm'|]. split; [exact B' | exact E].
  - rewrite !len_cons in *. pose proof (len_nonneg raw) as N.
    destruct (slice_app_inv _ [x5c; c] raw _ _ Sl) as (S1 & S2).
    change (len [x5c; c]) with 2 in S1, S2.
    assert (I : index (input s) (end_ s) = Return x5c).
    { rewrite <- (Z.add_0_r (end_ s)).
      eapply slice_index; [exact S1 | lia | reflexivity]. }
    assert (I1 : index (input s) (end_ s + 1) = Return c)
      by (eapply slice_index; [exact S1 | lia | reflexivity]).
    destruct fuel as [|fuel]; [unfold remaining in Rm; lia|].
    rewrite (readString_loop_escape_step _ _ _ _ _ _ I I1 Ec B).
    destruct (IH fuel (Some (sofar ++ [d])) (advance 2 2 s) (sofar ++ [d]))
      as (fuel' & buf' & Rm' & B' & E).
    + simpl. replace (end_ s + 2 + len raw) with (end_ s + (1 + (1 + len raw)))
        by lia.
      exact S2.
    + simpl. lia.
    + reflexivity.
    + simpl. lia.
    + unfold remaining in *. simpl. lia.
    + rewrite advance_advance in Rm', B', E. rewrite <- app_assoc in B'.
      replace (2 + len raw) with (1 + (1 + len raw)) in * by lia.
      exists fuel', buf'. split; [exact Rm'|]. split; [exact B' | exact E].
  - rewrite !len_cons, len_app in *. pose proof (len_nonneg raw) as N.
    assert (Ld' : len ds = 4) by (unfold len; rewrite Ld; reflexivity).
    rewrite Ld' in *.
    destruct (slice_app_inv _ [x5c; x75] (ds ++ raw) _ _ Sl) as (S1 & S2).
    change (len [x5c; x75]) with 2 in S1, S2.
    destruct (slice_app_inv _ ds raw _ _ S2) as (S3 & S4).
    rewrite Ld' in S3, S4.
    replace (end_ s + 2 + 4) with (end_ s + 6) in S3, S4 by lia.
    assert (I : index (input s) (end_ s) = Return x5c).
    { rewrite <- (Z.add_0_r (end_ s)).
      eapply slice_index; [exact S1 | lia | reflexivity]. }
    assert (I1 : index (input s) (end_ s + 1) = Return x75)
      by (eapply slice_index; [exact S1 | lia | reflexivity]).
    destruct fuel as [|fuel]; [unfold remaining in Rm; lia|].
    rewrite (readString_loop_unicode_step _ _ _ _ _ _ I I1 S3 ltac:(lia) U B).
    destruct (IH fuel (Some (sofar ++ EncodeRune u)) (advance 6 6 s)
                 (sofar ++ EncodeRune u))
      as (fuel' & buf' & Rm' & B' & E).
    + simpl. replace (end_ s + 6 + len raw)
        with (end_ s + (1 + (1 + (4 + len raw)))) by lia.
      exact S4.
    + simpl. lia.
    + reflexivity.
    + simpl. lia.
    + unfold remaining in *. simpl. lia.
    + rewrite advance_advance in Rm', B', E. rewrite <- app_assoc in B'.
      replace (6 + len raw) with (1 + (1 + (4 + len raw))) in * by lia.
      exists fuel', buf'. split; [exact Rm'|]. split; [exact B' | exact E].
Qed.

Lemma string_body_first (raw v : list byte) (b : byte) (rest : list byte) :
  string_body raw v -> raw = b :: rest -> b <> x22.
Proof.
  intros B E. destruct B; try discriminate E; injection E as <- _.
  - intros ->. discriminate.
  - discriminate.
  - discriminate.
Qed.


(** ** Block strings *)

Lemma readBlockString_loop_plain_step
      (fuel : nat) (buf : list byte) (s : Lexer) (b : byte) :
  index (input s) (end_ s) = Return b -> is_block_plain b = true ->
  readBlockString_loop (S fuel) buf s
  = readBlockString_loop fuel (buf ++ [b]) (advance 1 1 s).
Proof.
  intros I P. pose proof (index_Return _ _ _ I) as [R _].
  cbn [readBlockString_loop]. cbv zeta.
  replace (end_ s <? len (input s)) with true by (symmetry; apply Z.ltb_lt; lia).
  rewrite I. cbn [bind].
  destruct b; try discriminate P; reflexivity.
Qed.

Lemma readBlockString_loop_escaped_step
      (fuel : nat) (buf : list byte) (s : Lexer) :
  slice (input s) (end_ s) (end_ s + 4) = Return (x5c :: triple_quote) ->
  readBlockString_loop (S fuel) buf s
  = readBlockString_loop fuel (buf ++ triple_quote) (advance 4 4 s).
Proof.
  intros Sl. pose proof (slice_Return _ _ _ _ Sl) as (R1 & R2 & _).
  assert (I : index (input s) (end_ s) = Return x5c).
  { rewrite <- (Z.add_0_r (end_ s)).
    eapply slice_index; [exact Sl | lia | reflexivity]. }
  cbn [readBlockString_loop]. cbv zeta.
  replace (end_ s <? len (input s)) with true by (symmetry; apply Z.ltb_lt; lia).
  rewrite I. cbn [bind].
  change (Byte.eqb x5c x22) with false. cbn [andb and_then bind].
  change ((bz x5c <? 32) && negb (Byte.eqb x5c x09) && negb (Byte.eqb x5c x0a)
          && negb (Byte.eqb x5c x0d)) with false.
  cbv iota.
  change (Byte.eqb x5c x5c) with true.
  replace (end_ s + 4 <=? len (input s)) with true
    by (symmetry; apply Z.leb_le; lia).
  cbn [andb and_then]. rewrite Sl. cbn [bind].
  reflexivity.
Qed.

Lemma readBlockString_loop_cr_step
      (fuel : nat) (buf : list byte) (s : Lexer) (c : byte) :
  index (input s) (end_ s) = Return x0d ->
  index (input s) (end_ s + 1) = Return c ->
  readBlockString_loop (S fuel) buf s
  = readBlockString_loop fuel (buf ++ [x0a])
      (if Byte.eqb c x0a then advance 2 2 s else advance 1 1 s).
Proof.
  intros I I1. pose proof (index_Return _ _ _ I) as [R _].
  pose proof (index_Return _ _ _ I1) as [R1 _].
  cbn [readBlockString_loop]. cbv zeta.
  replace (end_ s <? len (input s)) with true by (symmetry; apply Z.ltb_lt; lia).
  rewrite I. cbn [bind].
  change (Byte.eqb x0d x22) with false. cbn [andb and_then bind].
  change ((bz x0d <? 32) && negb (Byte.eqb x0d x09) && negb (Byte.eqb x0d x0a)
          && negb (Byte.eqb x0d x0d)) with false.
  cbv iota.
  change (Byte.eqb x0d x5c) with false. cbn [andb and_then bind].
  change (Byte.eqb x0d x0d) with true. cbv iota.
  replace (end_ s + 1 <=? len (input s)) with true
    by (symmetry; apply Z.leb_le; lia).
  cbn [and_then]. unfold byte_at_is. rewrite I1. cbn [bind].
  destruct (Byte.eqb c x0a); [rewrite advance_advance|]; reflexivity.
Qed.

Lemma readBlockString_loop_body_run (raw v : list byte) :
  block_body raw v ->
  forall (fuel : nat) (buf : list byte) (s : Lexer),
    slice (input s) (end_ s) (end_ s + len raw) = Return raw ->
    (remaining s <= fuel)%nat ->
    exists fuel',
      (remaining (advance (len raw) (len raw) s) <= fuel')%nat
      /\ readBlockString_loop fuel buf s
         = readBlockString_loop fuel' (buf ++ v)
             (advance (len raw) (len raw) s).
Proof.
  induction 1 as [| b raw v P Bd IH | raw v Bd IH | raw v Bd IH
                  | c raw v Nc Bd IH];
    intros fuel buf s Sl Rm;
    pose proof (slice_Return _ _ _ _ Sl) as (R1 & R2 & _).
  - change (len (@nil byte)) with 0. rewrite advance_0, app_nil_r. eauto.
  - rewrite len_cons in *. pose proof (len_nonneg raw) as N.
    destruct (slice_app_inv _ [b] raw _ _ Sl) as (S1 & S2).
    change (len [b]) with 1 in S1, S2.
    assert (I : index (input s) (end_ s) = Return b).
    { rewrite <- (Z.add_0_r (end_ s)).
      eapply slice_index; [exact S1 | lia | reflexivity]. }
    destruct fuel as [|fuel]; [unfold remaining in Rm; lia|].
    rewrite (readBlockString_loop_plain_step _ _ _ _ I P).
    destruct (IH fuel (buf ++ [b]) (advance 1 1 s)) as (fuel' & Rm' & E).
    + simpl. replace (end_ s + 1 + len raw) with (end_ s + (1 + len raw)) by lia.
      exact S2.
    + apply remaining_advance; [exact Rm | lia].
    + rewrite advance_advance in Rm', E. rewrite <- app_assoc in E.
      exists fuel'. split; [exact Rm' | exact E].
  - change (x5c :: triple_quote ++ raw) with ((x5c :: triple_quote) ++ raw) in *.
    rewrite len_app in *. change (len (x5c :: triple_quote)) with 4 in *.
    pose proof (len_nonneg raw) as N.
    destruct (slice_app_inv _ (x5c :: triple_quote) raw _ _ Sl) as (S1 & S2).
    change (len (x5c :: triple_quote)) with 4 in S1, S2.
    destruct fuel as [|fuel]; [unfold remaining in Rm; lia|].
    rewrite (readBlockString_loop_escaped_step _ _ _ S1).
    destruct (IH fuel (buf ++ triple_quote) (advance 4 4 s)) as (fuel' & Rm' & E).
    + simpl. replace (end_ s + 4 + len raw) with (end_ s + (4 + len raw)) by lia.
      exact S2.
    + unfold remaining in *. simpl. lia.
    + rewrite advance_advance in Rm', E. rewrite <- app_assoc in E.
      exists fuel'. split; [exact Rm' | exact E].
  - rewrite !len_cons in *. pose proof (len_nonneg raw) as N.
    destruct (slice_app_inv _ [x0d; x0a] raw _ _ Sl) as (S1 & S2).
    change (len [x0d; x0a]) with 2 in S1, S2.
    assert (I : index (input s) (end_ s) = Return x0d).
    { rewrite <- (Z.add_0_r (end_ s)).
      eapply slice_index; [exact S1 | lia | reflexivity]. }
    assert (I1 : index (input s) (end_ s + 1) = Return x0a)
      by (eapply slice_index; [exact S1 | lia | reflexivity]).
    destruct fuel as [|fuel]; [unfold remaining in Rm; lia|].
    rewrite (readBlockString_loop_cr_step _ _ _ _ I I1).
    change (Byte.eqb x0a x0a) with true. cbv iota.
    destruct (IH fuel (buf ++ [x0a]) (advance 2 2 s)) as (fuel' & Rm' & E).
    + simpl. replace (end_ s + 2 + len raw) with (end_ s + (1 + (1 + len raw)))
        by lia.
      exact S2.
    + unfold remaining in *. simpl. lia.
    + rewrite advance_advance in Rm', E. rewrite <- app_assoc in E.
      replace (2 + len raw) with (1 + (1 + len raw)) in * by lia.
      exists fuel'. split; [exact Rm' | exact E].
  - rewrite !len_cons in *. pose proof (len_nonneg raw) as N.
    destruct (slice_app_inv _ [x0d] (c :: raw) _ _ Sl) as (S1 & S2).
    change (len [x0d]) with 1 in S1, S2.
    assert (I : index (input s) (end_ s) = Return x0d).
    { rewrite <- (Z.add_0_r (end_ s)).
      eapply slice_index; [exact S1 | lia | reflexivity]. }
    assert (I1 : index (input s) (end_ s + 1) = Return c).
    { rewrite <- (Z.add_0_r (end_ s + 1)).
      eapply slice_index; [exact S2 | lia | reflexivity]. }
    destruct fuel as [|fuel]; [unfold remaining in Rm; lia|].
    rewrite (readBlockString_loop_cr_step _ _ _ _ I I1).
    replace (Byte.eqb c x0a) with false
      by (symmetry; destruct (Byte.eqb c x0a) eqn:X; [|reflexivity];
          apply byte_eqb_eq in X; contradiction).
    destruct (IH fuel (buf ++ [x0a]) (advance 1 1 s)) as (fuel' & Rm' & E).
    + cbn [end_ input advance].
      replace (end_ s + 1 + (1 + len raw)) with (end_ s + (1 + (1 + len raw)))
        by lia.
      exact S2.
    + apply remaining_advance; [exact Rm | lia].
    + rewrite advance_advance in Rm', E. rewrite <- app_assoc in E.
      exists fuel'. split; [exact Rm' | exact E].
Qed.

Lemma starts_with3_hit (lit : list byte) (s : Lexer) :
  slice (input s) (start s) (start s + 3) = Return lit ->
  starts_with3 lit s = Return true.
Proof.
  intros Sl. pose proof (slice_Return _ _ _ _ Sl) as (R1 & R2 & _).
  unfold starts_with3.
  replace (start s + 2 <? len (input s)) with true
    by (symmetry; apply Z.ltb_lt; lia).
  cbn [and_then]. rewrite Sl. cbn [bind]. f_equal.
  clear. induction lit as [|x l IH]; [reflexivity|]. simpl.
  rewrite IH. replace (Byte.eqb x x) with true
    by (symmetry; apply byte_eqb_eq; reflexivity).
  reflexivity.
Qed.

(** After the opening quotes and a body, [ReadToken] is the loop of
    [readBlockString] at the byte behind the body, with the body's value in
    the buffer. *)
Lemma ReadToken_block_body (s s1 : Lexer) (raw v : list byte) :
  peeked s = false -> ws s = Return s1 ->
  slice (input s1) (end_ s1) (end_ s1 + (3 + len raw))
  = Return (triple_quote ++ raw) ->
  block_body raw v ->
  let s0 := advance (len raw) (len raw)
              (advance 2 2 (advanceStart 3 3 (advance 1 1 (syncStart s1)))) in
  exists fuel,
    (remaining s0 <= fuel)%nat
    /\ ReadToken s
       = ('(s0', t, e) <- readBlockString_loop fuel v s0 ;;
          Return (set_lastToken t s0', t, e)).
Proof.
  intros P W Sl Bd s0. pose proof (len_nonneg raw) as N.
  destruct (slice_app_inv _ triple_quote raw _ _ Sl) as (S1 & S2).
  change (len triple_quote) with 3 in S1, S2.
  assert (I : index (input s1) (end_ s1) = Return x22).
  { rewrite <- (Z.add_0_r (end_ s1)).
    eapply slice_index; [exact S1 | lia | reflexivity]. }
  rewrite (ReadToken_dispatch _ _ _ P W I) by discriminate.
  change (classify x22) with CQuote. cbn [scan_class].
  rewrite starts_with3_hit by exact S1.
  cbn [bind]. unfold readBlockString. cbv zeta.
  destruct (readBlockString_loop_body_run raw v Bd
              (remaining (advance 2 2 (advanceStart 3 3
                                         (advance 1 1 (syncStart s1)))))
              []
              (advance 2 2 (advanceStart 3 3 (advance 1 1 (syncStart s1)))))
    as (fuel' & Rm & E).
  - simpl. replace (end_ s1 + 1 + 2 + len raw) with (end_ s1 + (3 + len raw))
      by lia.
    replace (end_ s1 + 1 + 2) with (end_ s1 + 3) by lia. exact S2.
  - lia.
  - exists fuel'. split; [exact Rm|]. rewrite E. reflexivity.
Qed.

(** Three quotes, a body and three quotes are a [BlockString] token: its
    value is [blockStringValue] of the collected body, it spans the six
    quotes, every byte of the body counting as a rune, and its column is the
    column of the character behind the opening quotes.  The lexer stays on
    the line it was on, whatever line breaks the body holds. *)
Theorem block_string_token (s s1 : Lexer) (raw v : list byte) :
  peeked s = false -> ws s = Return s1 ->
  slice (input s1) (end_ s1) (end_ s1 + (3 + len raw + 3))
  = Return (triple_quote ++ raw ++ triple_quote) ->
  block_body raw v ->
  exists s',
    ReadToken s
    = Return (s',
              mkToken BlockString (endRunes s1) (endRunes s1 + len raw + 6)
                      (blockStringValue v) (line s1)
                      (endRunes s1 - lineStartRunes s1 + 4),
              None)
    /\ end_ s' = end_ s1 + len raw + 6
    /\ endRunes s' = endRunes s1 + len raw + 6
    /\ line s' = line s1.
Proof.
  intros P W Sl Bd. pose proof (len_nonneg raw) as N.
  rewrite app_assoc in Sl.
  destruct (slice_app_inv _ (triple_quote ++ raw) triple_quote _ _ Sl)
    as (S1 & S2).
  rewrite len_app in S1, S2. change (len triple_quote) with 3 in S1, S2.
  destruct (ReadToken_block_body _ _ _ _ P W S1 Bd) as (fuel & Rm & ->).
  set (s0 := advance (len raw) (len raw)
               (advance 2 2 (advanceStart 3 3 (advance 1 1 (syncStart s1))))) in *.
  assert (E0 : end_ s0 = end_ s1 + (3 + len raw))
    by (unfold s0; cbn [end_ advance advanceStart syncStart]; lia).
  pose proof (slice_Return _ _ _ _ S2) as (R1 & R2 & _).
  assert (Q : index (input s1) (end_ s1 + (3 + len raw)) = Return x22).
  { rewrite <- (Z.add_0_r (end_ s1 + (3 + len raw))).
    eapply slice_index; [exact S2 | lia | reflexivity]. }
  destruct fuel as [|fuel];
    [unfold remaining in Rm; change (input s0) with (input s1) in Rm; lia|].
  cbn [readBlockString_loop]. cbv zeta.
  replace (end_ s0 <? len (input s0)) with true
    by (symmetry; apply Z.ltb_lt; change (input s0) with (input s1); lia).
  change (input s0) with (input s1). rewrite E0, Q. cbn [bind].
  change (Byte.eqb x22 x22) with true.
  replace (end_ s1 + (3 + len raw) + 3 <=? len (input s1)) with true
    by (symmetry; apply Z.leb_le; lia).
  cbn [andb and_then].
  replace (end_ s1 + (3 + len raw) + 3) with (end_ s1 + (3 + len raw + 3)) by lia.
  rewrite S2. cbn [bind].
  change (bytes_eqb triple_quote triple_quote) with true. cbv iota.
  unfold makeToken.
  assert (Sv : exists q, slice (input s0) (start s0) (end_ s0) = Return q).
  { exists raw. simpl.
    destruct (slice_app_inv _ triple_quote raw _ _ S1) as (_ & S3).
    change (len triple_quote) with 3 in S3.
    replace (end_ s1 + 1 + 2 + len raw) with (end_ s1 + (3 + len raw)) by lia.
    exact S3. }
  destruct Sv as (q & Sv). rewrite Sv. cbn [bind].
  eexists. split; [| split; [| split]].
  - f_equal. f_equal. f_equal. simpl. f_equal; lia.
  - simpl. lia.
  - simpl. lia.
  - reflexivity.
Qed.

(** An open block string whose body is followed by the end of the input is
    reported as [Unterminated string.]; when a single carriage return stands
    between the body and the end of the input, [ReadToken] panics: the test
    for a line feed behind it indexes the input at its length. *)
Theorem open_block_string (s s1 : Lexer) (raw v : list byte) :
  peeked s = false -> ws s = Return s1 ->
  slice (input s1) (end_ s1) (end_ s1 + (3 + len raw))
  = Return (triple_quote ++ raw) ->
  block_body raw v ->
  (end_ s1 + (3 + len raw) = len (input s1) ->
   exists s' t,
     ReadToken s = Return (s', t, Some msg_unterminated)
     /\ Kind t = Invalid /\ Start t = endRunes s1 + 3
     /\ End_ t = endRunes s1 + 3 + len raw)
  /\ (end_ s1 + (3 + len raw) + 1 = len (input s1) ->
      index (input s1) (end_ s1 + (3 + len raw)) = Return x0d ->
      ReadToken s = Panic).
Proof.
  intros P W Sl Bd. pose proof (len_nonneg raw) as N.
  destruct (ReadToken_block_body _ _ _ _ P W Sl Bd) as (fuel & Rm & ->).
  set (s0 := advance (len raw) (len raw)
               (advance 2 2 (advanceStart 3 3 (advance 1 1 (syncStart s1))))) in *.
  assert (E0 : end_ s0 = end_ s1 + (3 + len raw))
    by (unfold s0; cbn [end_ advance advanceStart syncStart]; lia).
  split.
  - intros L.
    assert (G : readBlockString_loop fuel v s0 = makeError msg_unterminated s0).
    { destruct fuel; cbn [readBlockString_loop]; cbv zeta;
        replace (end_ s0 <? len (input s0)) with false
          by (symmetry; apply Z.ltb_ge; change (input s0) with (input s1); lia);
        reflexivity. }
    rewrite G. unfold makeError. cbn [bind].
    do 2 eexists. split; [reflexivity|]. simpl. repeat split; lia.
  - intros L I.
    destruct fuel as [|fuel];
      [unfold remaining in Rm; change (input s0) with (input s1) in Rm; lia|].
    cbn [readBlockString_loop]. cbv zeta.
    replace (end_ s0 <? len (input s0)) with true
      by (symmetry; apply Z.ltb_lt; change (input s0) with (input s1); lia).
    change (input s0) with (input s1). rewrite E0, I. cbn [bind].
    change (Byte.eqb x0d x22) with false. cbn [andb and_then bind].
    change ((bz x0d <? 32) && negb (Byte.eqb x0d x09) && negb (Byte.eqb x0d x0a)
            && negb (Byte.eqb x0d x0d)) with false.
    cbv iota.
    change (Byte.eqb x0d x5c) with false. cbn [andb and_then bind].
    change (Byte.eqb x0d x0d) with true. cbv iota.
    replace (end_ s1 + (3 + len raw) + 1 <=? len (input s1)) with true
      by (symmetry; apply Z.leb_le; lia).
    cbn [and_then]. unfold byte_at_is, index.
    replace ((0 <=? end_ s1 + (3 + len raw) + 1)
             && (end_ s1 + (3 + len raw) + 1 <? len (input s1))) with false
      by (symmetry; apply andb_false_iff; right; apply Z.ltb_ge; lia).
    reflexivity.
Qed.

(** ** Comments *)

Lemma decode_consumed_high (b0 : byte) (t : list byte) (r w : Z) :
  DecodeRuneInString (b0 :: t) = (r, w) -> 0x80 <= bz b0 ->
  Forall (fun b => 0x80 <= bz b) (firstn (Z.to_nat w) (b0 :: t)).
Proof.
  intros D H. unfold DecodeRuneInString in D.
  destruct (bz b0 <? 0x80) eqn:C; [apply Z.ltb_lt in C; lia|].
  assert (One : forall x, (RuneError, 1) = (x, w) ->
                  Forall (fun b => 0x80 <= bz b) (firstn (Z.to_nat w) (b0 :: t))).
  { intros x X. injection X as _ <-. simpl. repeat constructor. exact H. }
  destruct (lead_info (bz b0)) as [[[sz lo] hi]|] eqn:LI; [| eapply One; eauto].
  assert (Lo : 0x80 <= lo).
  { unfold lead_info in LI.
    repeat match type of LI with
    | (if ?c then _ else _) = _ => destruct c
    end; try discriminate LI; injection LI as _ <- _; lia. }
  assert (In : forall l h b, 0x80 <= l -> negb (in_range l h b) = false ->
                             0x80 <= bz b).
  { intros l h b L X. apply negb_false_iff in X. unfold in_range in X.
    apply andb_true_iff in X. destruct X as [X _]. apply Z.leb_le in X. lia. }
  destruct t as [|b1 t1]; [eapply One; eauto|].
  destruct (negb (in_range lo hi b1)) eqn:C1; [eapply One; eauto|].
  pose proof (In _ _ _ Lo C1) as H1.
  destruct (sz <=? 2).
  { injection D as _ <-. simpl. repeat constructor; assumption. }
  destruct t1 as [|b2 t2]; [eapply One; eauto|].
  destruct (negb (in_range 128 191 b2)) eqn:C2; [eapply One; eauto|].
  pose proof (In 128 191 b2 ltac:(lia) C2) as H2.
  destruct (sz <=? 3).
  { injection D as _ <-. simpl. repeat constructor; assumption. }
  destruct t2 as [|b3 t3]; [eapply One; eauto|].
  destruct (negb (in_range 128 191 b3)) eqn:C3; [eapply One; eauto|].
  pose proof (In 128 191 b3 ltac:(lia) C3) as H3.
  injection D as _ <-. simpl. repeat constructor; assumption.
Qed.

(** One step over the rune at the cursor consumes its bytes; they are the
    rune itself when it is ASCII, and bytes from 0x80 on otherwise. *)
Lemma peek_consumed (s : Lexer) (r w : Z) :
  0 <= end_ s < len (input s) -> peek s = Return (r, w) ->
  exists q, consumed s (advance w 1 s) q
    /\ Forall (fun b => bz b = r /\ r < 0x80 \/ 0x80 <= bz b /\ 0x80 <= r) q.
Proof.
  intros L H.
  pose proof (moved_peek s r w ltac:(apply Z.ltb_lt; lia) H) as M.
  unfold peek in H. inv_bind H. injection H as D.
  apply slice_suffix in E. destruct E as [R ->].
  destruct (index_in_range (input s) (end_ s) ltac:(lia)) as (b & I).
  pose proof (decode_width _ (skipn_nonempty (input s) (end_ s) ltac:(lia))) as W.
  rewrite D in W. simpl in W. rewrite len_skipn in W by lia.
  exists (firstn (Z.to_nat w) (skipn (Z.to_nat (end_ s)) (input s))).
  split.
  - split; [exact M|]. cbn [end_ advance]. unfold slice.
    replace ((0 <=? end_ s) && (end_ s <=? end_ s + w)
             && (end_ s + w <=? len (input s))) with true
      by (symmetry; rewrite !andb_true_iff; repeat split; apply Z.leb_le; lia).
    do 2 f_equal. lia.
  - rewrite (index_skipn _ _ _ I) in *.
    destruct (Z.lt_ge_cases (bz b) 0x80) as [A|A].
    + rewrite (decode_ascii _ _ A) in D. injection D as <- <-.
      simpl. constructor; [| constructor]. left. split; [reflexivity | exact A].
    + pose proof (decode_nonascii b (skipn (Z.to_nat (end_ s + 1)) (input s)) A)
        as Hr.
      rewrite D in Hr. simpl in Hr.
      eapply Forall_impl; [| eapply decode_consumed_high; eauto].
      intros x X. right. split; assumption.
Qed.

Lemma readComment_loop_spec (fuel : nat) (s s' : Lexer) :
  readComment_loop fuel s = Return s' -> 0 <= end_ s <= len (input s) ->
  comment_ends_at s'
  /\ exists q, consumed s s' q
               /\ Forall (fun b => is_comment_byte b = true) q.
Proof.
  revert s s'. induction fuel as [|fuel IH]; intros s s' H R;
    cbn [readComment_loop] in H;
    (destruct (end_ s <? len (input s)) eqn:C;
     [| injection H as <-; split;
        [left; apply Z.ltb_ge; exact C
        | exists []; split; [apply consumed_refl; exact R | constructor]]]).
  - discriminate.
  - apply Z.ltb_lt in C. inv_bind H. destruct a as [r w].
    destruct (peek_byte _ _ _ C E) as (b & I & A & B).
    destruct ((31 <? r) || (r =? 9)) eqn:X.
    + destruct (peek_consumed s r w ltac:(lia) E) as (q1 & C1 & F1).
      pose proof (consumed_next _ _ _ C1) as R1.
      destruct (IH _ _ H R1) as (St & q2 & C2 & F2).
      split; [exact St|]. exists (q1 ++ q2).
      split; [eapply consumed_trans; eauto|].
      apply Forall_app. split; [| exact F2].
      eapply Forall_impl; [| exact F1]. intros x Hx. unfold is_comment_byte.
      apply orb_true_iff.
      destruct Hx as [(Hx & Lt) | (Hx & _)]; [| left; apply Z.leb_le; lia].
      apply orb_true_iff in X. destruct X as [X | X].
      * left. apply Z.leb_le. apply Z.ltb_lt in X. lia.
      * right. apply Z.eqb_eq in X. apply byte_eqb_eq.
        rewrite <- (byte_of_Z_bz x), Hx, X. reflexivity.
    + injection H as <-. split.
      * right. exists b. split; [exact I|].
        apply orb_false_iff in X. destruct X as [X1 X2].
        apply Z.ltb_ge in X1. apply Z.eqb_neq in X2.
        destruct (Z.lt_ge_cases (bz b) 0x80) as [Lb|Lb]; [| specialize (B Lb); lia].
        destruct (A Lb) as [-> _].
        unfold is_comment_byte. apply orb_false_iff. split.
        -- apply Z.leb_gt. lia.
        -- destruct (Byte.eqb b x09) eqn:Y; [|reflexivity].
           apply byte_eqb_eq in Y. subst b. exfalso. apply X2. reflexivity.
      * exists []. split; [apply consumed_refl; exact R | constructor].
Qed.

(** A comment runs to the end of its line and no further: [readComment]
    makes a [Comment] token whose value is the input from the number sign
    on, no byte of which is a control character other than the tab, and it
    stops at the end of the input or at such a control character, as the
    line feed and the carriage return are. *)
Theorem comment_runs_to_line_end (s s' : Lexer) (t : Token) (e : error) :
  start s + 1 = end_ s -> 0 <= start s -> end_ s <= len (input s) ->
  index (input s) (start s) = Return x23 ->
  readComment s = Return (s', t, e) ->
  Kind t = Comment /\ e = None
  /\ slice (input s) (start s) (end_ s') = Return (Value t)
  /\ (exists q, Value t = x23 :: q
                /\ Forall (fun b => is_comment_byte b = true) q)
  /\ comment_ends_at s'.
Proof.
  intros St R0 R1 I H. unfold readComment in H. inv_bind H. rename a into s2.
  destruct (readComment_loop_spec _ _ _ E ltac:(lia)) as (En & q & (M & Sl) & F).
  apply makeToken_Return in H as X. destruct X as (-> & K & -> & _).
  unfold makeToken in H. inv_bind H. injection H as <-.
  destruct M as (Sh & M1 & _). apply shell_input in Sh.
  rewrite Sh, M1 in E0.
  split; [exact K|]. split; [reflexivity|]. cbn [Value].
  split; [exact E0|]. split; [| exact En].
  exists q. split; [| exact F].
  pose proof (slice_one _ _ _ I) as S1. rewrite St in S1.
  pose proof (slice_app _ _ _ _ _ _ S1 Sl) as S2.
  rewrite E0 in S2. injection S2 as ->. reflexivity.
Qed.

(** ** Numbers are as long as they can be *)

Lemma acceptDigits_loop_stops (fuel : nat) (c : Z) (s s' : Lexer) (c' : Z) :
  acceptDigits_loop fuel c s = Return (s', c') -> digits_end_at s'.
Proof.
  revert c s. induction fuel as [|fuel IH]; intros c s H;
    cbn [acceptDigits_loop] in H; inv_bind H; destruct a;
    try discriminate H; try (eapply IH; exact H);
    injection H as <- <-; unfold and_then in E;
    (destruct (end_ s <? len (input s)) eqn:C;
     [| left; apply Z.ltb_ge; exact C]);
    inv_bind E; injection E as E; right; eauto.
Qed.

Lemma acceptByte_miss (accepted : list byte) (s s' : Lexer) :
  0 <= end_ s <= len (input s) ->
  acceptByte accepted s = Return (s', false) ->
  s' = s
  /\ (len (input s) <= end_ s
      \/ exists b, index (input s) (end_ s) = Return b /\ ~ In b accepted).
Proof.
  intros R H. pose proof (acceptByte_spec _ _ _ _ H) as E. simpl in E.
  split; [exact E|].
  destruct (acceptByte_consumed _ _ _ _ R H) as (q & _ & _ & N).
  destruct (Z.le_gt_cases (len (input s)) (end_ s)) as [L|L]; [left; exact L|].
  right. destruct (index_in_range (input s) (end_ s) ltac:(lia)) as (b & I).
  exists b. split; [exact I | apply N; exact I].
Qed.

Lemma makeToken_same (k : TokenType) (s s' : Lexer) (t : Token) (e : error) :
  makeToken k s = Return (s', t, e) -> s' = s /\ Kind t = k.
Proof.
  intros H. apply makeToken_Return in H. destruct H as (A & B & _). auto.
Qed.

Ltac no_error H :=
  exfalso; inv_bind H; apply makeError_Return in H;
  destruct H as (_ & ? & _); congruence.

Lemma readNumber_exponent_ends (float : bool) (s s' : Lexer) (t : Token) (e : error) :
  0 <= end_ s <= len (input s) -> digits_end_at s ->
  readNumber_exponent float s = Return (s', t, e) -> Kind t <> Invalid ->
  digits_end_at s'
  /\ (Kind t = Int ->
      float = false
      /\ (len (input s') <= end_ s'
          \/ exists c, index (input s') (end_ s') = Return c
                       /\ c <> x65 /\ c <> x45)).
Proof.
  intros R D H N. unfold readNumber_exponent in H.
  inv_bind H. destruct a as [s1 hit]. destruct hit.
  - inv_bind H. destruct a as [s2 sign].
    inv_bind H. destruct a as [s3 c].
    destruct (c =? 0); [no_error H|].
    apply makeToken_same in H. destruct H as (-> & K).
    split; [eapply acceptDigits_loop_stops; exact E1|].
    intros X. congruence.
  - apply (acceptByte_miss _ _ _ R) in E. destruct E as (-> & M).
    assert (T : s' = s /\ (Kind t = Int -> float = false)).
    { destruct float; apply makeToken_same in H; destruct H as (-> & K);
        split; auto; intros X; congruence. }
    destruct T as (-> & T). split; [exact D|].
    intros X. split; [exact (T X)|].
    destruct M as [M | (b & I & Nb)]; [left; exact M|].
    right. exists b. split; [exact I|].
    split; intros ->; apply Nb; simpl; auto.
Qed.

Lemma readNumber_fraction_ends (s s' : Lexer) (t : Token) (e : error) :
  0 <= end_ s <= len (input s) -> digits_end_at s ->
  readNumber_fraction s = Return (s', t, e) -> Kind t <> Invalid ->
  digits_end_at s' /\ (Kind t = Int -> int_ends_at s').
Proof.
  intros R D H N. unfold readNumber_fraction in H.
  inv_bind H. destruct a as [s1 hit]. destruct hit.
  - destruct (acceptByte_consumed _ _ _ _ R E) as (q1 & C1 & _).
    next_range C1 R1.
    inv_bind H. destruct a as [s2 c].
    destruct (acceptDigits_consumed _ _ _ R1 E0) as (q2 & C2 & _).
    next_range C2 R2.
    destruct (c =? 0); [no_error H|].
    destruct (readNumber_exponent_ends _ _ _ _ _ R2
                (acceptDigits_loop_stops _ _ _ _ _ E0) H N) as (A & B).
    split; [exact A|]. intros X. destruct (B X) as (F & _). discriminate F.
  - apply (acceptByte_miss _ _ _ R) in E. destruct E as (-> & M).
    pose proof (readNumber_exponent_moved _ _ _ _ _ H) as ((Sh & _) & _).
    destruct (readNumber_exponent_ends _ _ _ _ _ R D H N) as (A & B).
    split; [exact A|]. intros X. destruct (B X) as (_ & Ne).
    assert (s' = s) as ->.
    { unfold readNumber_exponent in H. inv_bind H. destruct a as [s2 hit].
      destruct hit.
      - inv_bind H. destruct a as [s3 sg]. inv_bind H. destruct a as [s4 c].
        destruct (c =? 0); [no_error H|].
        apply makeToken_same in H. destruct H as (_ & K). congruence.
      - apply acceptByte_spec in E. simpl in E. subst s2.
        apply makeToken_same in H. destruct H as (-> & _). reflexivity. }
    destruct A as [A | (c & I & Dg)]; [left; exact A|].
    right. exists c. split; [exact I|]. split; [exact Dg|].
    destruct M as [M | (b & Ib & Nb)];
      [apply index_Return in I; lia|].
    destruct Ne as [Ne | (c' & Ic & Ne1 & Ne2)];
      [apply index_Return in I; lia|].
    assert (b = c) by congruence. assert (c' = c) by congruence. subst.
    split; [intros ->; apply Nb; simpl; auto | split; assumption].
Qed.

Lemma readNumber_ends (s s' : Lexer) (t : Token) (e : error) :
  0 <= end_ s - 1 <= len (input s) ->
  readNumber s = Return (s', t, e) -> Kind t <> Invalid ->
  digits_end_at s' /\ (Kind t = Int -> int_ends_at s').
Proof.
  intros R H N. unfold readNumber in H. cbv zeta in H.
  set (s0 := advance (-1) (-1) s) in *.
  assert (R0 : 0 <= end_ s0 <= len (input s0)) by (unfold s0; simpl; lia).
  inv_bind H. destruct a as [s1 minus].
  destruct (acceptByte_consumed _ _ _ _ R0 E) as (q1 & C1 & _).
  next_range C1 R1.
  inv_bind H. destruct a as [s2 zero].
  destruct (acceptByte_consumed _ _ _ _ R1 E0) as (q2 & C2 & _).
  next_range C2 R2.
  inv_bind H. destruct a as [s3 c].
  destruct (acceptDigits_consumed _ _ _ R2 E1) as (q3 & C3 & _).
  next_range C3 R3.
  pose proof (acceptDigits_loop_stops _ _ _ _ _ E1) as D.
  destruct zero.
  - destruct (negb (c =? 0)); [no_error H|].
    eapply readNumber_fraction_ends; eauto.
  - destruct (c =? 0); [no_error H|].
    eapply readNumber_fraction_ends; eauto.
Qed.

Lemma number_token_ends_fresh (s s' : Lexer) (t : Token) (e : error) :
  peeked s = false -> ReadToken s = Return (s', t, e) ->
  (Kind t = Int -> int_ends_at s') /\ (Kind t = Float -> digits_end_at s').
Proof.
  intros P H.
  assert (G : Kind t = Int \/ Kind t = Float ->
              digits_end_at s' /\ (Kind t = Int -> int_ends_at s')).
  { intros K. apply (ReadToken_fuel_cases _ _ _ _ _ P) in H.
    destruct H as (s2 & s0 & TS & -> & D).
    apply token_start_props in TS.
    destruct TS as (T0 & T1 & T2 & T3 & T4 & T5 & T6).
    destruct D as [(C & H) | (r & I & H)].
    - apply makeToken_Return in H. destruct H as (_ & K' & _).
      destruct K; congruence.
    - pose proof (scan_class_spec _ _ _ _ _ T3 T4 H) as (_ & CK).
      pose proof (class_kind_Number _ _ CK K) as Cl. rewrite Cl in H.
      cbn [scan_class] in H.
      pose proof (index_Return _ _ _ I) as [R _].
      apply readNumber_ends in H;
        [| simpl; lia | destruct K as [K|K]; rewrite K; discriminate].
      exact H. }
  split; intros K.
  - apply G; auto.
  - apply G; auto.
Qed.

(** A number is as long as it can be: behind an [Int] token the input ends
    or goes on with a byte that is no digit, no dot and no exponent mark;
    behind a [Float] token the input ends or goes on with a byte that is no
    digit. *)
Theorem number_token_is_maximal
        (inp : list byte) (s s' : Lexer) (t : Token) (e : error) :
  reachable inp s -> ReadToken s = Return (s', t, e) ->
  (Kind t = Int -> int_ends_at s') /\ (Kind t = Float -> digits_end_at s').
Proof.
  intros R H.
  apply (reachable_read_ind
           (fun s' t e =>
              (Kind t = Int -> int_ends_at s')
              /\ (Kind t = Float -> digits_end_at s')))
    with (inp := inp) (s := s) (s' := s') (e := e); auto.
  intros. eapply number_token_ends_fresh; eauto.
Qed.

(** ** Escape sequences that are none *)

(** After the opening quote and a body that a byte follows, [ReadToken] is
    the loop of [readString] at that byte, with the body decoded. *)
Lemma ReadToken_string_body (s s1 : Lexer) (raw v : list byte) (nb : byte) :
  peeked s = false -> ws s = Return s1 ->
  slice (input s1) (end_ s1) (end_ s1 + (1 + len raw)) = Return (x22 :: raw) ->
  string_body raw v ->
  index (input s1) (end_ s1 + (1 + len raw)) = Return nb -> nb <> x22 ->
  let s2 := advance (len raw) (len raw)
              (advanceStart 1 1 (advance 1 1 (syncStart s1))) in
  exists fuel buf,
    (remaining s2 <= fuel)%nat /\ buffered buf s2 v
    /\ ReadToken s
       = ('(s0', t, e) <- readString_loop fuel buf s2 ;;
          Return (set_lastToken t s0', t, e)).
Proof.
  intros P W Sl Bd Inb Nq s2. pose proof (len_nonneg raw) as N.
  destruct (slice_app_inv _ [x22] raw _ _ Sl) as (S1 & S3).
  change (len [x22]) with 1 in S1, S3.
  assert (I : index (input s1) (end_ s1) = Return x22).
  { rewrite <- (Z.add_0_r (end_ s1)).
    eapply slice_index; [exact S1 | lia | reflexivity]. }
  pose proof (index_Return _ _ _ I) as [R _].
  pose proof (index_Return _ _ _ Inb) as [Rn _].
  assert (NT : index (input s1) (end_ s1 + 1) <> Return x22
               \/ index (input s1) (end_ s1 + 2) <> Return x22).
  { left. destruct raw as [|b rest] eqn:Er.
    - change (len (@nil byte)) with 0 in Inb.
      replace (end_ s1 + (1 + 0)) with (end_ s1 + 1) in Inb by lia.
      rewrite Inb. intros X. injection X as X. contradiction.
    - replace (index (input s1) (end_ s1 + 1)) with (Return (A := byte) b).
      + intros X. injection X as X.
        exact (string_body_first _ _ _ _ Bd eq_refl X).
      + symmetry. rewrite <- (Z.add_0_r (end_ s1 + 1)).
        eapply slice_index; [exact S3 | | reflexivity].
        rewrite len_cons. pose proof (len_nonneg rest). lia. }
  rewrite (ReadToken_dispatch _ _ _ P W I) by discriminate.
  change (classify x22) with CQuote. cbn [scan_class].
  rewrite starts_with3_false;
    [| simpl; lia | simpl; apply not_triple_quote; exact NT].
  cbn [bind]. unfold readString. cbv zeta.
  set (s0 := advanceStart 1 1 (advance 1 1 (syncStart s1))) in *.
  destruct (readString_loop_body_run raw v Bd (remaining s0) None s0 [])
    as (fuel & buf & Rm & B & E).
  - cbn [end_ input s0 advanceStart advance syncStart].
    replace (end_ s1 + 1 + len raw) with (end_ s1 + (1 + len raw)) by lia.
    exact S3.
  - cbn [end_ input s0 advanceStart advance syncStart]. lia.
  - cbn [buffered end_ start input s0 advanceStart advance syncStart].
    apply slice_empty. lia.
  - cbn [end_ start s0 advanceStart advance syncStart]. lia.
  - lia.
  - exists fuel, buf. split; [exact Rm|]. split; [exact B|].
    rewrite E. reflexivity.
Qed.

(** A backslash that begins no escape sequence is an error, wherever in a
    string it stands: behind a decoded body, a backslash and a character
    that is none of the escapes gives [Invalid character escape sequence]
    with that character, and a backslash, [u] and four bytes that are not
    all hexadecimal digits gives it with these five bytes.  The cursor is
    left behind the backslash. *)
Theorem string_escape_errors (s s1 : Lexer) (raw v : list byte) :
  peeked s = false -> ws s = Return s1 ->
  slice (input s1) (end_ s1) (end_ s1 + (1 + len raw)) = Return (x22 :: raw) ->
  string_body raw v ->
  index (input s1) (end_ s1 + (1 + len raw)) = Return x5c ->
  (forall c,
      index (input s1) (end_ s1 + (1 + len raw) + 1) = Return c ->
      c <> x75 -> escape_byte c = None ->
      exists s' t,
        ReadToken s = Return (s', t, Some (msg_escape (string_of_byte c)))
        /\ Kind t = Invalid /\ end_ s' = end_ s1 + (1 + len raw) + 1)
  /\ (forall ds,
      slice (input s1) (end_ s1 + (1 + len raw) + 1)
            (end_ s1 + (1 + len raw) + 6) = Return (x75 :: ds) ->
      end_ s1 + (1 + len raw) + 6 < len (input s1) ->
      unhex ds = None ->
      exists s' t,
        ReadToken s = Return (s', t, Some (msg_escape (x75 :: ds)))
        /\ Kind t = Invalid /\ end_ s' = end_ s1 + (1 + len raw) + 1).
Proof.
  intros P W Sl Bd I.
  destruct (ReadToken_string_body _ _ _ _ _ P W Sl Bd I ltac:(discriminate))
    as (fuel & buf & Rm & B & ->).
  set (s2 := advance (len raw) (len raw)
               (advanceStart 1 1 (advance 1 1 (syncStart s1)))) in *.
  pose proof (len_nonneg raw) as N.
  assert (E2 : end_ s2 = end_ s1 + (1 + len raw))
    by (unfold s2; cbn [end_ advance advanceStart syncStart]; lia).
  pose proof (index_Return _ _ _ I) as [R _].
  assert (Eb : exists b, match buf with
                         | Some b => Return b
                         | None => slice (input s2) (start s2) (end_ s2)
                         end = Return b)
    by (destruct buf; unfold buffered in B; eauto).
  destruct Eb as (b0 & Eb).
  destruct fuel as [|fuel];
    [unfold remaining in Rm; change (input s2) with (input s1) in Rm; lia|].
  assert (Head :
             index (input s1) (end_ s1 + (1 + len raw) + 1) <> Panic ->
             readString_loop (S fuel) buf s2
             = (escape <- index (input s1) (end_ s1 + (1 + len raw) + 1) ;;
                if Byte.eqb escape x75 then
                  if len (input s1) <=? end_ s1 + (1 + len raw) + 6 then
                    let s3 := advance 1 1 s2 in
                    rest <- slice (input s3) (end_ s3) (len (input s1)) ;;
                    makeError (msg_escape rest) s3
                  else
                    digits <- slice (input s1) (end_ s1 + (1 + len raw) + 2)
                                    (end_ s1 + (1 + len raw) + 6) ;;
                    match unhex digits with
                    | None =>
                      let s3 := advance 1 1 s2 in
                      shown <- slice (input s3) (end_ s3) (end_ s3 + 5) ;;
                      makeError (msg_escape shown) s3
                    | Some u =>
                      readString_loop fuel (Some (WriteRune b0 u)) (advance 6 6 s2)
                    end
                else
                  match escape_byte escape with
                  | Some c =>
                    readString_loop fuel (Some (WriteByte b0 c)) (advance 2 2 s2)
                  | None =>
                    makeError (msg_escape (string_of_byte escape)) (advance 1 1 s2)
                  end)).
  { intros NP. cbn [readString_loop]. cbv zeta.
    replace (end_ s2 <? len (input s2)) with true
      by (symmetry; apply Z.ltb_lt; change (input s2) with (input s1); lia).
    change (input s2) with (input s1). rewrite E2. rewrite I. cbn [bind].
    change (Byte.eqb x5c x0a || Byte.eqb x5c x0d) with false.
    change ((bz x5c <? 32) && negb (Byte.eqb x5c x09)) with false.
    cbv iota.
    assert (L : end_ s1 + (1 + len raw) + 1 < len (input s1)).
    { destruct (index (input s1) (end_ s1 + (1 + len raw) + 1)) eqn:X;
        try contradiction; [apply index_Return in X; lia|].
      unfold index in X.
      destruct ((0 <=? end_ s1 + (1 + len raw) + 1)
                && (end_ s1 + (1 + len raw) + 1 <? len (input s1))) eqn:Y;
        [| discriminate X].
      apply andb_true_iff in Y. destruct Y as [_ Y]. apply Z.ltb_lt in Y. lia. }
    replace (len (input s1) <=? end_ s1 + (1 + len raw) + 1) with false
      by (symmetry; apply Z.leb_gt; lia).
    change (input s2) with (input s1) in Eb. rewrite E2 in Eb. rewrite Eb.
    cbn [bind]. reflexivity. }
  split.
  - intros c Ic Nu Ec.
    rewrite Head by (rewrite Ic; discriminate).
    rewrite Ic. cbn [bind].
    replace (Byte.eqb c x75) with false
      by (symmetry; destruct (Byte.eqb c x75) eqn:X; [|reflexivity];
          apply byte_eqb_eq in X; contradiction).
    rewrite Ec. unfold makeError. cbn [bind].
    do 2 eexists. split; [reflexivity|]. split; [reflexivity|].
    cbn [end_ set_lastToken advance]. rewrite E2. reflexivity.
  - intros ds Sd L U.
    pose proof (len_nonneg ds) as Nd.
    destruct (slice_app_inv _ [x75] ds _ _ Sd) as (S1 & S2).
    change (len [x75]) with 1 in S1, S2.
    assert (Iu : index (input s1) (end_ s1 + (1 + len raw) + 1) = Return x75).
    { rewrite <- (Z.add_0_r (end_ s1 + (1 + len raw) + 1)).
      eapply slice_index; [exact S1 | lia | reflexivity]. }
    rewrite Head by (rewrite Iu; discriminate).
    rewrite Iu. cbn [bind]. change (Byte.eqb x75 x75) with true. cbv iota.
    replace (len (input s1) <=? end_ s1 + (1 + len raw) + 6) with false
      by (symmetry; apply Z.leb_gt; lia).
    replace (end_ s1 + (1 + len raw) + 2) with (end_ s1 + (1 + len raw) + 1 + 1)
      by lia.
    rewrite S2. cbn [bind]. rewrite U. cbv zeta.
    cbn [end_ input advance]. change (input s2) with (input s1). rewrite E2.
    replace (end_ s1 + (1 + len raw) + 1 + 5) with (end_ s1 + (1 + len raw) + 6)
      by lia.
    rewrite Sd. unfold makeError. cbn [bind].
    do 2 eexists. split; [reflexivity|]. split; [reflexivity|].
    cbn [end_ set_lastToken advance]. rewrite E2. reflexivity.
Qed.

End Lexer.

(** ** The theorems at given inputs *)

(** C2 as it is stated fails: whatever [blockStringValue] is, the token of
    the twelve-byte input does not end at 13. *)
Lemma string_escapes_end_is_not_13 :
  ~ (exists bsv s' t e,
        ReadToken bsv (New input_escapes) = Return (s', t, e)
        /\ Kind t = String /\ Value t = value_escapes
        /\ Start t = 0 /\ End_ t = 13).
Proof.
  intros (bsv & s' & t & e & H & _ & _ & _ & E).
  destruct (input_escapes_result bsv) as (s0 & H0).
  rewrite H0 in H. injection H as _ <- _. discriminate E.
Qed.

Lemma rune_offsets_count_code_points_witness :
  ValidString input_accent = true
  /\ reachable rawBlockString input_accent (New input_accent)
  /\ exists s' t e,
       ReadToken rawBlockString (New input_accent) = Return (s', t, e)
       /\ start s' = 1 /\ startRunes s' = 1 /\ end_ s' = 4 /\ endRunes s' = 3
       /\ prefix_runes (input s') (start s') = Return (startRunes s')
       /\ prefix_runes (input s') (end_ s') = Return (endRunes s').
Proof.
  assert (V : ValidString input_accent = true) by reflexivity.
  pose proof (reach_new rawBlockString input_accent) as R.
  split; [exact V|]. split; [exact R|].
  do 3 eexists.
  assert (H : ReadToken rawBlockString (New input_accent) = Return _)
    by (vm_compute; reflexivity).
  split; [exact H|]. do 4 (split; [reflexivity|]).
  pose proof (rune_offsets_count_code_points rawBlockString _ _ _ _ _ V R H)
    as (_ & P1 & P2 & _).
  split; [exact P1 | exact P2].
Defined.

Lemma PeekToken_then_ReadToken_witness :
  exists s1 t,
    PeekToken rawBlockString (New input_two_names) = Return (s1, t)
    /\ Value t = bytes "a"
    /\ (exists s2, ReadToken rawBlockString s1 = Return (s2, t, peekError s1)
                   /\ end_ s2 = end_ s1 /\ endRunes s2 = endRunes s1)
    /\ PeekToken rawBlockString s1 = Return (s1, t).
Proof.
  do 2 eexists.
  assert (H : PeekToken rawBlockString (New input_two_names) = Return (_, _))
    by (vm_compute; reflexivity).
  split; [exact H|]. split; [reflexivity|].
  pose proof (PeekToken_then_ReadToken rawBlockString _ _ _ H) as (A & B & _).
  split; [exact A | exact B].
Defined.

Lemma leading_zero_error_witness :
  exists s',
    ReadToken rawBlockString (New input_leading_zero)
    = Return (s', mkToken Invalid 0 1 [] 1 2,
              Some (bytes "Invalid number, unexpected digit after 0: "
                    ++ dquote ++ [x31] ++ dquote ++ bytes "."))
    /\ end_ s' = 1
    /\ index (input s') (end_ s') = Return x31.
Proof.
  exact (proj1 (leading_zero_error rawBlockString)
               (New input_leading_zero) (New input_leading_zero) false x31
               eq_refl eq_refl (fun H => False_ind _ (Bool.diff_false_true H))
               eq_refl eq_refl eq_refl).
Defined.

Lemma ReadToken_never_Comment_witness :
  reachable rawBlockString input_comment (New input_comment)
  /\ exists s' t e,
       ReadToken rawBlockString (New input_comment) = Return (s', t, e)
       /\ Value t = bytes "42" /\ Kind t <> Comment.
Proof.
  pose proof (reach_new rawBlockString input_comment) as R.
  split; [exact R|]. do 3 eexists.
  assert (H : ReadToken rawBlockString (New input_comment) = Return (_, _, _))
    by (vm_compute; reflexivity).
  split; [exact H|]. split; [reflexivity|].
  exact (proj1 (ReadToken_never_Comment rawBlockString) _ _ _ _ _ R H).
Defined.

Lemma EOF_idempotent_witness :
  reachable rawBlockString [] (New [])
  /\ exists s1 t e,
       ReadToken rawBlockString (New []) = Return (s1, t, e) /\ Kind t = EOF
       /\ steps rawBlockString s1 s1
       /\ exists s3 t' e',
            ReadToken rawBlockString s1 = Return (s3, t', e') /\ Kind t' = EOF.
Proof.
  pose proof (reach_new rawBlockString []) as R.
  split; [exact R|]. do 3 eexists.
  assert (H : ReadToken rawBlockString (New []) = Return (_, _, _))
    by (vm_compute; reflexivity).
  split; [exact H|]. split; [reflexivity|].
  split; [apply steps_refl|].
  exact (EOF_idempotent rawBlockString _ _ _ _ _ _ R H eq_refl
                        (steps_refl _ _)).
Defined.

Lemma PeekToken_sets_lastToken_witness :
  ReadToken rawBlockString (New input_two_names)
  = Return (state_after_a, token_a, None)
  /\ exists s2 tb,
       PeekToken rawBlockString state_after_a = Return (s2, tb)
       /\ Value tb = bytes "b"
       /\ LastToken s2 = tb.
Proof.
  assert (H1 : ReadToken rawBlockString (New input_two_names)
               = Return (state_after_a, token_a, None))
    by (vm_compute; reflexivity).
  split; [exact H1|]. do 2 eexists.
  assert (H2 : PeekToken rawBlockString state_after_a = Return (_, _))
    by (vm_compute; reflexivity).
  split; [exact H2|]. split; [reflexivity|].
  exact (PeekToken_sets_lastToken rawBlockString input_two_names _ _ _
           (reach_step _ _ _ _ (reach_new _ _) (step_read _ _ _ _ _ H1)) H2).
Defined.

(** ** The further theorems at given inputs *)

Lemma simple_token_is_source_slice_witness :
  reachable rawBlockString input_two_names (New input_two_names)
  /\ ReadToken rawBlockString (New input_two_names)
     = Return (state_after_a, token_a, None)
  /\ slice (input state_after_a) (start state_after_a) (end_ state_after_a)
     = Return (bytes "a")
  /\ Start token_a = startRunes state_after_a
  /\ End_ token_a = endRunes state_after_a.
Proof.
  pose proof (reach_new rawBlockString input_two_names) as R.
  assert (H : ReadToken rawBlockString (New input_two_names)
              = Return (state_after_a, token_a, None))
    by (vm_compute; reflexivity).
  split; [exact R|]. split; [exact H|].
  apply (simple_token_is_source_slice rawBlockString _ _ _ _ _ R H);
    simpl; discriminate.
Defined.

Lemma token_position_bounds_witness :
  exists s' t e,
    ReadToken rawBlockString state_after_a = Return (s', t, e)
    /\ Value t = bytes "b"
    /\ Start t <= End_ t /\ Line t = line s' /\ 1 <= Line t /\ 1 <= Column t.
Proof.
  assert (H1 : ReadToken rawBlockString (New input_two_names)
               = Return (state_after_a, token_a, None))
    by (vm_compute; reflexivity).
  do 3 eexists.
  assert (H2 : ReadToken rawBlockString state_after_a = Return (_, _, _))
    by (vm_compute; reflexivity).
  split; [exact H2|]. split; [reflexivity|].
  exact (token_position_bounds rawBlockString input_two_names _ _ _ _
           (reach_step _ _ _ _ (reach_new _ _) (step_read _ _ _ _ _ H1)) H2).
Defined.

Lemma error_iff_Invalid_witness :
  exists s' t e,
    ReadToken rawBlockString (New input_vertical_tab) = Return (s', t, e)
    /\ (e <> None <-> Kind t = Invalid) /\ (Kind t = Invalid -> Value t = [])
    /\ Kind t = Invalid.
Proof.
  do 3 eexists.
  assert (H : ReadToken rawBlockString (New input_vertical_tab)
              = Return (_, _, _)) by (vm_compute; reflexivity).
  split; [exact H|].
  pose proof (error_iff_Invalid rawBlockString _ _ _ _ _
                (reach_new _ input_vertical_tab) H) as (A & B).
  split; [exact A|]. split; [exact B | reflexivity].
Defined.

Lemma tokens_in_input_order_witness :
  exists ts,
    read_n rawBlockString 3 (New input_two_names) = Return ts
    /\ length ts = 3%nat /\ ordered 0 ts.
Proof.
  eexists.
  assert (H : read_n rawBlockString 3 (New input_two_names) = Return _)
    by (vm_compute; reflexivity).
  split; [exact H|]. split; [reflexivity|].
  exact (tokens_in_input_order rawBlockString _ _ _ H).
Defined.

Lemma ws_stops_at_significant_byte_witness :
  ws state_after_a = Return (advance 1 1 state_after_a)
  /\ significant_at (advance 1 1 state_after_a).
Proof.
  assert (H : ws state_after_a = Return (advance 1 1 state_after_a))
    by (vm_compute; reflexivity).
  split; [exact H|]. exact (ws_stops_at_significant_byte _ _ H).
Defined.

Lemma ws_idempotent_witness :
  ws state_after_a = Return (advance 1 1 state_after_a)
  /\ ws (advance 1 1 state_after_a) = Return (advance 1 1 state_after_a).
Proof.
  assert (H : ws state_after_a = Return (advance 1 1 state_after_a))
    by (vm_compute; reflexivity).
  split; [exact H|]. exact (ws_idempotent _ _ H).
Defined.

Lemma ws_counts_line_breaks_witness :
  exists s',
    ws (advance 1 1 (New input_crlf)) = Return s'
    /\ slice input_crlf 1 (end_ s') = Return [x0d; x0a]
    /\ line s' = 1 + line_breaks [x0d; x0a]
    /\ line s' = 2.
Proof.
  eexists.
  assert (H : ws (advance 1 1 (New input_crlf)) = Return _)
    by (vm_compute; reflexivity).
  assert (S : slice input_crlf 1 3 = Return [x0d; x0a]) by reflexivity.
  split; [exact H|]. split; [exact S|].
  split; [| reflexivity].
  exact (ws_counts_line_breaks _ _ _ H S).
Defined.

Lemma unexpected_character_not_consumed_witness :
  exists s' t m,
    ReadToken rawBlockString (New [x3f]) = Return (s', t, Some m)
    /\ Kind t = Invalid /\ Start t = 0 /\ End_ t = 0
    /\ end_ s' = 0
    /\ ReadToken rawBlockString s' = Return (s', t, Some m).
Proof.
  exact (unexpected_character_not_consumed rawBlockString
           (New [x3f]) (New [x3f]) x3f eq_refl eq_refl eq_refl eq_refl).
Defined.

Lemma spread_or_unexpected_dot_witness :
  exists s' t e,
    ReadToken rawBlockString (New (bytes "...")) = Return (s', t, e)
    /\ Kind t = Spread /\ Value t = bytes "..." /\ e = None
    /\ End_ t = 3 /\ end_ s' = 3.
Proof.
  destruct (spread_or_unexpected_dot rawBlockString
              (New (bytes "...")) (New (bytes "...")) eq_refl eq_refl eq_refl)
    as (s' & t & e & H & _ & A & _).
  exists s', t, e. split; [exact H|]. exact (A eq_refl).
Defined.

Lemma name_token_grammar_witness :
  reachable rawBlockString input_two_names (New input_two_names)
  /\ ReadToken rawBlockString (New input_two_names)
     = Return (state_after_a, token_a, None)
  /\ name_ends_at state_after_a
  /\ exists b rest,
       Value token_a = b :: rest /\ is_name_start b = true
       /\ Forall (fun c => is_name_rune (bz c) = true) rest.
Proof.
  pose proof (reach_new rawBlockString input_two_names) as R.
  assert (H : ReadToken rawBlockString (New input_two_names)
              = Return (state_after_a, token_a, None))
    by (vm_compute; reflexivity).
  split; [exact R|]. split; [exact H|].
  exact (name_token_grammar rawBlockString _ _ _ _ _ R H eq_refl).
Defined.

Lemma number_token_grammar_witness :
  exists s' t e,
    ReadToken rawBlockString (New input_comment) = Return (s', t, e)
    /\ Kind t = Int /\ Value t = bytes "42" /\ int_value (Value t).
Proof.
  do 3 eexists.
  assert (H : ReadToken rawBlockString (New input_comment) = Return (_, _, _))
    by (vm_compute; reflexivity).
  split; [exact H|]. split; [reflexivity|]. split; [reflexivity|].
  exact (proj1 (number_token_grammar rawBlockString _ _ _ _ _
                  (reach_new _ input_comment) H) eq_refl).
Defined.

Lemma unhex_correct_witness :
  (length (bytes "00e9") <= 7)%nat
  /\ unhex (bytes "00e9") = Some 233
  /\ Forall (fun b => is_hex b = true) (bytes "00e9")
  /\ 233 = hex_number 0 (bytes "00e9") /\ 0 <= 233 < 16 ^ len (bytes "00e9").
Proof.
  assert (L : (length (bytes "00e9") <= 7)%nat) by (simpl; lia).
  assert (H : unhex (bytes "00e9") = Some 233) by reflexivity.
  split; [exact L|]. split; [exact H|].
  exact (proj2 (unhex_correct rawBlockString (bytes "00e9") L) 233 H).
Defined.


Lemma unterminated_string_witness :
  exists s',
    ReadToken rawBlockString (New ([x22] ++ bytes "hi"))
    = Return (s', mkToken Invalid 1 3 [] 1 4, Some msg_unterminated)
    /\ end_ s' = 3.
Proof.
  refine (unterminated_string rawBlockString
            (New ([x22] ++ bytes "hi")) (New ([x22] ++ bytes "hi")) (bytes "hi")
            eq_refl eq_refl eq_refl _ (or_introl eq_refl)).
  repeat constructor.
Defined.

Lemma PeekToken_changes_no_token_witness :
  exists s1 t ts,
    PeekToken rawBlockString (New input_two_names) = Return (s1, t)
    /\ read_n rawBlockString 3 (New input_two_names) = Return ts
    /\ read_n rawBlockString 3 s1 = Return ts
    /\ length ts = 3%nat.
Proof.
  do 3 eexists.
  assert (H : PeekToken rawBlockString (New input_two_names) = Return (_, _))
    by (vm_compute; reflexivity).
  assert (H2 : read_n rawBlockString 3 (New input_two_names) = Return _)
    by (vm_compute; reflexivity).
  split; [exact H|]. split; [exact H2|].
  split; [| reflexivity].
  exact (proj2 (PeekToken_changes_no_token rawBlockString _ _ _ 3 _ H) H2).
Defined.

Lemma token_is_not_empty_witness :
  ReadToken rawBlockString (New input_two_names)
  = Return (state_after_a, token_a, None)
  /\ Start token_a < End_ token_a
  /\ Value token_a <> []
  /\ end_ (New input_two_names) < end_ state_after_a.
Proof.
  assert (H : ReadToken rawBlockString (New input_two_names)
              = Return (state_after_a, token_a, None))
    by (vm_compute; reflexivity).
  assert (N1 : Kind token_a <> Invalid) by (simpl; discriminate).
  assert (N2 : Kind token_a <> EOF) by (simpl; discriminate).
  pose proof (token_is_not_empty rawBlockString _ _ _ _ _
                (reach_new _ input_two_names) H N1 N2) as (A & B & C).
  split; [exact H|]. split; [exact A|].
  split; [apply B; simpl; discriminate | apply C; reflexivity].
Defined.


Lemma block_string_token_witness :
  exists s',
    ReadToken rawBlockString (New input_block_lf)
    = Return (s',
              mkToken BlockString 0 9 (bytes "a" ++ [x0a] ++ bytes "b") 1 4,
              None)
    /\ end_ s' = 9 /\ endRunes s' = 9 /\ line s' = 1.
Proof.
  assert (Bd : block_body (bytes "a" ++ [x0a] ++ bytes "b")
                          (bytes "a" ++ [x0a] ++ bytes "b")).
  { repeat (apply block_plain; [reflexivity|]). apply block_end. }
  exact (block_string_token rawBlockString
           (New input_block_lf) (New input_block_lf)
           (bytes "a" ++ [x0a] ++ bytes "b") (bytes "a" ++ [x0a] ++ bytes "b")
           eq_refl eq_refl eq_refl Bd).
Defined.

Lemma open_block_string_witness :
  ReadToken rawBlockString (New (triple_quote ++ bytes "ab" ++ [x0d])) = Panic
  /\ exists s' t,
       ReadToken rawBlockString (New (triple_quote ++ bytes "ab"))
       = Return (s', t, Some msg_unterminated)
       /\ Kind t = Invalid /\ Start t = 3 /\ End_ t = 5.
Proof.
  assert (Bd : block_body (bytes "ab") (bytes "ab")).
  { repeat (apply block_plain; [reflexivity|]). apply block_end. }
  split.
  - exact (proj2 (open_block_string rawBlockString
                    (New (triple_quote ++ bytes "ab" ++ [x0d]))
                    (New (triple_quote ++ bytes "ab" ++ [x0d]))
                    (bytes "ab") (bytes "ab")
                    eq_refl eq_refl eq_refl Bd) eq_refl eq_refl).
  - exact (proj1 (open_block_string rawBlockString
                    (New (triple_quote ++ bytes "ab"))
                    (New (triple_quote ++ bytes "ab"))
                    (bytes "ab") (bytes "ab")
                    eq_refl eq_refl eq_refl Bd) eq_refl).
Defined.

Lemma comment_runs_to_line_end_witness :
  exists s' t,
    readComment (advance 1 1 (New input_comment)) = Return (s', t, None)
    /\ Kind t = Comment
    /\ Value t = bytes "# hi"
    /\ index input_comment (end_ s') = Return x0a
    /\ comment_ends_at s'.
Proof.
  do 2 eexists.
  assert (H : readComment (advance 1 1 (New input_comment))
              = Return (_, _, None)) by (vm_compute; reflexivity).
  split; [exact H|].
  assert (R0 : 0 <= start (advance 1 1 (New input_comment))) by (simpl; lia).
  assert (R1 : end_ (advance 1 1 (New input_comment))
               <= len (input (advance 1 1 (New input_comment))))
    by (vm_compute; discriminate).
  pose proof (comment_runs_to_line_end rawBlockString
                (advance 1 1 (New input_comment)) _ _ _
                eq_refl R0 R1 eq_refl H) as (K & _ & _ & _ & En).
  split; [exact K|]. split; [reflexivity|]. split; [reflexivity | exact En].
Defined.

Lemma number_token_is_maximal_witness :
  exists s' t e,
    ReadToken rawBlockString (New (bytes "12 34")) = Return (s', t, e)
    /\ Kind t = Int /\ Value t = bytes "12" /\ int_ends_at s'.
Proof.
  do 3 eexists.
  assert (H : ReadToken rawBlockString (New (bytes "12 34")) = Return (_, _, _))
    by (vm_compute; reflexivity).
  split; [exact H|]. split; [reflexivity|]. split; [reflexivity|].
  exact (proj1 (number_token_is_maximal rawBlockString _ _ _ _ _
                  (reach_new _ (bytes "12 34")) H) eq_refl).
Defined.

Lemma string_escape_errors_witness :
  exists s' t,
    ReadToken rawBlockString (New ([x22] ++ bytes "a\x" ++ [x22]))
    = Return (s', t, Some (bytes "Invalid character escape sequence: \x."))
    /\ Kind t = Invalid /\ end_ s' = 3.
Proof.
  assert (Bd : string_body (bytes "a") (bytes "a"))
    by (apply body_plain; [reflexivity | apply body_end]).
  refine (proj1 (string_escape_errors rawBlockString
                   (New ([x22] ++ bytes "a\x" ++ [x22]))
                   (New ([x22] ++ bytes "a\x" ++ [x22]))
                   (bytes "a") (bytes "a")
                   eq_refl eq_refl eq_refl Bd eq_refl) x78 eq_refl _ eq_refl).
  discriminate.
Defined.
